(** * A dice statistics engine: model and verification

    This development embeds the dice calculator (the classes [Dice],
    [DiceResult] and [DiceCalculator] of [js/calculate.js] and the helpers
    [require] and [simulateSumToInfinity], and the handling of a request in
    [js/index.js]) in Rocq and checks the statements of its specification
    against it.

    Conventions of the embedding.

    - A JavaScript number that holds an integer (dice counts, sides,
      modifiers, loop indices, results of [parseInt]) is a [number]: either
      [NaN] or [Int z] with [z : Z].  The integers are exact; the rounding of
      doubles beyond 2^53 is not modelled.
    - A JavaScript number that holds a probability or a moment is a [real]:
      either [RNaN] or [Val q] with [q] an exact canonical rational ([Qc]).
      The arithmetic of doubles is idealised to exact arithmetic.
    - Exceptions are values of [outcome]: [Throw msg] carries the thrown
      message.  Loops with no bound in the source take a fuel argument and
      end in [OutOfFuel] when it runs out.
    - The two static caches of [DiceCalculator] are an explicit state, threaded
      through every method; each JavaScript object used as a table is a
      [gmap] keyed by the property name, the decimal string of the index. *)

From Stdlib Require Import ZArith QArith Qcanon Lia Lqa Ascii.
From Stdlib Require Import DecimalString DecimalZ DecimalPos.
From stdpp Require Import gmap strings.

Local Open Scope Z_scope.

(** ** Outcomes of a call *)

Inductive outcome (A : Type) : Type :=
| Ret (a : A)
| Throw (msg : string)
| OutOfFuel.
Arguments Ret {A} a.
Arguments Throw {A} msg.
Arguments OutOfFuel {A}.

Global Instance outcome_ret : MRet outcome := @Ret.
Global Instance outcome_bind : MBind outcome := λ A B f m,
  match m with
  | Ret a => f a
  | Throw msg => Throw msg
  | OutOfFuel => OutOfFuel
  end.

(** [require(bool, message)]: throws the message when the requirement does
    not hold. *)
Definition require (bool : bool) (message : string) : outcome unit :=
  if negb bool then Throw message else Ret tt.

(** ** Numbers *)

Inductive number : Type :=
| NaN
| Int (z : Z).

Inductive real : Type :=
| RNaN
| Val (q : Qc).

Module Number.

Definition lift2 (f : Z → Z → Z) (a b : number) : number :=
  match a, b with
  | Int x, Int y => Int (f x y)
  | _, _ => NaN
  end.

(** Every comparison with [NaN] is false. *)
Definition cmp (f : Z → Z → bool) (a b : number) : bool :=
  match a, b with
  | Int x, Int y => f x y
  | _, _ => false
  end.

Definition add : number → number → number := lift2 Z.add.
Definition sub : number → number → number := lift2 Z.sub.
Definition mul : number → number → number := lift2 Z.mul.

(** [a % b]: the remainder has the sign of the dividend; [a % 0] is NaN. *)
Definition rem (a b : number) : number :=
  match a, b with
  | Int x, Int y => if y =? 0 then NaN else Int (Z.rem x y)
  | _, _ => NaN
  end.

(** [Math.floor(a / b)].  A zero divisor gives an infinity or NaN in
    JavaScript and leaves the integers; no constructed dice has zero
    sides, and the model answers [NaN] there. *)
Definition floor_div (a b : number) : number :=
  match a, b with
  | Int x, Int y => if y =? 0 then NaN else Int (x / y)
  | _, _ => NaN
  end.

Definition lt : number → number → bool := cmp Z.ltb.
Definition le : number → number → bool := cmp Z.leb.
Definition gt : number → number → bool := cmp Z.gtb.
Definition ge : number → number → bool := cmp Z.geb.
(** [a === b] and [a !== b] on numbers. *)
Definition strict_eq : number → number → bool := cmp Z.eqb.
Definition strict_ne (a b : number) : bool := negb (strict_eq a b).

(** [Math.min] and [Math.abs]. *)
Definition min : number → number → number := lift2 Z.min.
Definition abs (a : number) : number :=
  match a with
  | Int x => Int (Z.abs x)
  | NaN => NaN
  end.

(** The string of a number, as in a template literal or a property name. *)
Definition toString (a : number) : string :=
  match a with
  | Int x => NilEmpty.string_of_int (Z.to_int x)
  | NaN => "NaN"
  end.

End Number.

Module Real.

Definition of_number (a : number) : real :=
  match a with
  | Int x => Val (Qc_of_Z x)
  | NaN => RNaN
  end.

Definition lift2 (f : Qc → Qc → Qc) (a b : real) : real :=
  match a, b with
  | Val x, Val y => Val (f x y)
  | _, _ => RNaN
  end.

Definition add : real → real → real := lift2 Qcplus.
Definition sub : real → real → real := lift2 Qcminus.
Definition mul : real → real → real := lift2 Qcmult.

(** [a / b].  Division by zero gives an infinity or NaN in JavaScript;
    the model answers [RNaN] there.  The engine divides by powers of the
    number of sides only. *)
Definition div (a b : real) : real :=
  match a, b with
  | Val x, Val y => if decide (y = 0%Qc) then RNaN else Val (x / y)%Qc
  | _, _ => RNaN
  end.

(** [a ** b] for an integer exponent, the only kind the engine forms.
    Anything to the power 0 is 1, also NaN. *)
Definition pow (a : real) (b : number) : real :=
  match b with
  | NaN => RNaN
  | Int 0 => Val 1%Qc
  | Int e =>
      match a with
      | RNaN => RNaN
      | Val x =>
          if 0 <? e then Val (x ^ Z.to_nat e)%Qc
          else div (Val 1%Qc) (Val (x ^ Z.to_nat (- e))%Qc)
      end
  end.

Definition ltb (x y : Qc) : bool :=
  match (x ?= y)%Qc with Lt => true | _ => false end.
Definition leb (x y : Qc) : bool :=
  match (x ?= y)%Qc with Gt => false | _ => true end.

Definition cmp (f : Qc → Qc → bool) (a b : real) : bool :=
  match a, b with
  | Val x, Val y => f x y
  | _, _ => false
  end.

Definition gt (a b : real) : bool := cmp ltb b a.
Definition ge (a b : real) : bool := cmp leb b a.

(** The decimal literal [n / d]. *)
Definition lit (n : Z) (d : positive) : real := Val (Q2Qc (n # d)).

End Real.

(** [Math.sqrt(x)], kept symbolic: the root of a rational is not a
    rational in general. *)
Inductive root : Type :=
| Math_sqrt (x : real).

(** ** Strings *)

Module Str.

(** The white space that [trim] and [parseInt] strip, within ASCII. *)
Definition is_whitespace (c : ascii) : bool :=
  let n := nat_of_ascii c in
  ((n =? 9) || (n =? 10) || (n =? 11) || (n =? 12) || (n =? 13)
   || (n =? 32))%nat.

Fixpoint trimStart (s : string) : string :=
  match s with
  | String c r => if is_whitespace c then trimStart r else s
  | EmptyString => EmptyString
  end.

Definition trimEnd (s : string) : string :=
  String.rev (trimStart (String.rev s)).

Definition trim (s : string) : string := trimEnd (trimStart s).

(** [s.split(re)] for a regular expression [re] that matches exactly the
    single characters satisfying [delim]. *)
Fixpoint split (delim : ascii → bool) (s : string) : list string :=
  match s with
  | EmptyString => [EmptyString]
  | String c r =>
      if delim c then EmptyString :: split delim r
      else match split delim r with
           | tok :: toks => String c tok :: toks
           | [] => [String c EmptyString]
           end
  end.

(** [s.includes(sub)]. *)
Fixpoint includes (s sub : string) : bool :=
  String.prefix sub s ||
  match s with
  | String _ r => includes r sub
  | EmptyString => false
  end.

(** The value of a digit in the radixes up to 36. *)
Definition digit_value (c : ascii) : option Z :=
  let n := Z.of_nat (nat_of_ascii c) in
  if (48 <=? n) && (n <=? 57) then Some (n - 48)
  else if (97 <=? n) && (n <=? 122) then Some (n - 87)
  else if (65 <=? n) && (n <=? 90) then Some (n - 55)
  else None.

(** The value of the longest prefix of digits of the radix; [acc] is the
    value read so far, [None] before the first digit. *)
Fixpoint parse_digits (radix : Z) (acc : option Z) (s : string) : option Z :=
  match s with
  | EmptyString => acc
  | String c r =>
      match digit_value c with
      | Some d =>
          if d <? radix
          then parse_digits radix (Some (default 0 acc * radix + d)) r
          else acc
      | None => acc
      end
  end.

(** [parseInt(s)] with no radix: leading white space, a sign, a [0x]
    prefix for radix 16, then the longest prefix of digits; NaN when there
    is no digit. *)
Definition parseInt (s : string) : number :=
  let s := trimStart s in
  let '(sign, s) :=
    match s with
    | String "-" r => (-1, r)
    | String "+" r => (1, r)
    | _ => (1, s)
    end in
  let '(radix, s) :=
    match s with
    | String "0" (String "x" r) => (16, r)
    | String "0" (String "X" r) => (16, r)
    | _ => (10, s)
    end in
  match parse_digits radix None s with
  | Some v => Int (sign * v)
  | None => NaN
  end.

End Str.

(** ** The class [Dice] *)

Module Dice.

Record t : Type := mk {
  name : string;
  count : number;
  sides : number;
  modifier : number;
}.

Definition constructor (name : string) (count sides modifier : number)
  : outcome t :=
  let this := mk name count sides modifier in
  _ ← require (Number.gt this.(Dice.count) (Int 0))
        "Dice count must be positive";
  _ ← require (Number.ge this.(Dice.sides) (Int 2))
        "Number of sides of a dice must be at least 2";
  _ ← require (Number.le this.(Dice.count) (Int 16))
        "Dice count may not exceed 32";
  _ ← require (Number.le this.(Dice.sides) (Int 100))
        "Number of sides may not exceed 100";
  mret this.

(** [prettyName(count, sides, modifier)]: the unified name
    "{count}d{sides}+{modifier}", the last part left out for modifier 0. *)
Definition prettyName (count sides modifier : number) : string :=
  let prettyName := Number.toString count +:+ "d" +:+ Number.toString sides in
  if Number.strict_ne modifier (Int 0)
  then prettyName
         +:+ (if Number.gt modifier (Int 0) then "+" else "-")
         +:+ Number.toString (Number.abs modifier)
  else prettyName.

(** The characters of the class [[dDwW+-]]. *)
Definition delimiter (c : ascii) : bool :=
  bool_decide (c ∈ ["d"; "D"; "w"; "W"; "+"; "-"]%char).

(** [Dice.parse(name)].  After the requirement on the number of tokens,
    [tokens[0]] and [tokens[1]] exist; [tokens[2]] may be undefined. *)
Definition parse (name : string) : outcome t :=
  let tokens := Str.split delimiter name in
  _ ← require (2 <=? length tokens)%nat
        ("Invalid dice description: " +:+ name);
  let diceCountString := Str.trim (nth 0 tokens "") in
  let count :=
    if (String.length diceCountString =? 0)%nat then Int 1
    else Str.parseInt diceCountString in
  let sides := Str.parseInt (Str.trim (nth 1 tokens "")) in
  let isNegative := Str.includes name "-" in
  let modifier :=
    match tokens !! 2%nat with
    | Some token => Str.parseInt (Str.trim token)
    | None => Int 0
    end in
  let modifier :=
    if isNegative then Number.mul modifier (Int (-1)) else modifier in
  let prettyName := prettyName count sides modifier in
  constructor prettyName count sides modifier.

(** [this.withCount(count, sides, modifier)]; the defaults of the
    parameters are filled in by the callers. *)
Definition withCount (this : t) (count sides modifier : number) : outcome t :=
  constructor (prettyName count sides modifier) count sides modifier.

End Dice.

(** ** The caches and the monad of the calculator

    [DiceCalculator.probabilityLessOrEqualCache] and
    [DiceCalculator.probabilityEqualCache] map the name of a dice to an
    object that maps an index [k] to a probability.  The objects are shared
    by every calculator of a dice of that name; a [table] is the reference
    to one of them. *)

Record caches : Type := mkCaches {
  probabilityLessOrEqualCache : gmap string (gmap string real);
  probabilityEqualCache : gmap string (gmap string real);
}.

Definition no_caches : caches := mkCaches ∅ ∅.

Definition M (A : Type) : Type := caches → outcome A * caches.

Global Instance M_ret : MRet M := λ A a c, (Ret a, c).
Global Instance M_bind : MBind M := λ A B f m c,
  match m c with
  | (Ret a, c') => f a c'
  | (Throw msg, c') => (Throw msg, c')
  | (OutOfFuel, c') => (OutOfFuel, c')
  end.

Definition lift {A} (o : outcome A) : M A := λ c, (o, c).

(** Left-to-right iteration of a body over a list of indices. *)
Fixpoint foldM {A I} (body : I → A → M A) (l : list I) (acc : A) : M A :=
  match l with
  | [] => mret acc
  | i :: l' => acc' ← body i acc; foldM body l' acc'
  end.

Fixpoint mapM {A B} (f : A → M B) (l : list A) : M (list B) :=
  match l with
  | [] => mret []
  | a :: l' => b ← f a; bs ← mapM f l'; mret (b :: bs)
  end.

(** The indices [i] of [for (let i = lo; i < hi; i++)]. *)
Definition indices (lo : Z) (hi : number) : list number :=
  match hi with
  | Int h => Int <$> seqZ lo (h - lo)
  | NaN => []
  end.

Inductive table : Type :=
| LessOrEqualTable (name : string)
| EqualTable (name : string).

Module Table.

Definition contents (t : table) (c : caches) : option (gmap string real) :=
  match t with
  | LessOrEqualTable name => probabilityLessOrEqualCache c !! name
  | EqualTable name => probabilityEqualCache c !! name
  end.

Definition update (t : table) (o : gmap string real) (c : caches) : caches :=
  match t with
  | LessOrEqualTable name =>
      mkCaches (<[name := o]> (probabilityLessOrEqualCache c))
               (probabilityEqualCache c)
  | EqualTable name =>
      mkCaches (probabilityLessOrEqualCache c)
               (<[name := o]> (probabilityEqualCache c))
  end.

(** The object of a name, created empty when the map does not have it. *)
Definition obtain (t : table) : M table := λ c,
  match contents t c with
  | Some _ => (Ret t, c)
  | None => (Ret t, update t ∅ c)
  end.

(** [k in cache ? Some cache[k] : None]. *)
Definition get (t : table) (k : number) : M (option real) := λ c,
  (Ret (o ← contents t c; o !! Number.toString k), c).

(** [cache[k] = value], on the object as it is now. *)
Definition set (t : table) (k : number) (value : real) : M unit := λ c,
  (Ret tt,
   update t (<[Number.toString k := value]> (default ∅ (contents t c))) c).

End Table.

(** ** The class [DiceResult] *)

Module DiceResult.

Record winProbability : Type := mkWin {
  diceName : string;
  probability : real;
}.

Record t : Type := mk {
  dice : Dice.t;
  expectedValue : real;
  median : real;
  variance : real;
  standardDeviation : root;
  pFail : real;
  pGreaterThan : list real;
  pToWinAgainstOthers : list winProbability;
}.

End DiceResult.

(** ** [simulateSumToInfinity] *)

Module Sum.

Record config : Type := mkConfig {
  threshold : real;
  minIterations : number;
  maxIterations : number;
  startIndex : number;
}.

(** The defaults: threshold 0.0001, at least 20 and at most 5000
    iterations, start at 1. *)
Definition defaults : config :=
  mkConfig (Real.lit 1 10000) (Int 20) (Int 5000) (Int 1).

Definition gap (bound start : number) : Z :=
  match Number.sub bound start with
  | Int d => d
  | NaN => 0
  end.

(** A bound on the number of rounds of the loop: the condition fails as
    soon as [i] has reached both [minIterations] and [maxIterations]. *)
Definition rounds (cfg : config) : nat :=
  S (Z.to_nat (Z.max (gap cfg.(minIterations) cfg.(startIndex))
                     (gap cfg.(maxIterations) cfg.(startIndex)))).

(** The [do ... while] loop; the variable [oldValue] of the source is
    written and never read. *)
Fixpoint do_while (fuel : nat) (sumFunction : number → M real) (cfg : config)
    (i : number) (newValue nextAddend : real) : M real :=
  match fuel with
  | O => lift OutOfFuel
  | S fuel' =>
      let i := Number.add i (Int 1) in
      let addend := nextAddend in
      nextAddend ← sumFunction (Number.add i (Int 1));
      let newValue := Real.add newValue addend in
      if Number.lt i cfg.(minIterations)
         || (Number.lt i cfg.(maxIterations)
             && (Real.gt addend cfg.(threshold)
                 || Real.gt nextAddend cfg.(threshold)))
      then do_while fuel' sumFunction cfg i newValue nextAddend
      else mret newValue
  end.

Definition simulateSumToInfinity (sumFunction : number → M real)
    (cfg : config) : M real :=
  let i := cfg.(startIndex) in
  newValue ← sumFunction i;
  nextAddend ← sumFunction (Number.add i (Int 1));
  do_while (rounds cfg) sumFunction cfg i newValue nextAddend.

End Sum.

(** ** The class [DiceCalculator] *)

Module DiceCalculator.

Record t : Type := new {
  dice : Dice.t;
  concurringDices : list Dice.t;
}.

Definition getProbabilityEqualCache (this : t) : M table :=
  Table.obtain (EqualTable this.(dice).(Dice.name)).

Definition getProbabilityLessOrEqualCache (this : t) : M table :=
  Table.obtain (LessOrEqualTable this.(dice).(Dice.name)).

Definition getExplosionCountForResult (this : t) (k : number) : number :=
  Number.floor_div k this.(dice).(Dice.sides).

(** The body of [calculateProbabilityForResultEqualTo(k)], with the method
    [probabilityForResultEqualTo] it calls on the calculators of the
    smaller dice as a parameter. *)
Definition calculateProbabilityForResultEqualTo_with
    (probabilityForResultEqualTo : t → number → M real)
    (this : t) (k : number) : M real :=
  let sides := this.(dice).(Dice.sides) in
  let count := this.(dice).(Dice.count) in
  let modifier := this.(dice).(Dice.modifier) in
  let kWithModifier := k in
  let kWithoutModifier := Number.sub k modifier in
  if Number.strict_eq count (Int 1)
       && Number.strict_eq (Number.rem kWithoutModifier sides) (Int 0)
     || Number.lt kWithoutModifier (Int 0)
  then mret (Val 0%Qc)
  else if Number.strict_eq count (Int 1)
  then
    mret (Real.div (Val 1%Qc)
            (Real.pow (Real.of_number sides)
               (Number.add (getExplosionCountForResult this kWithoutModifier)
                  (Int 1))))
  else
    singleDice ← lift (Dice.withCount this.(dice) (Int 1) sides modifier);
    simplerDice ←
      lift (Dice.withCount this.(dice) (Number.sub count (Int 1)) sides (Int 0));
    let singleDiceCalculator := new singleDice [] in
    let simplerDiceCalculator := new simplerDice [] in
    foldM (λ i result,
             p ← probabilityForResultEqualTo singleDiceCalculator i;
             q ← probabilityForResultEqualTo simplerDiceCalculator
                   (Number.sub kWithModifier i);
             mret (Real.add result (Real.mul p q)))
          (indices 1 kWithModifier) (Val 0%Qc).

(** [probabilityForResultEqualTo(k)]; the fuel bounds the nesting of the
    calls through dice of smaller count. *)
Fixpoint probabilityForResultEqualTo_fuel (fuel : nat) (this : t) (k : number)
  : M real :=
  match fuel with
  | O => lift OutOfFuel
  | S fuel' =>
      cache ← getProbabilityEqualCache this;
      cached ← Table.get cache k;
      match cached with
      | Some value => mret value
      | None =>
          result ← calculateProbabilityForResultEqualTo_with
                     (probabilityForResultEqualTo_fuel fuel') this k;
          _ ← Table.set cache k result;
          mret result
      end
  end.

(** The calls nest once per die: a dice of [count] dice needs fuel
    [count]. *)
Definition nesting (this : t) : nat :=
  match this.(dice).(Dice.count) with
  | Int c => Z.to_nat (Z.max 1 c)
  | NaN => 1
  end.

Definition probabilityForResultEqualTo (this : t) (k : number) : M real :=
  probabilityForResultEqualTo_fuel (nesting this) this k.

Definition calculateProbabilityForResultEqualTo (this : t) (k : number)
  : M real :=
  calculateProbabilityForResultEqualTo_with
    (probabilityForResultEqualTo_fuel (pred (nesting this))) this k.

Fixpoint probabilityForResultLessOrEqualTo_fuel (fuel : nat) (this : t)
    (k : number) : M real :=
  match fuel with
  | O => lift OutOfFuel
  | S fuel' =>
      cache ← getProbabilityLessOrEqualCache this;
      cached ← Table.get cache k;
      match cached with
      | Some value => mret value
      | None =>
          value ←
            (if Number.gt k (Number.add (Int 0) this.(dice).(Dice.modifier))
             then
               below ← probabilityForResultLessOrEqualTo_fuel fuel' this
                         (Number.sub k (Int 1));
               equal ← probabilityForResultEqualTo this k;
               mret (Real.add below equal)
             else mret (Val 0%Qc));
          _ ← Table.set cache k value;
          mret value
      end
  end.

(** The calls nest once per index above the modifier. *)
Definition descent (this : t) (k : number) : nat :=
  match Number.sub k (Number.add (Int 0) this.(dice).(Dice.modifier)) with
  | Int d => S (Z.to_nat d)
  | NaN => 1
  end.

Definition probabilityForResultLessOrEqualTo (this : t) (k : number) : M real :=
  probabilityForResultLessOrEqualTo_fuel (descent this k) this k.

Definition probabilityForResultLessThan (this : t) (k : number) : M real :=
  probabilityForResultLessOrEqualTo this (Number.sub k (Int 1)).

Definition probabilityForResultGreaterThan (this : t) (k : number) : M real :=
  p ← probabilityForResultLessOrEqualTo this k;
  mret (Real.sub (Val 1%Qc) p).

Definition probabilityForResultGreaterOrEqualTo (this : t) (k : number)
  : M real :=
  p ← probabilityForResultLessThan this k;
  mret (Real.sub (Val 1%Qc) p).

Definition calculateProbabilityMap (this : t) (len : Z) : M (list real) :=
  mapM (probabilityForResultGreaterOrEqualTo this) (indices 0 (Int len)).

(** [calculateExpectedValue()].  The dice of the nested call has count 1,
    so the calls nest at most twice. *)
Fixpoint calculateExpectedValue_fuel (fuel : nat) (this : t) : M real :=
  match fuel with
  | O => lift OutOfFuel
  | S fuel' =>
      if Number.strict_eq this.(dice).(Dice.count) (Int 1)
      then
        Sum.simulateSumToInfinity
          (λ i, p ← probabilityForResultEqualTo this i;
                mret (Real.mul (Real.of_number i) p))
          (Sum.mkConfig Sum.defaults.(Sum.threshold)
             Sum.defaults.(Sum.minIterations)
             Sum.defaults.(Sum.maxIterations)
             this.(dice).(Dice.modifier))
      else
        singleDice ←
          lift (Dice.withCount this.(dice) (Int 1) this.(dice).(Dice.sides)
                  (Int 0));
        let singleDiceCalculator := new singleDice [] in
        e ← calculateExpectedValue_fuel fuel' singleDiceCalculator;
        mret (Real.add (Real.mul (Real.of_number this.(dice).(Dice.count)) e)
                (Real.of_number this.(dice).(Dice.modifier)))
  end.

Definition calculateExpectedValue (this : t) : M real :=
  calculateExpectedValue_fuel 2 this.

(** [calculateMedian()]: a loop with no bound.  The second operand of
    [&&] is evaluated only when the first holds. *)
Fixpoint calculateMedian_from (fuel : nat) (this : t) (i : number) : M real :=
  match fuel with
  | O => lift OutOfFuel
  | S fuel' =>
      le ← probabilityForResultLessOrEqualTo this i;
      both ←
        (if Real.ge le (Real.lit 1 2)
         then ge ← probabilityForResultGreaterOrEqualTo this i;
              mret (Real.ge ge (Real.lit 1 2))
         else mret false);
      if both : bool then mret (Real.of_number i)
      else
        le ← probabilityForResultLessOrEqualTo this i;
        if Real.gt le (Real.lit 1 2)
        then mret (Real.sub (Real.of_number i) (Real.lit 1 2))
        else calculateMedian_from fuel' this (Number.add i (Int 1))
  end.

Definition calculateMedian (fuel : nat) (this : t) : M real :=
  calculateMedian_from fuel this
    (Number.add (Int 1) this.(dice).(Dice.modifier)).

(** [calculateVariance(exp)]; the calls nest at most twice, as for the
    expected value. *)
Fixpoint calculateVariance_fuel (fuel : nat) (this : t) (exp : real) : M real :=
  match fuel with
  | O => lift OutOfFuel
  | S fuel' =>
      if Number.strict_eq this.(dice).(Dice.count) (Int 1)
      then
        Sum.simulateSumToInfinity
          (λ i, p ← probabilityForResultEqualTo this i;
                mret (Real.mul
                        (Real.pow (Real.sub exp (Real.of_number i)) (Int 2))
                        p))
          (Sum.mkConfig Sum.defaults.(Sum.threshold)
             Sum.defaults.(Sum.minIterations)
             Sum.defaults.(Sum.maxIterations)
             this.(dice).(Dice.modifier))
      else
        singleDice ←
          lift (Dice.withCount this.(dice) (Int 1) this.(dice).(Dice.sides)
                  this.(dice).(Dice.modifier));
        let singleDiceCalculator := new singleDice [] in
        calculateVariance_fuel fuel' singleDiceCalculator exp
  end.

Definition calculateVariance (this : t) (exp : real) : M real :=
  calculateVariance_fuel 2 this exp.

Definition calculateStandardDeviation (this : t) (variance : real) : root :=
  Math_sqrt variance.

Definition probabilityToWinAgainst (this : t) (otherDice : Dice.t) : M real :=
  let otherCalculator := new otherDice [] in
  Sum.simulateSumToInfinity
    (λ i, p ← probabilityForResultEqualTo this i;
          q ← probabilityForResultLessThan otherCalculator i;
          mret (Real.mul p q))
    (Sum.mkConfig Sum.defaults.(Sum.threshold)
       (Number.mul this.(dice).(Dice.sides) this.(dice).(Dice.count))
       Sum.defaults.(Sum.maxIterations)
       (Number.min this.(dice).(Dice.modifier) otherDice.(Dice.modifier))).

Definition calculateWinProbabilityMap (this : t)
  : M (list DiceResult.winProbability) :=
  mapM (λ dice,
          p ← probabilityToWinAgainst this dice;
          mret (DiceResult.mkWin dice.(Dice.name) p))
       this.(concurringDices).

(** [calculate()]; the fuel is that of the median. *)
Definition calculate (fuel : nat) (this : t) : M DiceResult.t :=
  expValue ← calculateExpectedValue this;
  variance ← calculateVariance this expValue;
  median ← calculateMedian fuel this;
  let standardDeviation := calculateStandardDeviation this variance in
  pFail ← probabilityForResultLessThan this (Int 4);
  pGreaterThan ← calculateProbabilityMap this 25;
  pToWinAgainstOthers ← calculateWinProbabilityMap this;
  mret (DiceResult.mk this.(dice) expValue median variance
          standardDeviation pFail pGreaterThan pToWinAgainstOthers).

End DiceCalculator.

(** ** The page script [js/index.js] *)

Module Index.

(** [request.split("vs")]: the pieces between the occurrences of "vs",
    found from left to right. *)
Fixpoint split_vs (s : string) : list string :=
  match s with
  | EmptyString => [EmptyString]
  | String "v" (String "s" r) => EmptyString :: split_vs r
  | String c r =>
      match split_vs r with
      | tok :: toks => String c tok :: toks
      | [] => [String c EmptyString]
      end
  end.

(** [array.map(f)] for a callback that may throw: the first exception
    ends the iteration. *)
Fixpoint map_outcome {A B} (f : A → outcome B) (l : list A)
  : outcome (list B) :=
  match l with
  | [] => mret []
  | a :: l' => b ← f a; bs ← map_outcome f l'; mret (b :: bs)
  end.

(** The [try] block of [calculateRequest()], from the text of the input
    field to the results that [generateResultTable] receives.  A [Throw]
    carries the message that the [catch] block shows; what the page does
    with the document is not part of the model. *)
Definition calculateRequest (fuel : nat) (request : string)
  : M (list DiceResult.t) :=
  let diceStrings := split_vs request in
  _ ← lift (require (length diceStrings <=? 10)%nat
              "The maximum amount of dices to compare is 10");
  dices ← lift (map_outcome Dice.parse diceStrings);
  mapM (λ dice, DiceCalculator.calculate fuel (DiceCalculator.new dice dices))
       dices.

End Index.

(** * The vocabulary of the statements

    ** Valid dice and their names *)

(** The dice of [count] dice of [sides] sides with a modifier, under its
    canonical name: what [Dice.parse] and [withCount] build. *)
Definition dice_of (count sides modifier : Z) : Dice.t :=
  Dice.mk (Dice.prettyName (Int count) (Int sides) (Int modifier))
          (Int count) (Int sides) (Int modifier).

Definition in_bounds (count sides : Z) : Prop :=
  1 ≤ count ≤ 16 ∧ 2 ≤ sides ≤ 100.

(** A valid dice: integer fields within the bounds, canonical name. *)
Definition valid (d : Dice.t) : Prop :=
  ∃ count sides modifier,
    in_bounds count sides ∧ d = dice_of count sides modifier.

(** A number that is an integer between two bounds. *)
Definition within (lo hi : Z) (a : number) : Prop :=
  ∃ z, a = Int z ∧ lo ≤ z ≤ hi.

Definition is_digit (c : ascii) : bool :=
  let n := nat_of_ascii c in ((48 <=? n) && (n <=? 57))%nat.

Fixpoint all_digits (s : string) : bool :=
  match s with
  | EmptyString => true
  | String c r => is_digit c && all_digits r
  end.

(** A string that is empty or starts with a character that is no digit. *)
Definition no_digit_ahead (s : string) : bool :=
  match s with
  | EmptyString => true
  | String c _ => negb (is_digit c)
  end.

(** The suffix of a name that carries the modifier. *)
Definition modifier_suffix (m : Z) : string :=
  if negb (m =? 0)
  then (if m >? 0 then "+" else "-") +:+ Number.toString (Int (Z.abs m))
  else "".

(** ** The distributions behind the caches

    The value that the memoised methods compute for a valid dice does not
    depend on the caches.  [Law.equal] is that value for
    [probabilityForResultEqualTo] and [Law.lessOrEqual] the one for
    [probabilityForResultLessOrEqualTo]; they follow the bodies of the
    methods, without the tables. *)

Module Law.

Local Open Scope Qc_scope.

(** One die: nothing on the multiples of the sides and below the
    modifier, a geometric law elsewhere. *)
Definition single (s m k : Z) : Qc :=
  let w := (k - m)%Z in
  if (Z.rem w s =? 0)%Z || (w <? 0)%Z then 0
  else 1 / Qc_of_Z s ^ Z.to_nat (w / s + 1).

(** The sum of the loop over [i] from 1 to [k - 1]. *)
Definition convolve (p q : Z → Qc) (k : Z) : Qc :=
  foldl (λ result i, result + p i * q (k - i)%Z) 0 (seqZ 1 (k - 1)).

(** [n + 1] dice. *)
Fixpoint equal_n (n : nat) (s m k : Z) : Qc :=
  match n with
  | O => single s m k
  | S n' =>
      if (k - m <? 0)%Z then 0
      else convolve (single s m) (equal_n n' s 0) k
  end.

Definition equal (c s m k : Z) : Qc := equal_n (Z.to_nat (c - 1)) s m k.

(** The sum of [p] over the [j] indices above [m]. *)
Fixpoint above (p : Z → Qc) (m : Z) (j : nat) : Qc :=
  match j with
  | O => 0
  | S j' => above p m j' + p (m + Z.of_nat (S j'))%Z
  end.

Definition lessOrEqual (c s m k : Z) : Qc :=
  above (equal c s m) m (Z.to_nat (k - m)).

End Law.

(** The caches hold, for the valid dice, the values of the laws. *)
Definition cache_ok (c : caches) : Prop :=
  (∀ cnt s m k o v,
      in_bounds cnt s →
      probabilityEqualCache c !! Dice.name (dice_of cnt s m) = Some o →
      o !! Number.toString (Int k) = Some v →
      v = Val (Law.equal cnt s m k))
  ∧ (∀ cnt s m k o v,
      in_bounds cnt s →
      probabilityLessOrEqualCache c !! Dice.name (dice_of cnt s m) = Some o →
      o !! Number.toString (Int k) = Some v →
      v = Val (Law.lessOrEqual cnt s m k)).

(** [computes m o]: from caches that are in order, the call [m] has the
    outcome [o] and leaves caches that are in order. *)
Definition computes {A} (m : M A) (o : outcome A) : Prop :=
  ∀ c, cache_ok c → ∃ c', m c = (o, c') ∧ cache_ok c'.

(** ** The summation *)

(** A term function with no effect, from its values on the integers. *)
Definition pure_terms (g : Z → real) (i : number) : M real :=
  mret (match i with Int z => g z | NaN => RNaN end).

(** The outcome of the summation of the terms [g]. *)
Definition sum_value (g : Z → real) (cfg : Sum.config) : outcome real :=
  (Sum.simulateSumToInfinity (pure_terms g) cfg no_caches).1.

(** The sum of [f] over the indices from [lo] to [hi], both included. *)
Definition total (f : Z → Qc) (lo hi : Z) : Qc :=
  foldr (λ i acc, f i + acc)%Qc 0%Qc (seqZ lo (hi - lo + 1)).

(** The index [n] ends the summation: it has reached [minIterations], and
    it has reached [maxIterations] or the term and the next are at most the
    threshold. *)
Definition stops (f : Z → Qc) (thr : Qc) (mn mx n : Z) : Prop :=
  mn ≤ n ∧ (mx ≤ n ∨ ((f n ≤ thr)%Qc ∧ (f (n + 1)%Z ≤ thr)%Qc)).

(** [reached x z]: an index at or above [z] is not below the bound [x]. *)
Definition reached (x : number) (z : Z) : Prop :=
  match x with
  | Int a => a ≤ z
  | NaN => True
  end.

Ltac case_condition :=
  match goal with
  | |- context [if ?b then _ else _] => destruct b
  end.

(** ** The values of the statistics *)

Module Value.

(** The configuration of a summation that starts at the modifier. *)
Definition from (start : Z) : Sum.config :=
  Sum.mkConfig Sum.defaults.(Sum.threshold) Sum.defaults.(Sum.minIterations)
    Sum.defaults.(Sum.maxIterations) (Int start).

Definition expected_single (s m : Z) : outcome real :=
  sum_value (λ i, Real.mul (Real.of_number (Int i)) (Val (Law.single s m i)))
            (from m).

Definition expected (c s m : Z) : outcome real :=
  if c =? 1 then expected_single s m
  else e ← expected_single s 0;
       mret (Real.add (Real.mul (Real.of_number (Int c)) e)
               (Real.of_number (Int m))).

Definition variance (s m : Z) (exp : real) : outcome real :=
  sum_value (λ i, Real.mul
                    (Real.pow (Real.sub exp (Real.of_number (Int i))) (Int 2))
                    (Val (Law.single s m i)))
            (from m).

(** The scan of the median over a cumulative distribution [F]. *)
Fixpoint median_from (fuel : nat) (F : Z → Qc) (i : Z) : outcome real :=
  match fuel with
  | O => OutOfFuel
  | S fuel' =>
      if Real.leb (Q2Qc (1 # 2)) (F i)
         && Real.leb (Q2Qc (1 # 2)) (1 - F (i - 1)%Z)%Qc
      then Ret (Val (Qc_of_Z i))
      else if Real.ltb (Q2Qc (1 # 2)) (F i)
           then Ret (Val (Qc_of_Z i - Q2Qc (1 # 2))%Qc)
           else median_from fuel' F (i + 1)
  end.

Definition median (fuel : nat) (c s m : Z) : outcome real :=
  median_from fuel (Law.lessOrEqual c s m) (1 + m).

Definition win (c s m c' s' m' : Z) : outcome real :=
  sum_value (λ i, Real.mul (Val (Law.equal c s m i))
                    (Val (Law.lessOrEqual c' s' m' (i - 1))))
            (Sum.mkConfig Sum.defaults.(Sum.threshold) (Int (s * c))
               Sum.defaults.(Sum.maxIterations) (Int (Z.min m m'))).

End Value.

(** ** Values on particular dice *)

(** The outcome [o] is the return of the rational [q]. *)
Definition returns_rational (o : outcome real) (q : Q) : bool :=
  match o with
  | Ret (Val x) => Qeq_bool x q
  | _ => false
  end.

(** ** Probabilities, requests and names *)

(** The outcome is the return of a probability. *)
Definition probability (o : outcome real) : Prop :=
  ∃ p, o = Ret (Val p) ∧ (0 ≤ p ≤ 1)%Qc.

(** A dice that [calculateMedian()] handles: valid, of one die or with a
    modifier that is not negative. *)
Definition settles (d : Dice.t) : Prop :=
  ∃ count sides modifier,
    in_bounds count sides ∧ d = dice_of count sides modifier
    ∧ (0 ≤ modifier ∨ count = 1).

Fixpoint all_chars (P : ascii → bool) (s : string) : bool :=
  match s with
  | EmptyString => true
  | String c r => P c && all_chars P r
  end.


Definition not_minus (c : ascii) : bool := negb (Ascii.eqb c "-").

(** The table of [X <= k] of a name holds nothing or 0 under the key
    "NaN". *)
Definition nan_entry_ok (name : string) (c : caches) : Prop :=
  ∀ o v, probabilityLessOrEqualCache c !! name = Some o →
         o !! Number.toString NaN = Some v → v = Val 0%Qc.

(** [returns_keeping Inv m]: from caches that satisfy [Inv], the call [m]
    returns and leaves caches that satisfy [Inv]. *)
Definition returns_keeping {A} (Inv : caches → Prop) (m : M A) : Prop :=
  ∀ c, Inv c → ∃ a c', m c = (Ret a, c') ∧ Inv c'.

(** * Properties of the model

    ** The parser on examples *)

Example parse_1d6 :
  Dice.parse "1d6" = Ret (Dice.mk "1d6" (Int 1) (Int 6) (Int 0)).
Proof. reflexivity. Qed.

Example parse_2d8p3 :
  Dice.parse "2d8+3" = Ret (Dice.mk "2d8+3" (Int 2) (Int 8) (Int 3)).
Proof. reflexivity. Qed.

Example parse_1d4m1 :
  Dice.parse " 1D4 - 1 " = Ret (Dice.mk "1d4-1" (Int 1) (Int 4) (Int (-1))).
Proof. reflexivity. Qed.

Example parse_d6 :
  Dice.parse "w6" = Ret (Dice.mk "1d6" (Int 1) (Int 6) (Int 0)).
Proof. reflexivity. Qed.

Example parse_6 : Dice.parse "6" = Throw "Invalid dice description: 6".
Proof. reflexivity. Qed.

(** ** Names *)

Section Names.

Lemma append_empty (t : string) : "" +:+ t = t.
Proof. reflexivity. Qed.

Lemma append_String c (u t : string) : String c u +:+ t = String c (u +:+ t).
Proof. reflexivity. Qed.

Lemma append_empty_r (u : string) : u +:+ "" = u.
Proof. induction u as [|c u IH]; [done|]. by rewrite append_String, IH. Qed.

Lemma append_assoc (u v w : string) : (u +:+ v) +:+ w = u +:+ (v +:+ w).
Proof.
  induction u as [|c u IH]; [done|]. by rewrite !append_String, IH.
Qed.

Lemma string_of_uint_digits u : all_digits (NilEmpty.string_of_uint u) = true.
Proof. induction u; simpl; auto. Qed.

Lemma toString_Int_inj x y :
  Number.toString (Int x) = Number.toString (Int y) → x = y.
Proof.
  simpl. intros H.
  apply (f_equal NilEmpty.int_of_string) in H.
  rewrite !NilEmpty.isi in H. injection H as H.
  apply (f_equal Z.of_int) in H. by rewrite !DecimalZ.of_to in H.
Qed.

Lemma toString_nonneg_digits x :
  0 ≤ x → all_digits (Number.toString (Int x)) = true.
Proof.
  intros Hx. simpl. destruct x as [|p|p]; [done| |lia].
  simpl. apply string_of_uint_digits.
Qed.

Lemma digits_app_inj u u' t t' :
  all_digits u = true → all_digits u' = true →
  no_digit_ahead t = true → no_digit_ahead t' = true →
  u +:+ t = u' +:+ t' → u = u' ∧ t = t'.
Proof.
  revert u'. induction u as [|c u IH]; intros [|c' u'] Hu Hu' Ht Ht' E;
    rewrite ?append_empty, ?append_String in E; simpl in *.
  - done.
  - subst t. simpl in Ht. apply andb_prop in Hu' as [Hc _].
    by rewrite Hc in Ht.
  - subst t'. simpl in Ht'. apply andb_prop in Hu as [Hc _].
    by rewrite Hc in Ht'.
  - injection E as -> E.
    apply andb_prop in Hu as [_ Hu]. apply andb_prop in Hu' as [_ Hu'].
    destruct (IH u' Hu Hu' Ht Ht' E) as [-> ->]. done.
Qed.

Lemma prettyName_unfold c s m :
  Dice.prettyName (Int c) (Int s) (Int m)
  = Number.toString (Int c)
      +:+ String "d" (Number.toString (Int s) +:+ modifier_suffix m).
Proof.
  rewrite <- (append_empty (_ +:+ modifier_suffix m)), <- append_String.
  unfold Dice.prettyName, modifier_suffix, Number.strict_ne, Number.strict_eq,
    Number.gt, Number.cmp, Number.abs.
  destruct (negb (m =? 0)).
  - by rewrite !append_assoc.
  - by rewrite append_empty_r.
Qed.

Lemma modifier_suffix_no_digit m : no_digit_ahead (modifier_suffix m) = true.
Proof.
  unfold modifier_suffix. destruct (negb (m =? 0)); [|done].
  by destruct (m >? 0).
Qed.

Lemma modifier_suffix_inj m m' :
  modifier_suffix m = modifier_suffix m' → m = m'.
Proof.
  unfold modifier_suffix.
  destruct (Z.eqb_spec m 0) as [->|Hm], (Z.eqb_spec m' 0) as [->|Hm'];
    simpl; try done.
  - by destruct (m' >? 0).
  - by destruct (m >? 0).
  - destruct (Z.gtb_spec m 0), (Z.gtb_spec m' 0); simpl; intros [= E];
      apply (toString_Int_inj (Z.abs m) (Z.abs m')) in E; lia.
Qed.

(** Dice within the bounds with the same name are the same dice. *)
Lemma prettyName_inj c s m c' s' m' :
  in_bounds c s → in_bounds c' s' →
  Dice.prettyName (Int c) (Int s) (Int m)
  = Dice.prettyName (Int c') (Int s') (Int m') →
  c = c' ∧ s = s' ∧ m = m'.
Proof.
  intros [Hc Hs] [Hc' Hs'] E. rewrite !prettyName_unfold in E.
  apply digits_app_inj in E as [Ec E];
    [|by apply toString_nonneg_digits; lia..|done|done].
  injection E as E.
  apply digits_app_inj in E as [Es E];
    [|by apply toString_nonneg_digits; lia..
     |apply modifier_suffix_no_digit|apply modifier_suffix_no_digit].
  apply toString_Int_inj in Ec, Es. apply modifier_suffix_inj in E. done.
Qed.

Lemma constructor_in_bounds c s m :
  in_bounds c s →
  Dice.constructor (Dice.prettyName (Int c) (Int s) (Int m))
    (Int c) (Int s) (Int m) = Ret (dice_of c s m).
Proof.
  intros [Hc Hs]. unfold Dice.constructor, require; simpl.
  destruct (Z.gtb_spec c 0); [|lia]. simpl.
  destruct (Z.geb_spec s 2); [|lia]. simpl.
  destruct (Z.leb_spec c 16); [|lia]. simpl.
  destruct (Z.leb_spec s 100); [|lia]. done.
Qed.

End Names.

(** ** Calls and tables *)

Section Calls.

Context {A B : Type}.

Lemma no_caches_ok : cache_ok no_caches.
Proof. split; intros ??????; simpl; by rewrite lookup_empty. Qed.

Lemma computes_ret (a : A) : computes (mret a) (Ret a).
Proof. intros c Hc. by exists c. Qed.

Lemma computes_lift (o : outcome A) : computes (lift o) o.
Proof. intros c Hc. by exists c. Qed.

Lemma computes_bind (m : M A) (f : A → M B) a o :
  computes m (Ret a) → computes (f a) o → computes (m ≫= f) o.
Proof.
  intros Hm Hf c Hc. destruct (Hm c Hc) as (c1 & E1 & Hc1).
  destruct (Hf c1 Hc1) as (c2 & E2 & Hc2). exists c2. split; [|done].
  unfold mbind, M_bind. by rewrite E1.
Qed.

Lemma computes_bind_fuel (m : M A) (f : A → M B) :
  computes m OutOfFuel → computes (m ≫= f) OutOfFuel.
Proof.
  intros Hm c Hc. destruct (Hm c Hc) as (c1 & E1 & Hc1). exists c1.
  split; [|done]. unfold mbind, M_bind. by rewrite E1.
Qed.

End Calls.

Section Tables.

Lemma obtain_computes t : computes (Table.obtain t) (Ret t).
Proof.
  intros c Hc. unfold Table.obtain.
  destruct (Table.contents t c) eqn:E; [by exists c|].
  eexists; split; [done|]. destruct Hc as [Heq Hle].
  destruct t as [nm|nm]; split; simpl in *; intros cnt s m k o v Hb Ho Hv;
    eauto.
  - destruct (decide (nm = Dice.prettyName (Int cnt) (Int s) (Int m)))
      as [->|Hne].
    + rewrite lookup_insert_eq in Ho. injection Ho as <-.
      by rewrite lookup_empty in Hv.
    + rewrite lookup_insert_ne in Ho by done. eauto.
  - destruct (decide (nm = Dice.prettyName (Int cnt) (Int s) (Int m)))
      as [->|Hne].
    + rewrite lookup_insert_eq in Ho. injection Ho as <-.
      by rewrite lookup_empty in Hv.
    + rewrite lookup_insert_ne in Ho by done. eauto.
Qed.

Lemma get_equal c cnt s m k :
  cache_ok c → in_bounds cnt s →
  ∃ o, Table.get (EqualTable (Dice.name (dice_of cnt s m))) (Int k) c
       = (Ret o, c)
       ∧ (o = None ∨ o = Some (Val (Law.equal cnt s m k))).
Proof.
  intros [Hc _] Hb. unfold Table.get. eexists; split; [done|].
  cbn [Table.contents].
  destruct (probabilityEqualCache c !! _) as [o|] eqn:Ho; [|by left].
  cbn. destruct (o !! _) as [v|] eqn:Hv; [|by left].
  right. f_equal. eapply Hc; eauto.
Qed.

Lemma get_lessOrEqual c cnt s m k :
  cache_ok c → in_bounds cnt s →
  ∃ o, Table.get (LessOrEqualTable (Dice.name (dice_of cnt s m))) (Int k) c
       = (Ret o, c)
       ∧ (o = None ∨ o = Some (Val (Law.lessOrEqual cnt s m k))).
Proof.
  intros [_ Hc] Hb. unfold Table.get. eexists; split; [done|].
  cbn [Table.contents].
  destruct (probabilityLessOrEqualCache c !! _) as [o|] eqn:Ho; [|by left].
  cbn. destruct (o !! _) as [v|] eqn:Hv; [|by left].
  right. f_equal. eapply Hc; eauto.
Qed.

Lemma set_equal cnt s m k :
  in_bounds cnt s →
  computes (Table.set (EqualTable (Dice.name (dice_of cnt s m))) (Int k)
              (Val (Law.equal cnt s m k))) (Ret tt).
Proof.
  intros Hb c [Heq Hle]. eexists; split; [done|]. split; [|done].
  cbn [Table.update Table.contents probabilityEqualCache].
  intros cnt' s' m' k' o v Hb' Ho Hv.
  destruct (decide (Dice.name (dice_of cnt s m)
                    = Dice.name (dice_of cnt' s' m'))) as [E|Hne].
  - rewrite E, lookup_insert_eq in Ho. injection Ho as <-.
    apply prettyName_inj in E as (<- & <- & <-); [|done..].
    change (NilEmpty.string_of_int (Z.to_int k))
      with (Number.toString (Int k)) in Hv.
    destruct (decide (Number.toString (Int k) = Number.toString (Int k')))
      as [Ek|Hk].
    + rewrite Ek, lookup_insert_eq in Hv. injection Hv as <-.
      by apply toString_Int_inj in Ek as ->.
    + rewrite lookup_insert_ne in Hv by done.
      destruct (probabilityEqualCache c !! _) as [o|] eqn:Ho;
        [|simpl in Hv; by rewrite lookup_empty in Hv].
      eapply Heq; eauto.
  - rewrite lookup_insert_ne in Ho by done. eauto.
Qed.

Lemma set_lessOrEqual cnt s m k :
  in_bounds cnt s →
  computes (Table.set (LessOrEqualTable (Dice.name (dice_of cnt s m))) (Int k)
              (Val (Law.lessOrEqual cnt s m k))) (Ret tt).
Proof.
  intros Hb c [Heq Hle]. eexists; split; [done|]. split; [done|].
  cbn [Table.update Table.contents probabilityLessOrEqualCache].
  intros cnt' s' m' k' o v Hb' Ho Hv.
  destruct (decide (Dice.name (dice_of cnt s m)
                    = Dice.name (dice_of cnt' s' m'))) as [E|Hne].
  - rewrite E, lookup_insert_eq in Ho. injection Ho as <-.
    apply prettyName_inj in E as (<- & <- & <-); [|done..].
    change (NilEmpty.string_of_int (Z.to_int k))
      with (Number.toString (Int k)) in Hv.
    destruct (decide (Number.toString (Int k) = Number.toString (Int k')))
      as [Ek|Hk].
    + rewrite Ek, lookup_insert_eq in Hv. injection Hv as <-.
      by apply toString_Int_inj in Ek as ->.
    + rewrite lookup_insert_ne in Hv by done.
      destruct (probabilityLessOrEqualCache c !! _) as [o|] eqn:Ho;
        [|simpl in Hv; by rewrite lookup_empty in Hv].
      eapply Hle; eauto.
  - rewrite lookup_insert_ne in Ho by done. eauto.
Qed.

End Tables.

Section Equal.

Import DiceCalculator.

Lemma Qc_of_Z_nonzero s : s ≠ 0 → Qc_of_Z s ≠ 0%Qc.
Proof.
  intros Hs E. apply (f_equal this) in E. simpl in E.
  apply Hs. by injection E.
Qed.

Lemma Qcpower_nonzero (x : Qc) n : x ≠ 0%Qc → (x ^ n)%Qc ≠ 0%Qc.
Proof.
  intros Hx. induction n as [|n IH]; simpl; [done|].
  intros E. apply Qcmult_integral in E as [E|E]; done.
Qed.

Lemma pow_positive (x : Qc) e :
  0 < e → Real.pow (Val x) (Int e) = Val (x ^ Z.to_nat e)%Qc.
Proof. intros He. destruct e; [lia| |lia]. done. Qed.

Lemma div_nonzero (x y : Qc) :
  y ≠ 0%Qc → Real.div (Val x) (Val y) = Val (x / y)%Qc.
Proof. intros Hy. unfold Real.div. by destruct (decide (y = 0%Qc)). Qed.

(** The branch of a single die. *)
Lemma single_computes rec s m k l :
  in_bounds 1 s →
  computes (calculateProbabilityForResultEqualTo_with rec
              (new (dice_of 1 s m) l) (Int k))
           (Ret (Val (Law.single s m k))).
Proof.
  intros [_ Hs]. unfold calculateProbabilityForResultEqualTo_with, Law.single.
  cbn [dice dice_of Dice.sides Dice.count Dice.modifier
       getExplosionCountForResult].
  cbn [Number.sub Number.lift2 Number.strict_eq Number.cmp Number.rem
       Number.lt Number.floor_div Number.add Real.of_number].
  destruct (Z.eqb_spec s 0) as [|_]; [lia|].
  cbn [dice dice_of Dice.sides Number.strict_eq Number.cmp Number.lt
       Number.floor_div Number.add Number.lift2 andb].
  change (1 =? 1) with true. cbn [andb].
  destruct (Z.eqb_spec s 0) as [|_]; [lia|].
  destruct (Z.eqb_spec (Z.rem (k - m) s) 0) as [|Hrem];
    [apply computes_ret|].
  destruct (Z.ltb_spec (k - m) 0) as [|Hk]; [apply computes_ret|].
  cbn [orb]. unfold getExplosionCountForResult.
  cbn [dice dice_of Dice.sides Number.floor_div].
  destruct (Z.eqb_spec s 0) as [|_]; [lia|]. cbn [Number.add Number.lift2].
  assert (0 ≤ (k - m) / s) by (apply Z.div_pos; lia).
  rewrite pow_positive by lia.
  rewrite div_nonzero
    by (apply Qcpower_nonzero, Qc_of_Z_nonzero; lia).
  apply computes_ret.
Qed.

Lemma equal_single s m k : Law.equal 1 s m k = Law.single s m k.
Proof. done. Qed.

Lemma equal_several c s m k :
  2 ≤ c →
  Law.equal c s m k
  = if (k - m <? 0)%Z then 0%Qc
    else Law.convolve (Law.single s m) (Law.equal (c - 1) s 0) k.
Proof.
  intros Hc. unfold Law.equal.
  replace (Z.to_nat (c - 1)) with (S (Z.to_nat (c - 1 - 1))) by lia.
  done.
Qed.

(** The loop of the convolution, from any partial sum. *)
Lemma convolution_computes (rec : t → number → M real) (single simpler : t)
    (p q : Z → Qc) k zs acc :
  (∀ i, computes (rec single (Int i)) (Ret (Val (p i)))) →
  (∀ i, computes (rec simpler (Int i)) (Ret (Val (q i)))) →
  computes
    (foldM (λ i result,
              x ← rec single i;
              y ← rec simpler (Number.sub (Int k) i);
              mret (Real.add result (Real.mul x y)))
           (Int <$> zs) (Val acc))
    (Ret (Val (foldl (λ result i, result + p i * q (k - i)%Z)%Qc acc zs))).
Proof.
  intros Hp Hq. revert acc.
  induction zs as [|i zs IH]; intros acc; [apply computes_ret|].
  cbn [fmap list_fmap foldM foldl].
  eapply computes_bind; [|apply IH].
  eapply computes_bind; [apply Hp|].
  eapply computes_bind; [apply Hq|]. apply computes_ret.
Qed.

(** The branch of several dice, given the method on the smaller dice. *)
Lemma several_computes rec c s m k l :
  in_bounds c s → 2 ≤ c →
  (∀ i, computes (rec (new (dice_of 1 s m) []) (Int i))
          (Ret (Val (Law.single s m i)))) →
  (∀ i, computes (rec (new (dice_of (c - 1) s 0) []) (Int i))
          (Ret (Val (Law.equal (c - 1) s 0 i)))) →
  computes (calculateProbabilityForResultEqualTo_with rec
              (new (dice_of c s m) l) (Int k))
           (Ret (Val (Law.equal c s m k))).
Proof.
  intros Hb Hc Hsingle Hsimpler.
  rewrite equal_several by done.
  unfold calculateProbabilityForResultEqualTo_with.
  cbn [dice dice_of Dice.sides Dice.count Dice.modifier].
  cbn [Number.sub Number.lift2 Number.strict_eq Number.cmp Number.lt].
  destruct (Z.eqb_spec c 1) as [|_]; [lia|]. cbn [andb orb].
  destruct (k - m <? 0); [apply computes_ret|].
  unfold Dice.withCount.
  rewrite !constructor_in_bounds by (destruct Hb; split; lia).
  eapply computes_bind; [apply computes_lift|].
  eapply computes_bind; [apply computes_lift|].
  unfold indices, Law.convolve.
  by apply convolution_computes.
Qed.

Lemma equal_fuel_computes fuel : ∀ c s m k l,
  in_bounds c s → (Z.to_nat c ≤ fuel)%nat →
  computes (probabilityForResultEqualTo_fuel fuel (new (dice_of c s m) l)
              (Int k))
           (Ret (Val (Law.equal c s m k))).
Proof.
  induction fuel as [|fuel IH]; intros c s m k l Hb Hfuel;
    [destruct Hb; lia|].
  cbn [probabilityForResultEqualTo_fuel].
  eapply computes_bind; [apply obtain_computes|].
  intros c0 Hc0.
  destruct (get_equal c0 c s m k Hc0 Hb) as (o & Eget & Ho).
  assert (computes
            (calculateProbabilityForResultEqualTo_with
               (probabilityForResultEqualTo_fuel fuel)
               (new (dice_of c s m) l) (Int k))
            (Ret (Val (Law.equal c s m k)))) as Hcalc.
  { destruct (decide (c = 1)) as [->|Hne].
    - by apply single_computes.
    - destruct Hb as [Hc Hs].
      apply several_computes; [done|lia|..];
        intros i; [rewrite <- equal_single|];
        apply IH; try split; lia. }
  unfold mbind at 1, M_bind at 1.
  cbn [dice Dice.name dice_of] in Eget |- *. rewrite Eget.
  destruct Ho as [->| ->]; [|by exists c0].
  apply (computes_bind _ _ _ _ Hcalc); [|done].
  eapply computes_bind; [by apply set_equal|]. apply computes_ret.
Qed.

Theorem equal_computes c s m k l :
  in_bounds c s →
  computes (probabilityForResultEqualTo (new (dice_of c s m) l) (Int k))
           (Ret (Val (Law.equal c s m k))).
Proof.
  intros Hb. apply equal_fuel_computes; [done|].
  unfold nesting. cbn. destruct Hb. lia.
Qed.

End Equal.

Section LessOrEqual.

Import DiceCalculator.

Lemma lessOrEqual_base c s m k : k ≤ m → Law.lessOrEqual c s m k = 0%Qc.
Proof.
  intros Hk. unfold Law.lessOrEqual.
  by replace (Z.to_nat (k - m)) with O by lia.
Qed.

Lemma lessOrEqual_step c s m k :
  m < k →
  Law.lessOrEqual c s m k
  = (Law.lessOrEqual c s m (k - 1) + Law.equal c s m k)%Qc.
Proof.
  intros Hk. unfold Law.lessOrEqual.
  replace (Z.to_nat (k - m)) with (S (Z.to_nat (k - 1 - m))) by lia.
  cbn [Law.above]. do 2 f_equal. lia.
Qed.

Lemma lessOrEqual_fuel_computes fuel : ∀ c s m k l,
  in_bounds c s → (S (Z.to_nat (k - m)) ≤ fuel)%nat →
  computes (probabilityForResultLessOrEqualTo_fuel fuel
              (new (dice_of c s m) l) (Int k))
           (Ret (Val (Law.lessOrEqual c s m k))).
Proof.
  induction fuel as [|fuel IH]; intros c s m k l Hb Hfuel; [lia|].
  cbn [probabilityForResultLessOrEqualTo_fuel].
  eapply computes_bind; [apply obtain_computes|].
  intros c0 Hc0.
  destruct (get_lessOrEqual c0 c s m k Hc0 Hb) as (o & Eget & Ho).
  unfold mbind at 1, M_bind at 1.
  cbn [dice Dice.name dice_of] in Eget |- *. rewrite Eget.
  destruct Ho as [->| ->]; [|by exists c0].
  revert c0 Hc0 Eget. change (computes ?m ?o) with (computes m o).
  intros c0 Hc0 _. revert c0 Hc0.
  apply (computes_bind _ _ (Val (Law.lessOrEqual c s m k))).
  - cbn [dice dice_of Dice.modifier Number.add Number.lift2 Number.gt
         Number.cmp Number.sub].
    destruct (Z.gtb_spec k (0 + m)) as [Hk|Hk].
    + rewrite lessOrEqual_step by lia.
      eapply computes_bind; [apply IH; [done|lia]|].
      eapply computes_bind; [by apply equal_computes|].
      apply computes_ret.
    + rewrite lessOrEqual_base by lia. apply computes_ret.
  - eapply computes_bind; [by apply set_lessOrEqual|]. apply computes_ret.
Qed.

Theorem lessOrEqual_computes c s m k l :
  in_bounds c s →
  computes (probabilityForResultLessOrEqualTo (new (dice_of c s m) l) (Int k))
           (Ret (Val (Law.lessOrEqual c s m k))).
Proof.
  intros Hb. apply lessOrEqual_fuel_computes; [done|].
  unfold descent. cbn. lia.
Qed.

Lemma lessThan_computes c s m k l :
  in_bounds c s →
  computes (probabilityForResultLessThan (new (dice_of c s m) l) (Int k))
           (Ret (Val (Law.lessOrEqual c s m (k - 1)))).
Proof. intros Hb. by apply lessOrEqual_computes. Qed.

Lemma greaterThan_computes c s m k l :
  in_bounds c s →
  computes (probabilityForResultGreaterThan (new (dice_of c s m) l) (Int k))
           (Ret (Val (1 - Law.lessOrEqual c s m k)%Qc)).
Proof.
  intros Hb. eapply computes_bind; [by apply lessOrEqual_computes|].
  apply computes_ret.
Qed.

Lemma greaterOrEqual_computes c s m k l :
  in_bounds c s →
  computes (probabilityForResultGreaterOrEqualTo (new (dice_of c s m) l)
              (Int k))
           (Ret (Val (1 - Law.lessOrEqual c s m (k - 1))%Qc)).
Proof.
  intros Hb. eapply computes_bind; [by apply lessThan_computes|].
  apply computes_ret.
Qed.

End LessOrEqual.

(** ** The summation *)

Section Summation.

Import Sum.

Lemma ltb_lt (x y : Qc) : Real.ltb x y = true ↔ (x < y)%Qc.
Proof.
  unfold Real.ltb, Qclt, Qccompare. rewrite Qlt_alt.
  destruct (x ?= y)%Q; split; congruence.
Qed.

Lemma ltb_ge (x y : Qc) : Real.ltb x y = false ↔ (y ≤ x)%Qc.
Proof.
  rewrite Qcle_ngt, <- ltb_lt. destruct (Real.ltb x y); split; congruence.
Qed.

Lemma leb_le (x y : Qc) : Real.leb x y = true ↔ (x ≤ y)%Qc.
Proof.
  unfold Real.leb, Qcle, Qccompare. rewrite Qle_alt.
  destruct (x ?= y)%Q; split; congruence.
Qed.

Lemma bind_pure_terms {B} g i (k : real → M B) :
  pure_terms g i ≫= k = k (match i with Int z => g z | NaN => RNaN end).
Proof. reflexivity. Qed.

(** The loop with terms that use the caches has the outcome of the loop
    with their values. *)
Lemma do_while_computes f g cfg fuel : ∀ i nv na,
  (∀ z, computes (f (Int z)) (Ret (g z))) →
  computes (do_while fuel f cfg (Int i) nv na)
           (do_while fuel (pure_terms g) cfg (Int i) nv na no_caches).1.
Proof.
  induction fuel as [|fuel IH]; intros i nv na Hf; [apply computes_lift|].
  cbn [do_while Number.add Number.lift2].
  eapply computes_bind; [apply Hf|].
  rewrite bind_pure_terms.
  case_condition; [by apply IH|apply computes_ret].
Qed.

Theorem sum_computes f g cfg st :
  cfg.(startIndex) = Int st →
  (∀ z, computes (f (Int z)) (Ret (g z))) →
  computes (simulateSumToInfinity f cfg) (sum_value g cfg).
Proof.
  intros Hst Hf. unfold sum_value, simulateSumToInfinity. rewrite Hst.
  cbn [Number.add Number.lift2].
  eapply computes_bind; [apply Hf|].
  eapply computes_bind; [apply Hf|].
  apply do_while_computes, Hf.
Qed.

Lemma total_one f lo : total f lo lo = f lo.
Proof.
  unfold total. replace (lo - lo + 1) with 1 by lia.
  cbn. apply Qcplus_0_r.
Qed.

Lemma total_next f lo hi :
  lo ≤ hi → total f lo (hi + 1) = (total f lo hi + f (hi + 1)%Z)%Qc.
Proof.
  intros H. unfold total.
  replace (hi + 1 - lo + 1) with ((hi - lo + 1) + 1) by lia.
  rewrite seqZ_app by lia. rewrite foldr_app.
  replace (lo + (hi - lo + 1)) with (hi + 1) by lia.
  cbn [seqZ]. change (seqZ (hi + 1) 1) with [hi + 1]. cbn [foldr].
  generalize (seqZ lo (hi - lo + 1)) as l. intros l.
  rewrite Qcplus_0_r.
  induction l as [|x l IH]; cbn [foldr].
  - by rewrite Qcplus_0_l.
  - rewrite IH. by rewrite Qcplus_assoc.
Qed.

End Summation.

Section SumOfPureTerms.

Variables (f : Z → Qc) (thr : Qc) (mn mx st : Z).

Lemma continues_false i :
  (i <? mn) || (i <? mx) && (Real.ltb thr (f i) || Real.ltb thr (f (i + 1)))
  = false
  ↔ stops f thr mn mx i.
Proof.
  unfold stops.
  rewrite orb_false_iff, andb_false_iff, orb_false_iff, !Z.ltb_ge, !ltb_ge.
  done.
Qed.

Lemma loop_ends fuel : ∀ i,
  st ≤ i →
  (∀ j, st < j ≤ i → ¬ stops f thr mn mx j) →
  (Z.to_nat (Z.max mn mx - (i + 1)) < fuel)%nat →
  ∃ n, i < n ∧ stops f thr mn mx n
       ∧ (∀ j, st < j < n → ¬ stops f thr mn mx j)
       ∧ ∀ c, Sum.do_while fuel (pure_terms (λ z, Val (f z)))
                (Sum.mkConfig (Val thr) (Int mn) (Int mx) (Int st))
                (Int i) (Val (total f st i)) (Val (f (i + 1))) c
              = (Ret (Val (total f st n)), c).
Proof.
  induction fuel as [|fuel IH]; intros i Hi Hbefore Hfuel; [lia|].
  cbn [Sum.do_while Number.add Number.lift2].
  rewrite bind_pure_terms.
  cbn [Sum.minIterations Sum.maxIterations Sum.threshold Number.lt
       Number.cmp Real.gt Real.cmp Real.add Real.lift2].
  rewrite <- total_next by done.
  destruct (_ || _) eqn:E.
  - assert (¬ stops f thr mn mx (i + 1)) as Hgo.
    { rewrite <- continues_false. by rewrite E. }
    destruct (IH (i + 1)) as (n & Hn & Hstop & Hfirst & Hrun).
    + lia.
    + intros j Hj. destruct (decide (j = i + 1)) as [->|]; [done|].
      apply Hbefore. lia.
    + apply orb_prop in E as [E|E];
        [|apply andb_prop in E as [E _]]; apply Z.ltb_lt in E; lia.
    + exists n. split; [lia|]. by split; [|split].
  - apply continues_false in E. exists (i + 1).
    split; [lia|]. split; [done|]. split; [|done].
    intros j Hj. apply Hbefore. lia.
Qed.

Lemma sum_of_pure_terms :
  ∃ n, st < n ∧ stops f thr mn mx n
       ∧ (∀ j, st < j < n → ¬ stops f thr mn mx j)
       ∧ ∀ c, Sum.simulateSumToInfinity (pure_terms (λ z, Val (f z)))
                (Sum.mkConfig (Val thr) (Int mn) (Int mx) (Int st)) c
              = (Ret (Val (total f st n)), c).
Proof.
  destruct (loop_ends
              (Sum.rounds (Sum.mkConfig (Val thr) (Int mn) (Int mx) (Int st)))
              st) as (n & Hn & Hstop & Hfirst & Hrun).
  - lia.
  - intros j Hj. lia.
  - unfold Sum.rounds, Sum.gap. cbn. lia.
  - exists n. split; [done|]. split; [done|]. split; [done|].
    intros c. unfold Sum.simulateSumToInfinity.
    rewrite !bind_pure_terms.
    cbn [Sum.startIndex Number.add Number.lift2].
    rewrite <- (total_one f st). apply Hrun.
Qed.

End SumOfPureTerms.

(** ** The statistics *)

Section Statistics.

Import DiceCalculator.

Lemma computes_bind_outcome {A B} (m : M A) (f : A → M B) o g :
  computes m o → (∀ a, computes (f a) (g a)) → computes (m ≫= f) (o ≫= g).
Proof.
  intros Hm Hf. destruct o as [a| |].
  - eapply computes_bind; [done|]. apply Hf.
  - intros c Hc. destruct (Hm c Hc) as (c1 & E1 & Hc1). exists c1.
    split; [|done]. unfold mbind at 1, M_bind. by rewrite E1.
  - by apply computes_bind_fuel.
Qed.

Lemma expected_single_computes s m l :
  in_bounds 1 s →
  computes (calculateExpectedValue_fuel 1 (new (dice_of 1 s m) l))
           (Value.expected_single s m).
Proof.
  intros Hb.
  cbn [calculateExpectedValue_fuel dice dice_of Dice.count Dice.sides
       Dice.modifier Number.strict_eq Number.cmp].
  change (1 =? 1) with true. cbn iota.
  eapply sum_computes; [done|]. intros z.
  eapply computes_bind; [by apply equal_computes|]. apply computes_ret.
Qed.

Theorem expected_computes c s m l :
  in_bounds c s →
  computes (calculateExpectedValue (new (dice_of c s m) l))
           (Value.expected c s m).
Proof.
  intros Hb. unfold calculateExpectedValue, Value.expected.
  destruct (Z.eqb_spec c 1) as [->|Hc].
  - change (calculateExpectedValue_fuel 2 ?t)
      with (calculateExpectedValue_fuel 1 t).
    by apply expected_single_computes.
  - cbn [calculateExpectedValue_fuel dice dice_of Dice.count Dice.sides
         Dice.modifier Number.strict_eq Number.cmp].
    destruct (Z.eqb_spec c 1) as [|_]; [done|].
    unfold Dice.withCount.
    rewrite constructor_in_bounds by (destruct Hb; split; lia).
    eapply computes_bind; [apply computes_lift|].
    apply computes_bind_outcome.
    + apply expected_single_computes. destruct Hb; split; lia.
    + intros e. apply computes_ret.
Qed.

Lemma variance_single_computes s m exp l :
  in_bounds 1 s →
  computes (calculateVariance_fuel 1 (new (dice_of 1 s m) l) exp)
           (Value.variance s m exp).
Proof.
  intros Hb.
  cbn [calculateVariance_fuel dice dice_of Dice.count Dice.sides
       Dice.modifier Number.strict_eq Number.cmp].
  change (1 =? 1) with true. cbn iota.
  eapply sum_computes; [done|]. intros z.
  eapply computes_bind; [by apply equal_computes|]. apply computes_ret.
Qed.

Theorem variance_computes c s m exp l :
  in_bounds c s →
  computes (calculateVariance (new (dice_of c s m) l) exp)
           (Value.variance s m exp).
Proof.
  intros Hb. unfold calculateVariance.
  destruct (Z.eqb_spec c 1) as [->|Hc].
  - change (calculateVariance_fuel 2 ?t) with (calculateVariance_fuel 1 t).
    by apply variance_single_computes.
  - cbn [calculateVariance_fuel dice dice_of Dice.count Dice.sides
         Dice.modifier Number.strict_eq Number.cmp].
    destruct (Z.eqb_spec c 1) as [|_]; [done|].
    unfold Dice.withCount.
    rewrite constructor_in_bounds by (destruct Hb; split; lia).
    eapply computes_bind; [apply computes_lift|].
    apply variance_single_computes. destruct Hb; split; lia.
Qed.

Lemma median_from_computes fuel : ∀ c s m i l,
  in_bounds c s →
  computes (calculateMedian_from fuel (new (dice_of c s m) l) (Int i))
           (Value.median_from fuel (Law.lessOrEqual c s m) i).
Proof.
  induction fuel as [|fuel IH]; intros c s m i l Hb; [apply computes_lift|].
  cbn [calculateMedian_from Value.median_from].
  eapply computes_bind; [by apply lessOrEqual_computes|].
  cbn [Real.ge Real.gt Real.cmp Real.lit].
  destruct (Real.leb (Q2Qc (1 # 2)) (Law.lessOrEqual c s m i)) eqn:Ele.
  - eapply computes_bind.
    { eapply computes_bind; [by apply greaterOrEqual_computes|].
      apply computes_ret. }
    cbn [Real.cmp andb].
    case_condition; [apply computes_ret|].
    eapply computes_bind; [by apply lessOrEqual_computes|].
    case_condition; [apply computes_ret|]. by apply IH.
  - eapply computes_bind; [apply computes_ret|]. cbn [andb].
    eapply computes_bind; [by apply lessOrEqual_computes|].
    case_condition; [apply computes_ret|]. by apply IH.
Qed.

Theorem median_computes fuel c s m l :
  in_bounds c s →
  computes (calculateMedian fuel (new (dice_of c s m) l))
           (Value.median fuel c s m).
Proof. intros Hb. by apply median_from_computes. Qed.

Theorem win_computes c s m l c' s' m' :
  in_bounds c s → in_bounds c' s' →
  computes (probabilityToWinAgainst (new (dice_of c s m) l) (dice_of c' s' m'))
           (Value.win c s m c' s' m').
Proof.
  intros Hb Hb'. unfold probabilityToWinAgainst, Value.win.
  eapply sum_computes; [done|]. intros z.
  eapply computes_bind; [by apply equal_computes|].
  eapply computes_bind; [by apply lessThan_computes|].
  apply computes_ret.
Qed.

End Statistics.

Section LawFacts.

Local Open Scope Qc_scope.

Lemma Qcpower_positive (x : Qc) n : 0 < x → 0 < x ^ n.
Proof.
  intros Hx. induction n as [|n IH]; cbn [Qcpower]; [done|].
  by apply Qcmult_pos_pos.
Qed.

Lemma Qc_of_Z_positive s : (0 < s)%Z → 0 < Qc_of_Z s.
Proof.
  intros Hs. apply (Z2Qc_inj_lt 0 s) in Hs. by rewrite Z2Qc_inj_0 in Hs.
Qed.

Lemma single_nonneg s m k : (0 < s)%Z → 0 ≤ Law.single s m k.
Proof.
  intros Hs. unfold Law.single. cbv zeta. case_condition; [done|].
  apply Qclt_le_weak. unfold Qcdiv. apply Qcmult_pos_pos; [done|].
  by apply Qcinv_pos, Qcpower_positive, Qc_of_Z_positive.
Qed.

Lemma convolve_nonneg (p q : Z → Qc) k :
  (∀ i, 0 ≤ p i) → (∀ i, 0 ≤ q i) → 0 ≤ Law.convolve p q k.
Proof.
  intros Hp Hq. unfold Law.convolve.
  cut (∀ l acc, 0 ≤ acc →
         0 ≤ foldl (λ result i, result + p i * q (k - i)%Z) acc l).
  { intros H. by apply H. }
  induction l as [|i l IH]; intros acc Hacc; cbn [foldl]; [done|].
  apply IH. apply Qcplus_nonneg_nonneg; [done|].
  by apply Qcmult_nonneg_nonneg.
Qed.

Lemma equal_n_nonneg n : ∀ s m k, (0 < s)%Z → 0 ≤ Law.equal_n n s m k.
Proof.
  induction n as [|n IH]; intros s m k Hs; cbn [Law.equal_n].
  - by apply single_nonneg.
  - case_condition; [done|].
    apply convolve_nonneg; intros i; [by apply single_nonneg|by apply IH].
Qed.

Lemma equal_nonneg c s m k : (0 < s)%Z → 0 ≤ Law.equal c s m k.
Proof. apply equal_n_nonneg. Qed.

Lemma above_nonneg (p : Z → Qc) m j : (∀ i, 0 ≤ p i) → 0 ≤ Law.above p m j.
Proof.
  intros Hp. induction j as [|j IH]; cbn [Law.above]; [done|].
  by apply Qcplus_nonneg_nonneg.
Qed.

Lemma above_mono (p : Z → Qc) m j j' :
  (∀ i, 0 ≤ p i) → (j ≤ j')%nat → Law.above p m j ≤ Law.above p m j'.
Proof.
  intros Hp Hj. induction Hj as [|j' Hj IH]; [done|].
  cbn [Law.above]. etrans; [apply IH|].
  rewrite <- (Qcplus_0_r (Law.above p m j')) at 1.
  by apply Qcplus_le_mono_l.
Qed.

Lemma lessOrEqual_mono c s m k1 k2 :
  (0 < s)%Z → (k1 ≤ k2)%Z →
  Law.lessOrEqual c s m k1 ≤ Law.lessOrEqual c s m k2.
Proof.
  intros Hs Hk. apply above_mono; [|lia]. intros i. by apply equal_nonneg.
Qed.

End LawFacts.

Section Results.

Import DiceCalculator.

Lemma reached_not_lt x z z' : reached x z → z ≤ z' → Number.lt (Int z') x = false.
Proof.
  destruct x as [|a]; [done|]. cbn. intros Ha Hz. apply Z.ltb_ge. lia.
Qed.

Lemma do_while_returns g cfg L fuel : ∀ i nv na,
  reached cfg.(Sum.minIterations) L → reached cfg.(Sum.maxIterations) L →
  (Z.to_nat (L - (i + 1)) < fuel)%nat →
  ∃ v, (Sum.do_while fuel (pure_terms g) cfg (Int i) nv na no_caches).1 = Ret v.
Proof.
  induction fuel as [|fuel IH]; intros i nv na Hmn Hmx Hfuel; [lia|].
  cbn [Sum.do_while Number.add Number.lift2]. rewrite bind_pure_terms.
  destruct (_ || _) eqn:E; [|by eexists].
  apply IH; [done..|].
  destruct (Z.le_gt_cases L (i + 1)) as [Hle|Hlt]; [|lia].
  by rewrite !(reached_not_lt _ L (i + 1)) in E.
Qed.

(** The summation returns for every configuration: the fuel of the model
    is never used up. *)
Lemma sum_value_returns g cfg : ∃ v, sum_value g cfg = Ret v.
Proof.
  unfold sum_value, Sum.simulateSumToInfinity. rewrite !bind_pure_terms.
  destruct cfg as [thr mn mx [|st]]; cbn [Sum.startIndex].
  - unfold Sum.rounds, Sum.gap; cbn.
    destruct mn, mx; cbn; rewrite bind_pure_terms; cbn; by eexists.
  - apply (do_while_returns _ _
             (st + Z.max (Sum.gap mn (Int st)) (Sum.gap mx (Int st)))).
    + destruct mn as [|a]; [done|]. cbn. lia.
    + destruct mx as [|a]; [done|]. cbn. lia.
    + unfold Sum.rounds. cbn [Sum.minIterations Sum.maxIterations
                              Sum.startIndex]. lia.
Qed.

Lemma mapM_returns {A B} (f : A → M B) l :
  (∀ a, a ∈ l → ∃ b, computes (f a) (Ret b)) →
  ∃ bs, computes (mapM f l) (Ret bs).
Proof.
  induction l as [|a l IH]; intros Hf; [eexists; apply computes_ret|].
  destruct (Hf a) as (b & Hb); [by left|].
  destruct IH as (bs & Hbs); [intros a' Ha'; apply Hf; by right|].
  exists (b :: bs). cbn [mapM].
  eapply computes_bind; [done|].
  eapply computes_bind; [done|]. apply computes_ret.
Qed.

Lemma probabilityMap_computes c s m l len :
  in_bounds c s →
  computes (calculateProbabilityMap (new (dice_of c s m) l) len)
    (Ret ((λ k, Val (1 - Law.lessOrEqual c s m (k - 1))%Qc) <$> seqZ 0 (len - 0))).
Proof.
  intros Hb. unfold calculateProbabilityMap, indices.
  generalize (seqZ 0 (len - 0)) as ks. intros ks.
  induction ks as [|k ks IH]; [apply computes_ret|].
  cbn [mapM fmap list_fmap].
  eapply computes_bind; [by apply greaterOrEqual_computes|].
  eapply computes_bind; [apply IH|]. apply computes_ret.
Qed.

Lemma expected_returns c s m : ∃ e, Value.expected c s m = Ret e.
Proof.
  unfold Value.expected, Value.expected_single.
  destruct (c =? 1); [apply sum_value_returns|].
  destruct (sum_value_returns
              (λ i, Real.mul (Real.of_number (Int i)) (Val (Law.single s 0 i)))
              (Value.from 0)) as (e & He).
  rewrite He. by eexists.
Qed.

Lemma variance_returns s m exp : ∃ v, Value.variance s m exp = Ret v.
Proof. apply sum_value_returns. Qed.

Lemma win_returns c s m c' s' m' : ∃ p, Value.win c s m c' s' m' = Ret p.
Proof. apply sum_value_returns. Qed.

Lemma winMap_returns c s m l :
  in_bounds c s → Forall valid l →
  ∃ wins, computes (calculateWinProbabilityMap (new (dice_of c s m) l))
            (Ret wins).
Proof.
  intros Hb Hl. unfold calculateWinProbabilityMap. cbn [concurringDices].
  apply mapM_returns. intros d Hd.
  rewrite Forall_forall in Hl. destruct (Hl d Hd) as (c' & s' & m' & Hb' & ->).
  destruct (win_returns c s m c' s' m') as (p & Hp).
  eexists. eapply computes_bind; [|apply computes_ret].
  rewrite <- Hp. by apply win_computes.
Qed.

Lemma median_never_throws fuel c s m msg :
  Value.median fuel c s m ≠ Throw msg.
Proof.
  unfold Value.median. generalize (1 + m) as i.
  induction fuel as [|fuel IH]; intros i; [done|].
  cbn [Value.median_from]. repeat case_condition; done.
Qed.

(** The outcome of [calculate()] on a valid dice against valid dice: it
    throws nothing, and it returns when the scan of the median does. *)
Theorem calculate_computes fuel c s m l :
  in_bounds c s → Forall valid l →
  ∃ e v wins,
    Value.expected c s m = Ret e ∧ Value.variance s m e = Ret v
    ∧ computes (calculate fuel (new (dice_of c s m) l))
        (median ← Value.median fuel c s m;
         Ret (DiceResult.mk (dice_of c s m) e median v (Math_sqrt v)
                (Val (Law.lessOrEqual c s m 3))
                ((λ k, Val (1 - Law.lessOrEqual c s m (k - 1))%Qc)
                   <$> seqZ 0 25)
                wins)).
Proof.
  intros Hb Hl.
  destruct (expected_returns c s m) as (e & He).
  destruct (variance_returns s m e) as (v & Hv).
  destruct (winMap_returns c s m l Hb Hl) as (wins & Hwins).
  exists e, v, wins. split; [done|]. split; [done|].
  unfold calculate.
  eapply computes_bind; [rewrite <- He; by apply expected_computes|].
  eapply computes_bind; [rewrite <- Hv; by apply variance_computes|].
  apply computes_bind_outcome; [by apply median_computes|].
  intros median.
  eapply computes_bind; [by apply lessThan_computes|].
  eapply computes_bind; [by apply probabilityMap_computes|].
  eapply computes_bind; [done|]. apply computes_ret.
Qed.

End Results.

(** ** The mass of the laws *)

Section Mass.

Local Open Scope Qc_scope.

Lemma above_ext (p q : Z → Qc) m j :
  (∀ t, (1 ≤ t ≤ Z.of_nat j)%Z → p (m + t)%Z = q (m + t)%Z) →
  Law.above p m j = Law.above q m j.
Proof.
  induction j as [|j IH]; intros H; cbn [Law.above]; [done|].
  rewrite IH by (intros t Ht; apply H; lia). f_equal. apply H. lia.
Qed.

Lemma above_le (p q : Z → Qc) m j :
  (∀ t, (1 ≤ t ≤ Z.of_nat j)%Z → p (m + t)%Z ≤ q (m + t)%Z) →
  Law.above p m j ≤ Law.above q m j.
Proof.
  induction j as [|j IH]; intros H; cbn [Law.above]; [done|].
  apply Qcplus_le_compat; [apply IH; intros t Ht; apply H; lia|].
  apply H. lia.
Qed.

Lemma above_plus (p q : Z → Qc) m j :
  Law.above (λ t, p t + q t) m j = Law.above p m j + Law.above q m j.
Proof.
  induction j as [|j IH]; cbn [Law.above]; [ring|]. rewrite IH. ring.
Qed.

Lemma above_scale (p : Z → Qc) (b : Qc) m j :
  Law.above (λ t, p t * b) m j = Law.above p m j * b.
Proof.
  induction j as [|j IH]; cbn [Law.above]; [ring|]. rewrite IH. ring.
Qed.

Lemma above_shift (p : Z → Qc) m a j :
  Law.above p m (a + j) = Law.above p m a + Law.above p (m + Z.of_nat a) j.
Proof.
  induction j as [|j IH]; cbn [Law.above].
  - rewrite Nat.add_0_r. ring.
  - rewrite Nat.add_succ_r. cbn [Law.above]. rewrite IH.
    rewrite Qcplus_assoc. f_equal. f_equal. lia.
Qed.

(** The loop of the convolution is a sum over the indices above 0. *)
Lemma convolve_above (p q : Z → Qc) k :
  Law.convolve p q k
  = Law.above (λ t, p t * q (k - t)%Z) 0 (Z.to_nat (k - 1)).
Proof.
  unfold Law.convolve.
  destruct (Z.le_gt_cases (k - 1) 0) as [Hk|Hk].
  { replace (Z.to_nat (k - 1)) with O by lia.
    by rewrite seqZ_nil by lia. }
  rewrite <- (Z2Nat.id (k - 1)) at 1 by lia.
  generalize (Z.to_nat (k - 1)) as n. clear Hk. intros n.
  induction n as [|n IH]; [done|].
  rewrite Nat2Z.inj_succ, <- Z.add_1_r, seqZ_app by lia.
  rewrite foldl_app, IH. cbn [Law.above].
  change (seqZ (1 + Z.of_nat n) 1) with [(1 + Z.of_nat n)%Z]. cbn [foldl].
  do 3 f_equal; lia.
Qed.

(** The partial sums of a convolution: the pairs of indices above 0 whose
    sum is at most [n], ordered by the first index. *)
Lemma convolution_mass (p q : Z → Qc) n :
  Law.above (Law.convolve p q) 0 n
  = Law.above (λ t, p t * Law.above q 0 (Z.to_nat (Z.of_nat n - t))) 0 n.
Proof.
  induction n as [|n IH]; [done|].
  cbn [Law.above]. rewrite IH, convolve_above.
  replace (Z.to_nat (0 + Z.of_nat (S n) - 1)) with n by lia.
  replace (Z.to_nat (Z.of_nat (S n) - (0 + Z.of_nat (S n)))) with O by lia.
  cbn [Law.above]. rewrite Qcmult_0_r, Qcplus_0_r.
  rewrite <- above_plus. apply above_ext. intros t Ht.
  replace (Z.to_nat (Z.of_nat (S n) - (0 + t)))
    with (S (Z.to_nat (Z.of_nat n - (0 + t)))) by lia.
  cbn [Law.above]. rewrite Qcmult_plus_distr_r. do 3 f_equal. lia.
Qed.

(** No more mass than the product of the bounds of the factors. *)
Lemma convolution_bound (p q : Z → Qc) (a b : Qc) n :
  (∀ t, 0 ≤ p t) → (∀ j, Law.above p 0 j ≤ a) → (∀ j, Law.above q 0 j ≤ b) →
  Law.above (Law.convolve p q) 0 n ≤ a * b.
Proof.
  intros Hp Ha Hb. rewrite convolution_mass.
  etrans; [apply (above_le _ (λ t, p t * b))|].
  - intros t Ht. by apply Qcmult_le_mono_nonneg_l.
  - rewrite above_scale. apply Qcmult_le_mono_nonneg_r; [|done].
    etrans; [|apply (Hb O)]. done.
Qed.

Lemma single_shift s m t : Law.single s m (m + t) = Law.single s 0 t.
Proof.
  unfold Law.single. by replace (m + t - m)%Z with (t - 0)%Z by lia.
Qed.

Lemma single_at s w :
  (0 ≤ w)%Z → (0 < s)%Z →
  Law.single s 0 w
  = if (w mod s =? 0)%Z then 0 else 1 / Qc_of_Z s ^ Z.to_nat (w / s + 1).
Proof.
  intros Hw Hs. unfold Law.single. cbv zeta. rewrite Z.sub_0_r.
  rewrite Z.rem_mod_nonneg by lia.
  destruct (Z.ltb_spec w 0); [lia|]. by rewrite orb_false_r.
Qed.

(** The mass of one die on the indices 1 to [n]: all but the share of the
    rolls that have exploded [n / s] times and go on above [n]. *)
Lemma single_mass s n :
  (2 ≤ s)%Z →
  Law.above (Law.single s 0) 0 n
  = 1 - Qc_of_Z (s - Z.of_nat n mod s)
        / Qc_of_Z s ^ Z.to_nat (Z.of_nat n / s + 1).
Proof.
  intros Hs.
  assert (Qc_of_Z s ≠ 0) as Hs0 by (apply Qc_of_Z_nonzero; lia).
  induction n as [|n IH].
  - cbn [Law.above]. change (Z.of_nat 0) with 0%Z.
    rewrite Z.mod_0_l, Z.div_0_l by lia. rewrite Z.sub_0_r.
    change (Z.to_nat (0 + 1)) with 1%nat. cbn [Qcpower]. by field.
  - cbn [Law.above]. rewrite IH, Nat2Z.inj_succ, <- Z.add_1_r, Z.add_0_l.
    rewrite single_at by lia.
    set (r := Z.of_nat n) in *.
    assert (0 ≤ r)%Z as Hr by lia.
    pose proof (Z.div_mod r s ltac:(lia)) as Hdm.
    pose proof (Z.mod_pos_bound r s ltac:(lia)) as Ht.
    assert (0 ≤ r / s)%Z as Hd by (apply Z.div_pos; lia).
    destruct (decide (r mod s = s - 1)%Z) as [Elast|Hmore].
    + assert ((r + 1) / s = r / s + 1)%Z as ->.
      { symmetry. apply (Z.div_unique _ _ _ 0); lia. }
      assert ((r + 1) mod s = 0)%Z as ->.
      { symmetry. apply (Z.mod_unique _ _ (r / s + 1)); lia. }
      rewrite Elast. change (0 =? 0)%Z with true. cbv iota.
      replace (s - (s - 1))%Z with 1%Z by lia. rewrite Z.sub_0_r.
      replace (Z.to_nat (r / s + 1 + 1)) with (S (Z.to_nat (r / s + 1))) by lia.
      cbn [Qcpower]. rewrite Z2Qc_inj_1.
      assert (Qc_of_Z s ^ Z.to_nat (r / s + 1) ≠ 0) by by apply Qcpower_nonzero.
      by field.
    + assert ((r + 1) / s = r / s)%Z as ->.
      { symmetry. apply (Z.div_unique _ _ _ (r mod s + 1)); lia. }
      assert ((r + 1) mod s = r mod s + 1)%Z as ->.
      { symmetry. apply (Z.mod_unique _ _ (r / s)); lia. }
      destruct (Z.eqb_spec (r mod s + 1) 0) as [|_]; [lia|].
      replace (s - (r mod s + 1))%Z with (s - r mod s - 1)%Z by lia.
      rewrite (Z2Qc_inj_sub _ 1), Z2Qc_inj_1.
      assert (Qc_of_Z s ^ Z.to_nat (r / s + 1) ≠ 0) by by apply Qcpower_nonzero.
      by field.
Qed.

Lemma single_mass_le s n :
  (2 ≤ s)%Z → Law.above (Law.single s 0) 0 n ≤ 1.
Proof.
  intros Hs. rewrite single_mass by done.
  rewrite <- (Qcplus_0_r 1) at 2. unfold Qcminus.
  apply Qcplus_le_mono_l.
  rewrite <- (Qcopp_involutive 0). apply Qcopp_le_compat.
  change (- 0) with 0. unfold Qcdiv. apply Qcmult_nonneg_nonneg.
  - rewrite <- Z2Qc_inj_0. apply (proj1 (Z2Qc_inj_le 0 _)).
    pose proof (Z.mod_pos_bound (Z.of_nat n) s ltac:(lia)). lia.
  - apply Qclt_le_weak, Qcinv_pos, Qcpower_positive, Qc_of_Z_positive. lia.
Qed.

Lemma above_zero (p : Z → Qc) m j :
  (∀ t, (1 ≤ t ≤ Z.of_nat j)%Z → p (m + t)%Z = 0) → Law.above p m j = 0.
Proof.
  induction j as [|j IH]; intros H; cbn [Law.above]; [done|].
  rewrite IH by (intros t Ht; apply H; lia). rewrite H by lia. ring.
Qed.

Lemma convolve_empty (p q : Z → Qc) k : (k ≤ 1)%Z → Law.convolve p q k = 0.
Proof. intros Hk. unfold Law.convolve. by rewrite seqZ_nil by lia. Qed.

(** Several dice with modifier 0 have mass at most 1. *)
Lemma equal_n_mass n s j :
  (2 ≤ s)%Z → Law.above (Law.equal_n n s 0) 0 j ≤ 1.
Proof.
  intros Hs. revert j. induction n as [|n IH]; intros j.
  - by apply single_mass_le.
  - rewrite (above_ext _ (Law.convolve (Law.single s 0) (Law.equal_n n s 0))).
    + rewrite <- (Qcmult_1_r 1). apply convolution_bound; [| |done].
      * intros t. apply single_nonneg. lia.
      * intros i. by apply single_mass_le.
    + intros t Ht. cbn [Law.equal_n].
      destruct (Z.ltb_spec (0 + t - 0) 0); [lia|done].
Qed.

(** The mass of one die with modifier [m ≤ 0] on the indices above 0: what
    the die without modifier has above [- m]. *)
Lemma single_mass_above_zero s m j :
  (2 ≤ s)%Z → (m ≤ 0)%Z →
  Law.above (Law.single s m) 0 j
  ≤ 1 - Law.above (Law.single s 0) 0 (Z.to_nat (- m)).
Proof.
  intros Hs Hm.
  rewrite (above_ext _ (λ t, Law.single s 0 (t - m))).
  2:{ intros t Ht. rewrite <- (single_shift s m (0 + t - m)).
      f_equal. lia. }
  assert (Law.above (λ t, Law.single s 0 (t - m)) 0 j
          = Law.above (Law.single s 0) (0 + Z.of_nat (Z.to_nat (- m))) j) as ->.
  { generalize j as i. induction i as [|i IH]; cbn [Law.above]; [done|].
    rewrite IH. do 2 f_equal. lia. }
  pose proof (above_shift (Law.single s 0) 0 (Z.to_nat (- m)) j) as Hshift.
  pose proof (single_mass_le s (Z.to_nat (- m) + j) Hs) as Hle.
  rewrite Hshift in Hle.
  apply (Qcplus_le_mono_l _ _ (Law.above (Law.single s 0) 0 (Z.to_nat (- m)))).
  by replace (Law.above (Law.single s 0) 0 (Z.to_nat (- m))
              + (1 - Law.above (Law.single s 0) 0 (Z.to_nat (- m))))
    with 1 by ring.
Qed.

(** Several dice with a modifier [m ≤ 0]: the loop of the convolution
    starts at 1, so the rolls of the first die that are at most [- m] do
    not count, and the cumulative distribution never exceeds the share of
    the rolls above [- m]. *)
Theorem lost_mass c s m k :
  (2 ≤ c)%Z → (2 ≤ s)%Z → (m ≤ 0)%Z →
  Law.lessOrEqual c s m k
  ≤ 1 - Law.above (Law.single s 0) 0 (Z.to_nat (- m)).
Proof.
  intros Hc Hs Hm. unfold Law.lessOrEqual, Law.equal.
  replace (Z.to_nat (c - 1)) with (S (Z.to_nat (c - 2))) by lia.
  set (n := Z.to_nat (c - 2)). set (j := Z.to_nat (k - m)).
  set (g := Law.convolve (Law.single s m) (Law.equal_n n s 0)).
  rewrite (above_ext _ g).
  2:{ intros t Ht. cbn [Law.equal_n].
      destruct (Z.ltb_spec (m + t - m) 0); [lia|done]. }
  assert (∀ i, 0 ≤ g i) as Hg.
  { intros i. apply convolve_nonneg; intros t.
    - apply single_nonneg. lia.
    - apply equal_n_nonneg. lia. }
  etrans; [apply (above_mono g m j (Z.to_nat (- m) + j) Hg); lia|].
  rewrite above_shift.
  rewrite (above_zero g m (Z.to_nat (- m)))
    by (intros t Ht; apply convolve_empty; lia).
  rewrite Qcplus_0_l.
  replace (m + Z.of_nat (Z.to_nat (- m)))%Z with 0%Z by lia.
  rewrite <- (Qcmult_1_r (1 - _)). apply convolution_bound.
  - intros t. apply single_nonneg. lia.
  - intros i. by apply single_mass_above_zero.
  - intros i. by apply equal_n_mass.
Qed.

(** The scan of the median never ends on a distribution that stays below
    one half. *)
Lemma median_from_diverges fuel (F : Z → Qc) i :
  (∀ k, F k < Q2Qc (1 # 2)) → Value.median_from fuel F i = OutOfFuel.
Proof.
  intros HF. revert i. induction fuel as [|fuel IH]; intros i; [done|].
  cbn [Value.median_from].
  assert (Real.leb (Q2Qc (1 # 2)) (F i) = false) as ->.
  { apply not_true_is_false. rewrite leb_le. apply Qclt_not_le, HF. }
  assert (Real.ltb (Q2Qc (1 # 2)) (F i) = false) as ->.
  { apply ltb_ge, Qclt_le_weak, HF. }
  apply IH.
Qed.

(** The scan ends at the first index where one of its two tests holds. *)
Lemma median_from_ends fuel (F : Z → Qc) i j :
  (i ≤ j)%Z → (Z.to_nat (j - i) < fuel)%nat →
  Q2Qc (1 # 2) < F j ∨ (Q2Qc (1 # 2) ≤ F j ∧ Q2Qc (1 # 2) ≤ 1 - F (j - 1)%Z) →
  ∃ v, Value.median_from fuel F i = Ret v.
Proof.
  revert i. induction fuel as [|fuel IH]; intros i Hij Hfuel Hj; [lia|].
  cbn [Value.median_from].
  destruct (Real.leb (Q2Qc (1 # 2)) (F i)
            && Real.leb (Q2Qc (1 # 2)) (1 - F (i - 1)%Z)) eqn:E1;
    [by eexists|].
  destruct (Real.ltb (Q2Qc (1 # 2)) (F i)) eqn:E2; [by eexists|].
  destruct (decide (i = j)) as [->|Hne]; [|apply IH; [lia|lia|done]].
  exfalso. destruct Hj as [Hj|[Hj1 Hj2]].
  - apply ltb_lt in Hj. congruence.
  - apply leb_le in Hj1, Hj2. by rewrite Hj1, Hj2 in E1.
Qed.

Lemma lessOrEqual_single s m j :
  Law.lessOrEqual 1 s m (m + Z.of_nat j) = Law.above (Law.single s 0) 0 j.
Proof.
  unfold Law.lessOrEqual. replace (Z.to_nat (m + Z.of_nat j - m)) with j by lia.
  clear. induction j as [|j IH]; cbn [Law.above]; [done|].
  rewrite IH, equal_single, single_shift. do 2 f_equal.
Qed.

Lemma half_below (y : Qc) : 2 < y → Q2Qc (1 # 2) < 1 - 1 / y.
Proof.
  intros Hy.
  assert (0 < y) as Hpos by (etrans; [|apply Hy]; done).
  assert (y ≠ 0) as Hne by (intros ->; by apply Qclt_not_eq in Hpos).
  apply Qclt_minus_iff.
  replace (1 - 1 / y + - Q2Qc (1 # 2)) with ((y - 2) * / (2 * y)).
  - apply Qcmult_pos_pos.
    + by apply Qclt_minus_iff in Hy.
    + apply Qcinv_pos. by apply Qcmult_pos_pos.
  - replace (Q2Qc (1 # 2)) with (1 / 2) by by apply Qc_is_canon.
    by field.
Qed.

(** The scan of the median of one die ends within its first block of
    values. *)
Theorem single_median_returns s m fuel :
  (2 ≤ s)%Z → (Z.to_nat (s - 2) < fuel)%nat →
  ∃ v, Value.median fuel 1 s m = Ret v.
Proof.
  intros Hs Hfuel. unfold Value.median.
  apply (median_from_ends _ _ _ (m + Z.of_nat (Z.to_nat (s - 1)))); [lia|lia|].
  replace (m + Z.of_nat (Z.to_nat (s - 1)) - 1)%Z
    with (m + Z.of_nat (Z.to_nat (s - 2)))%Z by lia.
  rewrite !lessOrEqual_single, !single_mass by lia.
  rewrite !Z2Nat.id by lia.
  rewrite !Z.mod_small, !Z.div_small by lia.
  replace (s - (s - 1))%Z with 1%Z by lia.
  replace (s - (s - 2))%Z with 2%Z by lia.
  change (Z.to_nat (0 + 1)) with 1%nat. cbn [Qcpower].
  rewrite Qcmult_1_r, Z2Qc_inj_1.
  destruct (decide (s = 2%Z)) as [->|Hne].
  - right. by split.
  - left. apply half_below. rewrite <- Z2Qc_inj_2.
    apply (proj1 (Z2Qc_inj_lt 2 s)). lia.
Qed.

(** At least the product of the masses of the factors: the pairs of an
    index up to [K1] and an index up to [K2] have a sum up to [K1 + K2]. *)
Lemma convolution_mass_ge (p q : Z → Qc) K1 K2 :
  (∀ t, 0 ≤ p t) → (∀ t, 0 ≤ q t) →
  Law.above p 0 K1 * Law.above q 0 K2
  ≤ Law.above (Law.convolve p q) 0 (K1 + K2).
Proof.
  intros Hp Hq. rewrite convolution_mass.
  set (h := λ t, p t * Law.above q 0 (Z.to_nat (Z.of_nat (K1 + K2) - t))).
  assert (∀ t, 0 ≤ h t) as Hh.
  { intros t. apply Qcmult_nonneg_nonneg; [done|]. by apply above_nonneg. }
  rewrite above_shift. rewrite <- above_scale.
  etrans; [apply (above_le _ h)|].
  - intros t Ht. apply Qcmult_le_mono_nonneg_l; [done|].
    apply above_mono; [done|lia].
  - rewrite <- (Qcplus_0_r (Law.above h 0 K1)) at 1.
    apply Qcplus_le_mono_l. by apply above_nonneg.
Qed.

Lemma Qcpower_mono (a b : Qc) n : 0 ≤ a → a ≤ b → a ^ n ≤ b ^ n.
Proof.
  intros Ha Hab. induction n as [|n IH]; cbn [Qcpower]; [done|].
  etrans; [apply Qcmult_le_mono_nonneg_l; [done|apply IH]|].
  apply Qcmult_le_mono_nonneg_r; [|done].
  apply Qcpower_pos. by etrans.
Qed.

Lemma Qcpower_antitone (a : Qc) n k :
  0 ≤ a → a ≤ 1 → (n ≤ k)%nat → a ^ k ≤ a ^ n.
Proof.
  intros Ha Ha1 Hnk. induction Hnk as [|k Hnk IH]; [done|].
  cbn [Qcpower]. etrans; [|apply IH].
  rewrite <- (Qcmult_1_l (a ^ k)) at 2.
  apply Qcmult_le_mono_nonneg_r; [|done]. by apply Qcpower_pos.
Qed.

Lemma Qcinv_antitone (a b : Qc) : 0 < a → a ≤ b → / b ≤ / a.
Proof.
  intros Ha Hab.
  assert (0 < b) as Hb by by eapply Qclt_le_trans.
  assert (a ≠ 0) as Ha0 by (intros ->; by apply Qclt_not_eq in Ha).
  assert (b ≠ 0) as Hb0 by (intros ->; by apply Qclt_not_eq in Hb).
  rewrite <- (Qcmult_1_r (/ b)), <- (Qcmult_inv_r a Ha0), Qcmult_assoc.
  rewrite <- (Qcmult_1_l (/ a)) at 2. rewrite <- (Qcmult_inv_l b Hb0).
  apply Qcmult_le_mono_nonneg_r; [by apply Qclt_le_weak, Qcinv_pos|].
  apply Qcmult_le_mono_nonneg_l; [by apply Qclt_le_weak, Qcinv_pos|done].
Qed.

(** One die without modifier has at least 63/64 of its mass on the first
    six blocks of values. *)
Lemma single_mass_six_blocks s :
  (2 ≤ s)%Z →
  Q2Qc (63 # 64) ≤ Law.above (Law.single s 0) 0 (Z.to_nat (6 * s)).
Proof.
  intros Hs. rewrite single_mass by lia. rewrite Z2Nat.id by lia.
  rewrite Z.mod_mul, Z.div_mul by lia. rewrite Z.sub_0_r.
  change (Z.to_nat (6 + 1)) with 7%nat.
  set (x := Qc_of_Z s).
  assert (2 ≤ x) as Hx.
  { unfold x. rewrite <- Z2Qc_inj_2. by apply (proj1 (Z2Qc_inj_le 2 s)). }
  assert (0 < x) as Hpos by (eapply Qclt_le_trans; [|apply Hx]; done).
  assert (x ≠ 0) as Hne by (intros E; rewrite E in Hpos; by apply Qclt_not_eq in Hpos).
  assert (x ^ 6 ≠ 0) as Hne6 by by apply Qcpower_nonzero.
  replace (x / x ^ 7) with (/ x ^ 6) by (cbn [Qcpower]; by field).
  replace (Q2Qc (63 # 64)) with (1 - / 2 ^ 6) by by apply Qc_is_canon.
  unfold Qcminus. apply Qcplus_le_mono_l, Qcopp_le_compat.
  apply Qcinv_antitone; [done|]. by apply Qcpower_mono.
Qed.

Lemma above_from_zero (p : Z → Qc) m j :
  Law.above p m j = Law.above (λ t, p (m + t)%Z) 0 j.
Proof.
  induction j as [|j IH]; cbn [Law.above]; [done|].
  by rewrite IH, Z.add_0_l.
Qed.

(** One die with a modifier [m ≥ 0] has up to [m + K] the mass that the
    die without modifier has up to [K]. *)
Lemma single_mass_from_modifier s m K :
  (0 ≤ m)%Z →
  Law.above (Law.single s 0) 0 K
  ≤ Law.above (Law.single s m) 0 (Z.to_nat m + K).
Proof.
  intros Hm. rewrite above_shift, Z.add_0_l, Z2Nat.id by lia.
  rewrite (above_zero _ 0 (Z.to_nat m)).
  - rewrite Qcplus_0_l, (above_from_zero _ m). apply above_le. intros t Ht.
    rewrite (single_shift s m). reflexivity.
  - intros t Ht. unfold Law.single. cbv zeta.
    destruct (Z.le_gt_cases m (0 + t)) as [Hle|Hlt].
    + by replace (0 + t - m)%Z with 0%Z by lia.
    + destruct (Z.ltb_spec (0 + t - m) 0); [|lia]. by rewrite orb_true_r.
Qed.

(** The mass of [n + 1] dice with a modifier [m ≥ 0] up to [m + (n + 1) K]
    is at least the power [n + 1] of the mass of one die up to [K]. *)
Lemma several_mass_ge n s m K :
  (2 ≤ s)%Z → (0 ≤ m)%Z →
  Law.above (Law.single s 0) 0 K ^ S n
  ≤ Law.above (Law.equal_n n s m) 0 (Z.to_nat m + S n * K).
Proof.
  intros Hs. revert m. induction n as [|n IH]; intros m Hm.
  - cbn [Law.equal_n Qcpower]. rewrite Qcmult_1_r, Nat.mul_1_l.
    by apply single_mass_from_modifier.
  - change (Law.above (Law.single s 0) 0 K ^ S (S n))
      with (Law.above (Law.single s 0) 0 K
            * Law.above (Law.single s 0) 0 K ^ S n).
    assert (∀ t, 0 ≤ Law.single s 0 t) as Hp0
      by (intros t; apply single_nonneg; lia).
    assert (∀ t, 0 ≤ Law.single s m t) as Hp
      by (intros t; apply single_nonneg; lia).
    assert (∀ t, 0 ≤ Law.equal_n n s 0 t) as Hq
      by (intros t; apply equal_n_nonneg; lia).
    etrans; [apply Qcmult_le_mono_nonneg_l;
             [by apply above_nonneg|apply (IH 0%Z); lia]|].
    etrans; [apply Qcmult_le_mono_nonneg_r;
             [by apply above_nonneg
             |apply (single_mass_from_modifier s m K Hm)]|].
    etrans; [by apply convolution_mass_ge|].
    replace (Z.to_nat m + K + (Z.to_nat 0 + S n * K))%nat
      with (Z.to_nat m + S (S n) * K)%nat by lia.
    apply above_le. intros t Ht. cbn [Law.equal_n].
    destruct (Z.ltb_spec (0 + t - m) 0) as [Hlt|_]; [|done].
    rewrite convolve_above, above_zero; [done|].
    intros u Hu. unfold Law.single at 1. cbv zeta.
    destruct (Z.ltb_spec (0 + u - m) 0); [|lia].
    rewrite orb_true_r. ring.
Qed.

(** Nothing at or below a modifier [m ≥ 0]. *)
Lemma equal_n_below n s m t :
  (t ≤ m)%Z → Law.equal_n n s m t = 0.
Proof.
  intros Ht. destruct n as [|n]; cbn [Law.equal_n].
  - unfold Law.single. cbv zeta.
    destruct (Z.le_gt_cases m t) as [Hle|Hlt].
    + by replace (t - m)%Z with 0%Z by lia.
    + destruct (Z.ltb_spec (t - m) 0); [|lia]. by rewrite orb_true_r.
  - case_condition; [done|]. rewrite convolve_above, above_zero; [done|].
    intros u Hu. unfold Law.single at 1. cbv zeta.
    destruct (Z.ltb_spec (0 + u - m) 0); [|lia].
    rewrite orb_true_r. ring.
Qed.

(** The scan of the median of a valid dice with a modifier [m ≥ 0] ends
    within [6 * count * sides] steps. *)
Theorem median_returns c s m fuel :
  in_bounds c s → (0 ≤ m)%Z → (Z.to_nat (6 * c * s) ≤ fuel)%nat →
  ∃ v, Value.median fuel c s m = Ret v.
Proof.
  intros [Hc Hs] Hm Hfuel. unfold Value.median.
  apply (median_from_ends _ _ _ (m + c * (6 * s))); [nia|nia|]. left.
  unfold Law.lessOrEqual, Law.equal.
  set (n := Z.to_nat (c - 1)). set (K := Z.to_nat (6 * s)).
  replace (Z.to_nat (m + c * (6 * s) - m)) with (S n * K)%nat by nia.
  set (g := Law.equal_n n s m).
  assert (Law.above g m (S n * K) = Law.above g 0 (Z.to_nat m + S n * K)) as ->.
  { rewrite above_shift, Z.add_0_l, Z2Nat.id by lia.
    rewrite (above_zero g 0 (Z.to_nat m)); [by rewrite Qcplus_0_l|].
    intros t Ht. apply equal_n_below. lia. }
  eapply Qclt_le_trans; [|by apply several_mass_ge; lia].
  eapply Qclt_le_trans;
    [|apply Qcpower_mono; [|apply single_mass_six_blocks; lia]; done].
  eapply Qclt_le_trans;
    [|apply (Qcpower_antitone _ (S n) 16); [done|done|lia]].
  done.
Qed.

(** What the scan returns: the first index where one of its tests holds,
    or that index less one half. *)
Lemma median_from_sound fuel (F : Z → Qc) i v :
  Value.median_from fuel F i = Ret v →
  ∃ j, (i ≤ j)%Z
       ∧ (∀ k, (i ≤ k < j)%Z → F k ≤ Q2Qc (1 # 2))
       ∧ ((v = Val (Qc_of_Z j)
           ∧ Q2Qc (1 # 2) ≤ F j ∧ Q2Qc (1 # 2) ≤ 1 - F (j - 1)%Z)
          ∨ (v = Val (Qc_of_Z j - Q2Qc (1 # 2))
             ∧ Q2Qc (1 # 2) < F j ∧ ¬ Q2Qc (1 # 2) ≤ 1 - F (j - 1)%Z)).
Proof.
  revert i. induction fuel as [|fuel IH]; intros i; [done|].
  cbn [Value.median_from].
  destruct (Real.leb (Q2Qc (1 # 2)) (F i)
            && Real.leb (Q2Qc (1 # 2)) (1 - F (i - 1)%Z)) eqn:E1.
  { intros [= <-]. apply andb_prop in E1 as [E1 E1'].
    apply leb_le in E1, E1'. exists i. split; [lia|]. split; [intros; lia|].
    by left. }
  destruct (Real.ltb (Q2Qc (1 # 2)) (F i)) eqn:E2.
  { intros [= <-]. apply ltb_lt in E2. exists i.
    split; [lia|]. split; [intros; lia|]. right. split; [done|].
    split; [done|]. intros H. apply leb_le in H.
    apply Qclt_le_weak, leb_le in E2. by rewrite E2, H in E1. }
  intros Hv. destruct (IH _ Hv) as (j & Hj & Hbelow & Hat).
  exists j. split; [lia|]. split; [|done].
  intros k Hk. destruct (decide (k = i)) as [->|]; [|apply Hbelow; lia].
  by apply ltb_ge.
Qed.

(** The scan ends for one die and for a modifier [m ≥ 0]. *)
Theorem median_returns_for c s m fuel :
  in_bounds c s → (0 ≤ m)%Z ∨ c = 1%Z → (Z.to_nat (6 * c * s) ≤ fuel)%nat →
  ∃ v, Value.median fuel c s m = Ret v.
Proof.
  intros Hb [Hm| ->] Hfuel; [by apply median_returns|].
  destruct Hb as [_ Hs]. apply single_median_returns; lia.
Qed.

End Mass.

Section Particular.

Import DiceCalculator.

Lemma returns_rational_eq o q :
  returns_rational o q = true → o = Ret (Val (Q2Qc q)).
Proof.
  destruct o as [[|x]| |]; try done. cbn. intros H.
  apply Qeq_bool_eq in H. do 2 f_equal. apply Qc_is_canon.
  cbn. by rewrite Qred_correct.
Qed.

Lemma expected_1d6 : Value.expected 1 6 0 = Ret (Val (Q2Qc (391895 # 93312))).
Proof. apply returns_rational_eq. by vm_compute. Qed.

Lemma expected_2d6 : Value.expected 2 6 0 = Ret (Val (Q2Qc (391895 # 46656))).
Proof. apply returns_rational_eq. by vm_compute. Qed.

Lemma win_1d4_1d4 :
  Value.win 1 4 0 1 4 0 = Ret (Val (Q2Qc (6706791 # 16777216))).
Proof. apply returns_rational_eq. by vm_compute. Qed.

(** The two values are the sums of the terms up to the index where the
    summation stops: 42 for the expected value, 24 for the win. *)
Lemma expected_1d6_terms :
  Q2Qc (391895 # 93312)
  = total (λ i, Qc_of_Z i * Law.single 6 0 i)%Qc 0 42.
Proof. apply Qc_is_canon. by vm_compute. Qed.

Lemma win_1d4_1d4_terms :
  Q2Qc (6706791 # 16777216)
  = total (λ i, Law.equal 1 4 0 i * Law.lessOrEqual 1 4 0 (i - 1))%Qc 0 24.
Proof. apply Qc_is_canon. by vm_compute. Qed.

Lemma in_bounds_1_6 : in_bounds 1 6.
Proof. unfold in_bounds. lia. Qed.

Lemma in_bounds_2_6 : in_bounds 2 6.
Proof. unfold in_bounds. lia. Qed.

Lemma in_bounds_1_4 : in_bounds 1 4.
Proof. unfold in_bounds. lia. Qed.

(** Two dice of six sides with modifier -4 stay below one third. *)
Lemma lessOrEqual_2d6_minus_4 k :
  (Law.lessOrEqual 2 6 (-4) k ≤ Q2Qc (1 # 3))%Qc.
Proof.
  etrans; [apply lost_mass; lia|].
  rewrite single_mass by lia. by vm_compute.
Qed.

End Particular.

(** * The statements of the specification *)

Section Claims.

Import DiceCalculator.

Local Open Scope Qc_scope.

(** C2.  For a dice of one die and every integer [k],
    [probabilityForResultEqualTo(k)] returns 0 when [k - modifier] is
    negative or a multiple of the sides, and otherwise the sides to the
    power [-(floor((k - modifier) / sides) + 1)]. *)
Theorem C2_single_die_probability (s m k : Z) l (c : caches) :
  in_bounds 1 s → cache_ok c →
  (probabilityForResultEqualTo (new (dice_of 1 s m) l) (Int k) c).1
  = Ret (if (k - m <? 0)%Z || ((k - m) mod s =? 0)%Z then Val 0
         else Val (1 / Qc_of_Z s ^ Z.to_nat ((k - m) / s + 1))).
Proof.
  intros Hb Hc.
  destruct (equal_computes 1 s m k l Hb c Hc) as (c' & -> & _).
  cbn [fst]. f_equal. rewrite equal_single. unfold Law.single. cbv zeta.
  destruct (Z.ltb_spec (k - m) 0) as [Hk|Hk]; cbn [orb].
  - by rewrite orb_true_r.
  - rewrite orb_false_r, Z.rem_mod_nonneg by (destruct Hb; lia).
    by case_condition.
Qed.

Lemma C2_witness :
  (probabilityForResultEqualTo (new (dice_of 1 4 0) []) (Int 5) no_caches).1
  = Ret (if (5 - 0 <? 0)%Z || ((5 - 0) mod 4 =? 0)%Z then Val 0
         else Val (1 / Qc_of_Z 4 ^ Z.to_nat ((5 - 0) / 4 + 1))).
Proof.
  apply C2_single_die_probability;
    [unfold in_bounds; lia | apply no_caches_ok].
Defined.

(** C4.  For a valid dice of more than one die and every argument [exp],
    [calculateVariance(exp)] is the call on the calculator of the one die
    with the same sides and modifier: it returns the variance of that die,
    which differs from [count] times that variance unless it is 0. *)
Theorem C4_variance_of_several_dice (c s m : Z) l (exp : real) (cs : caches) :
  in_bounds c s → (1 < c)%Z →
  calculateVariance (new (dice_of c s m) l) exp cs
  = calculateVariance (new (dice_of 1 s m) []) exp cs
  ∧ ∀ v, (calculateVariance (new (dice_of 1 s m) []) exp cs).1 = Ret (Val v) →
         v ≠ 0 →
         (calculateVariance (new (dice_of c s m) l) exp cs).1
         ≠ Ret (Val (Qc_of_Z c * v)).
Proof.
  intros Hb Hc.
  assert (calculateVariance (new (dice_of c s m) l) exp cs
          = calculateVariance (new (dice_of 1 s m) []) exp cs) as E.
  { unfold calculateVariance.
    cbn [calculateVariance_fuel dice dice_of Dice.count Dice.sides
         Dice.modifier Number.strict_eq Number.cmp].
    destruct (Z.eqb_spec c 1) as [|_]; [lia|].
    unfold Dice.withCount.
    rewrite constructor_in_bounds by (destruct Hb; split; lia).
    reflexivity. }
  split; [done|]. intros v Hv Hne. rewrite E, Hv. intros [= Hmul].
  apply Hne. assert ((Qc_of_Z c - 1) * v = 0) as H0.
  { replace ((Qc_of_Z c - 1) * v) with (Qc_of_Z c * v - v) by ring.
    rewrite <- Hmul. ring. }
  apply Qcmult_integral in H0 as [H0|H0]; [|done].
  assert (Qc_of_Z c = Qc_of_Z 1) as H1.
  { rewrite Z2Qc_inj_1. rewrite <- (Qcplus_0_l 1), <- H0. ring. }
  apply Z2Qc_inj in H1. lia.
Qed.

Lemma C4_witness :
  calculateVariance (new (dice_of 2 6 0) []) (Val (Qc_of_Z 7)) no_caches
  = calculateVariance (new (dice_of 1 6 0) []) (Val (Qc_of_Z 7)) no_caches
  ∧ ∀ v, (calculateVariance (new (dice_of 1 6 0) []) (Val (Qc_of_Z 7))
            no_caches).1 = Ret (Val v) →
         v ≠ 0 →
         (calculateVariance (new (dice_of 2 6 0) []) (Val (Qc_of_Z 7))
            no_caches).1
         ≠ Ret (Val (Qc_of_Z 2 * v)).
Proof.
  apply C4_variance_of_several_dice; [unfold in_bounds; lia | lia].
Defined.

(** C5.  For every term function [f] and every configuration,
    [simulateSumToInfinity] returns [f(startIndex) + ... + f(n)] for the
    first index [n] above [startIndex] with [n >= minIterations] and
    ([n >= maxIterations] or both [f(n)] and [f(n+1)] at most the
    threshold); a term at most the threshold followed by a larger one
    does not end the sum below [maxIterations]. *)
Theorem C5_sum_ends_at_first_stop (f : Z → Qc) (thr : Qc) (mn mx st : Z) :
  ∃ n, (st < n)%Z ∧ stops f thr mn mx n
       ∧ (∀ j, (st < j < n)%Z → ¬ stops f thr mn mx j)
       ∧ (∀ c, Sum.simulateSumToInfinity (pure_terms (λ z, Val (f z)))
                 (Sum.mkConfig (Val thr) (Int mn) (Int mx) (Int st)) c
               = (Ret (Val (total f st n)), c))
       ∧ (∀ j, (j < mx)%Z → f j ≤ thr → thr < f (j + 1)%Z → n ≠ j).
Proof.
  destruct (sum_of_pure_terms f thr mn mx st)
    as (n & Hn & Hstop & Hfirst & Hrun).
  exists n. split; [done|]. split; [done|]. split; [done|]. split; [done|].
  intros j Hj Hle Hgt ->. destruct Hstop as [_ [?|[_ Hnext]]]; [lia|].
  by apply Qcle_not_lt in Hnext.
Qed.

(** C6.  For every valid dice, [probabilityForResultLessOrEqualTo] is
    monotone in [k], sums to 1 with [probabilityForResultGreaterThan],
    and is 0 for every [k] at most the modifier. *)
Theorem C6_cumulative_distribution (c s m : Z) l :
  in_bounds c s →
  let this := new (dice_of c s m) l in
  (∀ k1 k2 c1 c2, (k1 < k2)%Z → cache_ok c1 → cache_ok c2 →
     ∃ p1 p2,
       (probabilityForResultLessOrEqualTo this (Int k1) c1).1 = Ret (Val p1)
       ∧ (probabilityForResultLessOrEqualTo this (Int k2) c2).1
         = Ret (Val p2)
       ∧ p1 ≤ p2)
  ∧ (∀ k c1 c2, cache_ok c1 → cache_ok c2 →
       ∃ p q,
         (probabilityForResultLessOrEqualTo this (Int k) c1).1 = Ret p
         ∧ (probabilityForResultGreaterThan this (Int k) c2).1 = Ret q
         ∧ Real.add p q = Val 1)
  ∧ (∀ k c1, (k ≤ m)%Z → cache_ok c1 →
       (probabilityForResultLessOrEqualTo this (Int k) c1).1 = Ret (Val 0)).
Proof.
  intros Hb this. subst this. split; [|split].
  - intros k1 k2 c1 c2 Hk Hc1 Hc2.
    destruct (lessOrEqual_computes c s m k1 l Hb c1 Hc1) as (? & -> & _).
    destruct (lessOrEqual_computes c s m k2 l Hb c2 Hc2) as (? & -> & _).
    eexists _, _. split; [done|]. split; [done|].
    apply lessOrEqual_mono; destruct Hb; lia.
  - intros k c1 c2 Hc1 Hc2.
    destruct (lessOrEqual_computes c s m k l Hb c1 Hc1) as (? & -> & _).
    destruct (greaterThan_computes c s m k l Hb c2 Hc2) as (? & -> & _).
    eexists _, _. split; [done|]. split; [done|].
    cbn [Real.add Real.lift2]. f_equal. ring.
  - intros k c1 Hk Hc1.
    destruct (lessOrEqual_computes c s m k l Hb c1 Hc1) as (? & -> & _).
    cbn [fst]. by rewrite lessOrEqual_base.
Qed.

Lemma C6_witness :
  let this := new (dice_of 2 6 (-4)) [] in
  (∀ k1 k2 c1 c2, (k1 < k2)%Z → cache_ok c1 → cache_ok c2 →
     ∃ p1 p2,
       (probabilityForResultLessOrEqualTo this (Int k1) c1).1 = Ret (Val p1)
       ∧ (probabilityForResultLessOrEqualTo this (Int k2) c2).1
         = Ret (Val p2)
       ∧ p1 ≤ p2)
  ∧ (∀ k c1 c2, cache_ok c1 → cache_ok c2 →
       ∃ p q,
         (probabilityForResultLessOrEqualTo this (Int k) c1).1 = Ret p
         ∧ (probabilityForResultGreaterThan this (Int k) c2).1 = Ret q
         ∧ Real.add p q = Val 1)
  ∧ (∀ k c1, (k ≤ -4)%Z → cache_ok c1 →
       (probabilityForResultLessOrEqualTo this (Int k) c1).1 = Ret (Val 0)).
Proof. apply C6_cumulative_distribution. unfold in_bounds. lia. Defined.

(** C8.  The constructor of [Dice] succeeds for every count within
    1..16 and sides within 2..100, with any modifier, and throws the
    message of a requirement otherwise; for the count 0, the sides 1 and
    the count 17 it throws.  The message for a count above 16 names the
    bound 32. *)
Theorem C8_constructor_bounds :
  (∀ name count sides modifier,
     within 1 16 count → within 2 100 sides →
     Dice.constructor name count sides modifier
     = Ret (Dice.mk name count sides modifier))
  ∧ (∀ name count sides modifier,
       ¬ (within 1 16 count ∧ within 2 100 sides) →
       ∃ msg, Dice.constructor name count sides modifier = Throw msg
              ∧ msg ∈ ["Dice count must be positive";
                       "Number of sides of a dice must be at least 2";
                       "Dice count may not exceed 32";
                       "Number of sides may not exceed 100"])
  ∧ Dice.constructor "0d6" (Int 0) (Int 6) (Int 0)
    = Throw "Dice count must be positive"
  ∧ Dice.constructor "1d1" (Int 1) (Int 1) (Int 0)
    = Throw "Number of sides of a dice must be at least 2"
  ∧ Dice.constructor "17d6" (Int 17) (Int 6) (Int 0)
    = Throw "Dice count may not exceed 32".
Proof.
  split; [|split; [|by repeat split]].
  - intros name count sides modifier (c & -> & Hc) (s & -> & Hs).
    unfold Dice.constructor, require; cbn.
    destruct (Z.gtb_spec c 0); [|lia]. cbn.
    destruct (Z.geb_spec s 2); [|lia]. cbn.
    destruct (Z.leb_spec c 16); [|lia]. cbn.
    destruct (Z.leb_spec s 100); [|lia]. done.
  - intros name count sides modifier Hout.
    unfold Dice.constructor, require.
    cbn [Dice.count Dice.sides].
    destruct (Number.gt count (Int 0)) eqn:E1; cbn;
      [|eexists; split; [done|set_solver]].
    destruct (Number.ge sides (Int 2)) eqn:E2; cbn;
      [|eexists; split; [done|set_solver]].
    destruct (Number.le count (Int 16)) eqn:E3; cbn;
      [|eexists; split; [done|set_solver]].
    destruct (Number.le sides (Int 100)) eqn:E4; cbn;
      [|eexists; split; [done|set_solver]].
    exfalso. apply Hout.
    destruct count as [|c], sides as [|s]; try done. cbn in *.
    split; eexists; (split; [done|]); lia.
Qed.

Lemma C8_witness :
  Dice.constructor "16d100-7" (Int 16) (Int 100) (Int (-7))
  = Ret (Dice.mk "16d100-7" (Int 16) (Int 100) (Int (-7)))
  ∧ ∃ msg, Dice.constructor "2d101" (Int 2) (Int 101) (Int 0) = Throw msg
           ∧ msg ∈ ["Dice count must be positive";
                    "Number of sides of a dice must be at least 2";
                    "Dice count may not exceed 32";
                    "Number of sides may not exceed 100"].
Proof.
  split.
  - apply (proj1 C8_constructor_bounds); eexists; (split; [done|lia]).
  - apply (proj1 (proj2 C8_constructor_bounds)).
    intros [_ (s & [= <-] & Hs)]. lia.
Defined.

(** C10.  There is a descriptor with a modifier delimiter and an empty
    modifier token, "1d6-", on which [Dice.parse] throws nothing:
    [parseInt] of the empty token is NaN, and [parse] returns a dice whose
    modifier is NaN and whose name contains "NaN". *)
Theorem C10_empty_modifier_token :
  ∃ descriptor d,
    Str.split Dice.delimiter descriptor !! 2%nat = Some ""
    ∧ Str.includes descriptor "-" = true
    ∧ Str.parseInt "" = NaN
    ∧ Dice.parse descriptor = Ret d
    ∧ d.(Dice.modifier) = NaN
    ∧ Str.includes d.(Dice.name) "NaN" = true.
Proof.
  exists "1d6-", (Dice.mk "1d6-NaN" (Int 1) (Int 6) NaN).
  by repeat split.
Qed.

(** C9.  For every valid dice, compared with valid dice, [calculate()]
    throws nothing and returns whenever the scan of the median does, as it
    does for one die and for a modifier that is not negative; the field
    [pFail] of the result is what [probabilityForResultLessThan(4)] returns,
    the value of [probabilityForResultLessOrEqualTo(3)]. *)
Theorem C9_pFail_is_less_than_4 fuel (c s m : Z) l (cs : caches) :
  in_bounds c s → Forall valid l → cache_ok cs →
  let this := new (dice_of c s m) l in
  match (calculate fuel this cs).1 with
  | Ret r =>
      ∀ cs', cache_ok cs' →
        (probabilityForResultLessThan this (Int 4) cs').1
        = Ret r.(DiceResult.pFail)
        ∧ (probabilityForResultLessOrEqualTo this (Int 3) cs').1
          = Ret r.(DiceResult.pFail)
  | Throw _ => False
  | OutOfFuel =>
      (∀ cs', cache_ok cs' → (calculateMedian fuel this cs').1 = OutOfFuel)
      ∧ ((Z.to_nat (6 * c * s) ≤ fuel)%nat → (m < 0)%Z ∧ (1 < c)%Z)
  end.
Proof.
  intros Hb Hl Hcs this. subst this.
  destruct (calculate_computes fuel c s m l Hb Hl)
    as (e & v & wins & _ & _ & Hcalc).
  destruct (Hcalc cs Hcs) as (cs1 & -> & _). cbn [fst].
  destruct (Value.median fuel c s m) as [md|msg|] eqn:Emd;
    unfold mbind, outcome_bind; cbn [DiceResult.pFail].
  - intros cs' Hcs'.
    destruct (lessThan_computes c s m 4 l Hb cs' Hcs') as (? & -> & _).
    destruct (lessOrEqual_computes c s m 3 l Hb cs' Hcs') as (? & -> & _).
    done.
  - by apply median_never_throws in Emd.
  - split.
    + intros cs' Hcs'.
      destruct (median_computes fuel c s m l Hb cs' Hcs') as (? & -> & _).
      done.
    + intros Hfuel.
      destruct (Z.lt_ge_cases m 0) as [Hm|Hm],
               (decide (c = 1%Z)) as [Hc|Hc];
        [| destruct Hb; lia | |];
        destruct (median_returns_for c s m fuel Hb) as (? & E);
        try done; try (by left); try (by right); congruence.
Qed.

Lemma C9_witness :
  let this := new (dice_of 1 4 0) [dice_of 1 4 0] in
  match (calculate 24 this no_caches).1 with
  | Ret r =>
      ∀ cs', cache_ok cs' →
        (probabilityForResultLessThan this (Int 4) cs').1
        = Ret r.(DiceResult.pFail)
        ∧ (probabilityForResultLessOrEqualTo this (Int 3) cs').1
          = Ret r.(DiceResult.pFail)
  | Throw _ => False
  | OutOfFuel =>
      (∀ cs', cache_ok cs' → (calculateMedian 24 this cs').1 = OutOfFuel)
      ∧ ((Z.to_nat (6 * 1 * 4) ≤ 24)%nat → (0 < 0)%Z ∧ (1 < 1)%Z)
  end.
Proof.
  apply C9_pFail_is_less_than_4.
  - unfold in_bounds. lia.
  - apply Forall_cons. split; [|done]. exists 1%Z, 4%Z, 0%Z.
    split; [unfold in_bounds; lia|done].
  - apply no_caches_ok.
Defined.

(** C1, as the code has it.  The dice parsed from "1d6" explodes:
    [calculateExpectedValue()] returns 391895/93312, between 4.199 and 4.2,
    and for the dice parsed from "2d6" twice that, 391895/46656. *)
Theorem C1_expected_value_of_exploding_d6 l (cs : caches) :
  cache_ok cs →
  Dice.parse "1d6" = Ret (dice_of 1 6 0)
  ∧ Dice.parse "2d6" = Ret (dice_of 2 6 0)
  ∧ (calculateExpectedValue (new (dice_of 1 6 0) l) cs).1
    = Ret (Val (Q2Qc (391895 # 93312)))
  ∧ (calculateExpectedValue (new (dice_of 2 6 0) l) cs).1
    = Ret (Val (Q2Qc (391895 # 46656)))
  ∧ Q2Qc (4199 # 1000) < Q2Qc (391895 # 93312) < Q2Qc (42 # 10).
Proof.
  intros Hcs. split; [done|]. split; [done|].
  destruct (expected_computes 1 6 0 l in_bounds_1_6 cs Hcs) as (? & -> & _).
  destruct (expected_computes 2 6 0 l in_bounds_2_6 cs Hcs) as (? & -> & _).
  rewrite expected_1d6, expected_2d6. by repeat split.
Qed.

Lemma C1_witness :
  Dice.parse "1d6" = Ret (dice_of 1 6 0)
  ∧ Dice.parse "2d6" = Ret (dice_of 2 6 0)
  ∧ (calculateExpectedValue (new (dice_of 1 6 0) []) no_caches).1
    = Ret (Val (Q2Qc (391895 # 93312)))
  ∧ (calculateExpectedValue (new (dice_of 2 6 0) []) no_caches).1
    = Ret (Val (Q2Qc (391895 # 46656)))
  ∧ Q2Qc (4199 # 1000) < Q2Qc (391895 # 93312) < Q2Qc (42 # 10).
Proof. apply C1_expected_value_of_exploding_d6, no_caches_ok. Defined.

(** C1 as stated fails: the expected value of the dice parsed from "1d6"
    is not within one half of 3.5. *)
Lemma C1_counterexample :
  ¬ ∃ d v,
      Dice.parse "1d6" = Ret d
      ∧ (calculateExpectedValue (new d []) no_caches).1 = Ret (Val v)
      ∧ Q2Qc (7 # 2) - Q2Qc (1 # 2) ≤ v ≤ Q2Qc (7 # 2) + Q2Qc (1 # 2).
Proof.
  intros (d & v & Hd & Hv & _ & Hle). revert Hle.
  change (Dice.parse "1d6") with (Ret (dice_of 1 6 0)) in Hd.
  injection Hd as <-.
  destruct (expected_computes 1 6 0 [] in_bounds_1_6 no_caches no_caches_ok)
    as (? & E & _).
  rewrite E, expected_1d6 in Hv. injection Hv as <-.
  by apply Qclt_not_le.
Qed.

(** C3, as the code has it.  For two dice parsed from "1d4",
    [probabilityToWinAgainst] of one against the other returns
    6706791/16777216, between 0.399 and 0.4: the dice explode, and a tie
    has probability one fifth. *)
Theorem C3_win_probability_of_exploding_d4 l (cs : caches) :
  cache_ok cs →
  Dice.parse "1d4" = Ret (dice_of 1 4 0)
  ∧ (probabilityToWinAgainst (new (dice_of 1 4 0) l) (dice_of 1 4 0) cs).1
    = Ret (Val (Q2Qc (6706791 # 16777216)))
  ∧ Q2Qc (399 # 1000) < Q2Qc (6706791 # 16777216) < Q2Qc (4 # 10).
Proof.
  intros Hcs. split; [done|].
  destruct (win_computes 1 4 0 l 1 4 0 in_bounds_1_4 in_bounds_1_4 cs Hcs)
    as (? & -> & _).
  rewrite win_1d4_1d4. by repeat split.
Qed.

Lemma C3_witness :
  Dice.parse "1d4" = Ret (dice_of 1 4 0)
  ∧ (probabilityToWinAgainst (new (dice_of 1 4 0) [dice_of 1 4 0])
       (dice_of 1 4 0) no_caches).1
    = Ret (Val (Q2Qc (6706791 # 16777216)))
  ∧ Q2Qc (399 # 1000) < Q2Qc (6706791 # 16777216) < Q2Qc (4 # 10).
Proof. apply C3_win_probability_of_exploding_d4, no_caches_ok. Defined.

(** C3 as stated fails: the win probability of the dice parsed from "1d4"
    against itself is not within 0.02 of 0.375. *)
Lemma C3_counterexample :
  ¬ ∃ d v,
      Dice.parse "1d4" = Ret d
      ∧ (probabilityToWinAgainst (new d [d]) d no_caches).1 = Ret (Val v)
      ∧ Q2Qc (375 # 1000) - Q2Qc (2 # 100) ≤ v
        ≤ Q2Qc (375 # 1000) + Q2Qc (2 # 100).
Proof.
  intros (d & v & Hd & Hv & _ & Hle). revert Hle.
  change (Dice.parse "1d4") with (Ret (dice_of 1 4 0)) in Hd.
  injection Hd as <-.
  destruct (win_computes 1 4 0 [dice_of 1 4 0] 1 4 0 in_bounds_1_4
              in_bounds_1_4 no_caches no_caches_ok) as (? & E & _).
  rewrite E, win_1d4_1d4 in Hv. injection Hv as <-.
  by apply Qclt_not_le.
Qed.

(** C7.  When the loop of [calculateMedian()] returns, it returns the
    first index [i] at which one of its tests holds: [i] itself when [i] is
    at or below and at or above one half of the mass, and [i - 0.5] when
    more than one half is at or below [i] and less than one half at or
    above.  It returns for every valid dice of one die and for every valid
    dice with a modifier that is not negative.  On the dice parsed from
    "2d6-4", a valid dice, the cumulative distribution stays at or below
    one third and the loop returns for no amount of fuel. *)
Theorem C7_median_scan fuel (c s m : Z) l (cs : caches) :
  in_bounds c s → cache_ok cs →
  let this := new (dice_of c s m) l in
  let le k := probabilityForResultLessOrEqualTo this (Int k) in
  let ge k := probabilityForResultGreaterOrEqualTo this (Int k) in
  (∀ v, (calculateMedian fuel this cs).1 = Ret v →
     ∃ i p q,
       (le i cs).1 = Ret (Val p) ∧ (ge i cs).1 = Ret (Val q)
       ∧ (∀ k, (1 + m ≤ k < i)%Z →
            ∃ p', (le k cs).1 = Ret (Val p') ∧ p' ≤ Q2Qc (1 # 2))
       ∧ ((v = Val (Qc_of_Z i) ∧ Q2Qc (1 # 2) ≤ p ∧ Q2Qc (1 # 2) ≤ q)
          ∨ (v = Val (Qc_of_Z i - Q2Qc (1 # 2))
             ∧ Q2Qc (1 # 2) < p ∧ ¬ Q2Qc (1 # 2) ≤ q)))
  ∧ ((0 ≤ m)%Z ∨ c = 1%Z → (Z.to_nat (6 * c * s) ≤ fuel)%nat →
     ∃ v, (calculateMedian fuel this cs).1 = Ret v)
  ∧ Dice.parse "2d6-4" = Ret (dice_of 2 6 (-4))
  ∧ valid (dice_of 2 6 (-4))
  ∧ (∀ k, ∃ p,
       (probabilityForResultLessOrEqualTo (new (dice_of 2 6 (-4)) l) (Int k)
          cs).1 = Ret (Val p)
       ∧ p ≤ Q2Qc (1 # 3))
  ∧ (calculateMedian fuel (new (dice_of 2 6 (-4)) l) cs).1 = OutOfFuel.
Proof.
  intros Hb Hcs this le ge. subst this le ge. cbv beta.
  split; [|split; [|split; [done|split; [|split]]]].
  - intros v Hv.
    destruct (median_computes fuel c s m l Hb cs Hcs) as (? & E & _).
    rewrite E in Hv. cbn [fst] in Hv.
    apply median_from_sound in Hv as (i & Hi & Hbelow & Hat).
    exists i, (Law.lessOrEqual c s m i), (1 - Law.lessOrEqual c s m (i - 1)).
    destruct (lessOrEqual_computes c s m i l Hb cs Hcs) as (? & -> & _).
    destruct (greaterOrEqual_computes c s m i l Hb cs Hcs) as (? & -> & _).
    split; [done|]. split; [done|]. split; [|done].
    intros k Hk.
    destruct (lessOrEqual_computes c s m k l Hb cs Hcs) as (? & -> & _).
    eexists. split; [done|]. by apply Hbelow.
  - intros Hm Hfuel.
    destruct (median_computes fuel c s m l Hb cs Hcs) as (? & -> & _).
    by apply median_returns_for.
  - exists 2%Z, 6%Z, (-4)%Z. split; [apply in_bounds_2_6|done].
  - intros k.
    destruct (lessOrEqual_computes 2 6 (-4) k l in_bounds_2_6 cs Hcs)
      as (? & -> & _).
    eexists. split; [done|]. apply lessOrEqual_2d6_minus_4.
  - destruct (median_computes fuel 2 6 (-4) l in_bounds_2_6 cs Hcs)
      as (? & -> & _).
    apply median_from_diverges. intros k.
    eapply Qcle_lt_trans; [apply lessOrEqual_2d6_minus_4|done].
Qed.

Lemma C7_witness :
  Dice.parse "2d6-4" = Ret (dice_of 2 6 (-4))
  ∧ valid (dice_of 2 6 (-4))
  ∧ (∀ k, ∃ p,
       (probabilityForResultLessOrEqualTo (new (dice_of 2 6 (-4)) []) (Int k)
          no_caches).1 = Ret (Val p)
       ∧ p ≤ Q2Qc (1 # 3))
  ∧ (calculateMedian 1000 (new (dice_of 2 6 (-4)) []) no_caches).1 = OutOfFuel.
Proof.
  apply (C7_median_scan 1000 2 6 (-4) [] no_caches in_bounds_2_6 no_caches_ok).
Defined.

End Claims.

(** * Further properties of the code

    ** The parser and the names *)

Example split_vs_example :
  Index.split_vs "1d6 vs 2d4+1vsvvs" = ["1d6 "; " 2d4+1"; "v"; ""].
Proof. reflexivity. Qed.

Section Characters.


Lemma all_chars_impl (P Q : ascii → bool) s :
  (∀ c, P c = true → Q c = true) →
  all_chars P s = true → all_chars Q s = true.
Proof.
  intros HPQ. induction s as [|c s IH]; [done|]. cbn [all_chars].
  intros [Hc Hs]%andb_prop. by rewrite (HPQ c Hc), IH.
Qed.


Lemma all_chars_rev_app P (u v : string) :
  all_chars P (String.rev_app u v) = all_chars P u && all_chars P v.
Proof.
  revert v. induction u as [|c u IH]; intros v; [done|].
  cbn [String.rev_app all_chars]. rewrite IH. cbn [all_chars].
  by rewrite andb_assoc, (andb_comm (all_chars P u)).
Qed.

Lemma all_chars_rev P (u : string) :
  all_chars P (String.rev u) = all_chars P u.
Proof. unfold String.rev. by rewrite all_chars_rev_app, andb_true_r. Qed.






Lemma trimStart_chars P s :
  all_chars P s = true → all_chars P (Str.trimStart s) = true.
Proof.
  induction s as [|c s IH]; [done|]. cbn [Str.trimStart].
  destruct (Str.is_whitespace c); [|done].
  cbn [all_chars]. intros [_ Hs]%andb_prop. by apply IH.
Qed.

Lemma trim_chars P s : all_chars P s = true → all_chars P (Str.trim s) = true.
Proof.
  intros Hs. unfold Str.trim, Str.trimEnd.
  rewrite all_chars_rev. apply trimStart_chars.
  rewrite all_chars_rev. by apply trimStart_chars.
Qed.



End Characters.

Section Tokens.

(** The tokens of a split hold no delimiter. *)
Lemma split_tokens delim s :
  Forall (λ tok, all_chars (λ c, negb (delim c)) tok = true)
    (Str.split delim s).
Proof.
  induction s as [|c s IH]; cbn [Str.split].
  - by repeat constructor.
  - destruct (delim c) eqn:Ec; [by constructor|].
    destruct (Str.split delim s) as [|tok toks].
    { constructor; [|done]. cbn [all_chars]. by rewrite Ec. }
    apply Forall_cons in IH as [Htok Htoks].
    constructor; [|done]. cbn [all_chars]. by rewrite Ec, Htok.
Qed.




End Tokens.

Section Integers.




End Integers.

Section ParseInt.





Lemma digit_value_nonneg c d : Str.digit_value c = Some d → 0 ≤ d.
Proof.
  unfold Str.digit_value. cbv zeta. set (n := Z.of_nat (nat_of_ascii c)).
  repeat match goal with
         | |- context [(?a <=? ?b)%Z] => destruct (Z.leb_spec a b)
         end; cbn; intros [= <-]; lia.
Qed.

Lemma parse_digits_nonneg radix s : ∀ acc v,
  0 ≤ radix → 0 ≤ default 0 acc →
  Str.parse_digits radix acc s = Some v → 0 ≤ v.
Proof.
  induction s as [|c s IH]; intros acc v Hr Hacc; cbn [Str.parse_digits].
  - intros ->. done.
  - destruct (Str.digit_value c) as [d|] eqn:Ed; [|by intros ->].
    destruct (d <? radix); [|by intros ->].
    apply IH; [done|]. cbn. apply digit_value_nonneg in Ed. nia.
Qed.

(** On a string with no "-", [parseInt] is NaN or not negative. *)
Lemma parseInt_nonneg s z :
  all_chars not_minus s = true → Str.parseInt s = Int z → 0 ≤ z.
Proof.
  intros Hs. apply trimStart_chars in Hs. unfold Str.parseInt.
  destruct (Str.trimStart s) as [|c r].
  { cbn. done. }
  cbn [all_chars] in Hs. apply andb_prop in Hs as [Hc Hr].
  assert (∃ radix rest,
            0 ≤ radix
            ∧ (let '(sign, s) :=
                 match String c r with
                 | String "-" r => (-1, r)
                 | String "+" r => (1, r)
                 | _ => (1, String c r)
                 end in
               let '(radix, s) :=
                 match s with
                 | String "0" (String "x" r) => (16, r)
                 | String "0" (String "X" r) => (16, r)
                 | _ => (10, s)
                 end in
               match Str.parse_digits radix None s with
               | Some v => Int (sign * v)
               | None => NaN
               end)
              = match Str.parse_digits radix None rest with
                | Some v => Int (1 * v)
                | None => NaN
                end) as (radix & rest & Hradix & ->).
  { assert (∀ t : string, ∃ radix rest,
              0 ≤ radix
              ∧ (let '(radix, s) :=
                   match t with
                   | String "0" (String "x" r) => (16, r)
                   | String "0" (String "X" r) => (16, r)
                   | _ => (10, t)
                   end in
                 match Str.parse_digits radix None s with
                 | Some v => Int (1 * v)
                 | None => NaN
                 end)
                = match Str.parse_digits radix None rest with
                  | Some v => Int (1 * v)
                  | None => NaN
                  end) as Hprefix.
    { intros [|a t]; [by exists 10, ""|].
      destruct a as [[] [] [] [] [] [] [] []];
        try (eexists 10, _; split; [done|reflexivity]).
      destruct t as [|b t]; [by eexists 10, _|].
      destruct b as [[] [] [] [] [] [] [] []];
        try (eexists 10, _; split; [done|reflexivity]);
        by exists 16, t. }
    destruct c as [[] [] [] [] [] [] [] []];
      try (by vm_compute in Hc);
      try exact (Hprefix r);
      match goal with
      | |- context [String ?a r] => exact (Hprefix (String a r))
      end. }
  destruct (Str.parse_digits radix None rest) as [v|] eqn:Ev; [|done].
  intros [= <-]. apply parse_digits_nonneg in Ev; [lia|done|done].
Qed.

End ParseInt.

Section DiceParser.

Lemma constructor_Ret name count sides modifier d :
  Dice.constructor name count sides modifier = Ret d →
  d = Dice.mk name count sides modifier
  ∧ (∃ c s, count = Int c ∧ sides = Int s ∧ in_bounds c s).
Proof.
  unfold Dice.constructor, require. cbn [Dice.count Dice.sides].
  destruct count as [|c]; [done|]. destruct sides as [|s].
  { cbn. by destruct (c >? 0). }
  cbn.
  destruct (Z.gtb_spec c 0); cbn; [|done].
  destruct (Z.geb_spec s 2); cbn; [|done].
  destruct (Z.leb_spec c 16); cbn; [|done].
  destruct (Z.leb_spec s 100); cbn; [|done].
  intros [= <-]. split; [done|]. exists c, s. unfold in_bounds.
  repeat split; lia.
Qed.

Lemma constructor_Throw name count sides modifier msg :
  Dice.constructor name count sides modifier = Throw msg →
  msg ∈ ["Dice count must be positive";
         "Number of sides of a dice must be at least 2";
         "Dice count may not exceed 32";
         "Number of sides may not exceed 100"].
Proof.
  unfold Dice.constructor, require. cbn [Dice.count Dice.sides].
  destruct (Number.gt count (Int 0)); cbn; [|intros [= <-]; set_solver].
  destruct (Number.ge sides (Int 2)); cbn; [|intros [= <-]; set_solver].
  destruct (Number.le count (Int 16)); cbn; [|intros [= <-]; set_solver].
  destruct (Number.le sides (Int 100)); cbn; [done|intros [= <-]; set_solver].
Qed.

Lemma constructor_never_out_of_fuel name count sides modifier :
  Dice.constructor name count sides modifier ≠ OutOfFuel.
Proof.
  unfold Dice.constructor, require. cbn [Dice.count Dice.sides].
  destruct (Number.gt count (Int 0)); cbn; [|done].
  destruct (Number.ge sides (Int 2)); cbn; [|done].
  destruct (Number.le count (Int 16)); cbn; [|done].
  by destruct (Number.le sides (Int 100)).
Qed.







End DiceParser.

Section ParserStatements.

Lemma parse_Ret descriptor d :
  Dice.parse descriptor = Ret d →
  ∃ c s, d.(Dice.count) = Int c ∧ d.(Dice.sides) = Int s ∧ in_bounds c s
         ∧ d.(Dice.name) = Dice.prettyName (Int c) (Int s) d.(Dice.modifier).
Proof.
  unfold Dice.parse, require.
  destruct (2 <=? length (Str.split Dice.delimiter descriptor))%nat;
    cbn [negb]; [|done].
  intros H. apply constructor_Ret in H as (-> & c & s & Hc & Hs & Hb).
  exists c, s. cbn [Dice.count Dice.sides Dice.name Dice.modifier].
  rewrite Hc, Hs. done.
Qed.

(** X1.  Every outcome of [Dice.parse]: a dice with a count within 1..16 and
    sides within 2..100, under the name that [prettyName] gives to its count,
    sides and modifier, and a valid dice when its modifier is an integer; or
    a message, that of the descriptor when it has fewer than two tokens and
    one of the four of the constructor otherwise. *)
Theorem parse_outcomes descriptor :
  match Dice.parse descriptor with
  | Ret d =>
      ∃ c s, d.(Dice.count) = Int c ∧ d.(Dice.sides) = Int s
             ∧ in_bounds c s
             ∧ d.(Dice.name)
               = Dice.prettyName (Int c) (Int s) d.(Dice.modifier)
             ∧ (∀ m, d.(Dice.modifier) = Int m → d = dice_of c s m ∧ valid d)
  | Throw msg =>
      ((length (Str.split Dice.delimiter descriptor) < 2)%nat
       ∧ msg = "Invalid dice description: " +:+ descriptor)
      ∨ ((2 ≤ length (Str.split Dice.delimiter descriptor))%nat
         ∧ msg ∈ ["Dice count must be positive";
                  "Number of sides of a dice must be at least 2";
                  "Dice count may not exceed 32";
                  "Number of sides may not exceed 100"])
  | OutOfFuel => False
  end.
Proof.
  destruct (Dice.parse descriptor) as [d|msg|] eqn:E.
  - destruct (parse_Ret _ _ E) as (c & s & Hc & Hs & Hb & Hname).
    exists c, s. split; [done|]. split; [done|]. split; [done|].
    split; [done|]. intros m Hm.
    assert (d = dice_of c s m) as ->.
    { destruct d as [nm cnt sd md]. cbn in *. by subst. }
    split; [done|]. by exists c, s, m.
  - revert E. unfold Dice.parse, require.
    destruct (Nat.leb_spec 2 (length (Str.split Dice.delimiter descriptor)));
      cbn [negb].
    + intros E. right. split; [done|]. by eapply constructor_Throw.
    + intros [= <-]. by left.
  - revert E. unfold Dice.parse, require.
    destruct (2 <=? length (Str.split Dice.delimiter descriptor))%nat;
      cbn [negb]; [|done].
    apply constructor_never_out_of_fuel.
Qed.

Lemma parse_outcomes_witness :
  (∃ c s, Int 2 = Int c ∧ Int 8 = Int s ∧ in_bounds c s
          ∧ "2d8+3" = Dice.prettyName (Int c) (Int s) (Int 3)
          ∧ (∀ m, Int 3 = Int m →
               Dice.mk "2d8+3" (Int 2) (Int 8) (Int 3) = dice_of c s m
               ∧ valid (Dice.mk "2d8+3" (Int 2) (Int 8) (Int 3))))
  ∧ (((length (Str.split Dice.delimiter "6") < 2)%nat
      ∧ "Invalid dice description: 6" = "Invalid dice description: " +:+ "6")
     ∨ ((2 ≤ length (Str.split Dice.delimiter "6"))%nat
        ∧ "Invalid dice description: 6"
          ∈ ["Dice count must be positive";
             "Number of sides of a dice must be at least 2";
             "Dice count may not exceed 32";
             "Number of sides may not exceed 100"])).
Proof.
  split; [exact (parse_outcomes " 2D8 + 3")|exact (parse_outcomes "6")].
Defined.



(** X3.  Dice within the bounds that share a name are the same dice: the name,
    which is the key of the two caches, determines count, sides and modifier. *)
Theorem names_determine_dice d d' :
  valid d → valid d' → d.(Dice.name) = d'.(Dice.name) → d = d'.
Proof.
  intros (c & s & m & Hb & ->) (c' & s' & m' & Hb' & ->) Hname.
  apply prettyName_inj in Hname as (-> & -> & ->); done.
Qed.

Lemma names_determine_dice_witness :
  dice_of 2 6 (-4) = dice_of 2 6 (-4).
Proof.
  apply names_determine_dice;
    [by exists 2, 6, (-4)|by exists 2, 6, (-4)|reflexivity].
Defined.



(** X5.  The sign of the modifier is that of the descriptor as a whole: a dice
    parsed from a descriptor that holds a "-" somewhere has no positive
    modifier, and a dice parsed from a descriptor without "-" has no negative
    one. *)
Theorem modifier_sign descriptor d m :
  Dice.parse descriptor = Ret d → d.(Dice.modifier) = Int m →
  if Str.includes descriptor "-" then m ≤ 0 else 0 ≤ m.
Proof.
  unfold Dice.parse, require.
  destruct (2 <=? length (Str.split Dice.delimiter descriptor))%nat;
    cbn [negb]; [|done].
  intros H. apply constructor_Ret in H as (-> & _).
  cbn [Dice.modifier].
  assert (∀ z,
            match Str.split Dice.delimiter descriptor !! 2%nat with
            | Some token => Str.parseInt (Str.trim token)
            | None => Int 0
            end = Int z → 0 ≤ z) as Hplain.
  { intros z.
    destruct (Str.split Dice.delimiter descriptor !! 2%nat) as [token|]
      eqn:Etoken; [|intros [= <-]; lia].
    apply parseInt_nonneg, trim_chars.
    pose proof (split_tokens Dice.delimiter descriptor) as Htokens.
    rewrite Forall_forall in Htokens.
    apply (all_chars_impl (λ c, negb (Dice.delimiter c))).
    - intros c Hc. unfold not_minus.
      destruct (Ascii.eqb_spec c "-") as [->|]; done.
    - apply Htokens. by eapply list_elem_of_lookup_2. }
  destruct (Str.includes descriptor "-").
  - destruct (match Str.split Dice.delimiter descriptor !! 2%nat with
              | Some token => Str.parseInt (Str.trim token)
              | None => Int 0
              end) as [|z]; [done|].
    cbn. intros [= <-]. specialize (Hplain z eq_refl). lia.
  - apply Hplain.
Qed.

Lemma modifier_sign_witness :
  (if Str.includes "-2d6+3" "-" then -6 ≤ 0 else 0 ≤ -6)
  ∧ (if Str.includes "2d6+3" "-" then 3 ≤ 0 else 0 ≤ 3).
Proof.
  split.
  - apply (modifier_sign "-2d6+3" (dice_of 1 2 (-6))); reflexivity.
  - apply (modifier_sign "2d6+3" (dice_of 2 6 3)); reflexivity.
Defined.

End ParserStatements.

(** ** The calculator and the requests *)

Section Range.

Local Open Scope Qc_scope.



Lemma single_below s m t : (t ≤ m)%Z → Law.single s m t = 0.
Proof. apply (equal_n_below 0). Qed.






End Range.

Section Shift.

Local Open Scope Qc_scope.

(** The loop of the convolution over a first die with a modifier [m ≥ 0]
    is the loop over the die without modifier, [m] indices lower. *)
Lemma convolve_shift s m (q : Z → Qc) k :
  (0 ≤ m)%Z →
  Law.convolve (Law.single s m) q k
  = Law.convolve (Law.single s 0) q (k - m).
Proof.
  intros Hm. rewrite !convolve_above.
  destruct (Z.le_gt_cases (k - 1) m) as [Hk|Hk].
  - replace (Z.to_nat (k - m - 1)) with O by lia. cbn [Law.above].
    apply above_zero. intros t Ht. rewrite single_below by lia. ring.
  - replace (Z.to_nat (k - 1))
      with (Z.to_nat m + Z.to_nat (k - m - 1))%nat by lia.
    rewrite above_shift, (above_zero _ 0 (Z.to_nat m)).
    2:{ intros t Ht. rewrite single_below by lia. ring. }
    rewrite Qcplus_0_l, above_from_zero. apply above_ext. intros t Ht.
    rewrite Z2Nat.id, Z.add_0_l by lia.
    rewrite (single_shift s m). do 2 f_equal. lia.
Qed.

Lemma equal_shift c s m k :
  (0 ≤ m)%Z ∨ c = 1%Z →
  Law.equal c s m k = Law.equal c s 0 (k - m).
Proof.
  intros Hm. unfold Law.equal.
  destruct (Z.to_nat (c - 1)) as [|n] eqn:En; cbn [Law.equal_n].
  - unfold Law.single. by rewrite Z.sub_0_r.
  - rewrite Z.sub_0_r. case_condition; [done|].
    apply convolve_shift. destruct Hm; lia.
Qed.

Lemma lessOrEqual_shift c s m k :
  (0 ≤ m)%Z ∨ c = 1%Z →
  Law.lessOrEqual c s m k = Law.lessOrEqual c s 0 (k - m).
Proof.
  intros Hm. unfold Law.lessOrEqual. rewrite Z.sub_0_r, above_from_zero.
  apply above_ext. intros t Ht. rewrite equal_shift by done.
  f_equal. lia.
Qed.

End Shift.

Section Halves.

Local Open Scope Qc_scope.

Lemma half_is : Q2Qc (1 # 2) = 1 / 2.
Proof. by apply Qc_is_canon. Qed.

Lemma two_is : (2 : Qc) = Qc_of_Z 2.
Proof. by apply Qc_is_canon. Qed.




(** The cumulative distribution of one die on its first block of values:
    [j] sides out of [s]. *)
Lemma single_first_block s m j :
  (2 ≤ s)%Z → (0 ≤ j < s)%Z →
  Law.lessOrEqual 1 s m (m + j) = Qc_of_Z j / Qc_of_Z s.
Proof.
  intros Hs Hj.
  assert (Qc_of_Z s ≠ 0) as Hne by (apply Qc_of_Z_nonzero; lia).
  rewrite <- (Z2Nat.id j) at 1 by lia.
  rewrite lessOrEqual_single, single_mass, Z2Nat.id by lia.
  rewrite Z.mod_small, Z.div_small by lia.
  change (Z.to_nat (0 + 1)) with 1%nat. cbn [Qcpower].
  rewrite Z2Qc_inj_sub. by field.
Qed.




Lemma single_next s m : (2 ≤ s)%Z → Law.single s m (m + 1) = 1 / Qc_of_Z s.
Proof.
  intros Hs. rewrite single_shift, single_at by lia.
  rewrite Z.mod_small, Z.div_small by lia.
  change (Z.to_nat (0 + 1)) with 1%nat. cbn [Qcpower].
  by rewrite Qcmult_1_r.
Qed.

End Halves.

Section Totals.

Local Open Scope Qc_scope.

Lemma total_two f lo : total f lo (lo + 1) = f lo + f (lo + 1)%Z.
Proof. rewrite total_next by lia. by rewrite total_one. Qed.


Lemma total_nonneg f lo hi : (∀ i, 0 ≤ f i) → 0 ≤ total f lo hi.
Proof.
  intros H. unfold total. generalize (seqZ lo (hi - lo + 1)) as l. intros l.
  induction l as [|i l IH]; cbn [foldr]; [done|].
  by apply Qcplus_nonneg_nonneg.
Qed.


Lemma square_nonneg (x : Qc) : 0 ≤ x ^ 2.
Proof.
  cbn [Qcpower]. rewrite Qcmult_1_r.
  destruct (Qclt_le_dec x 0) as [Hx|Hx]; [|by apply Qcmult_nonneg_nonneg].
  replace (x * x) with (- x * - x) by ring.
  assert (0 ≤ - x).
  { rewrite <- (Qcopp_involutive 0). by apply Qcopp_le_compat, Qclt_le_weak. }
  by apply Qcmult_nonneg_nonneg.
Qed.

(** The index that ends the summation is at most the larger of the two
    limits, or the index after the start when that is larger. *)
Lemma stop_index_bound (f : Z → Qc) (thr : Qc) (mn mx st n : Z) :
  (st < n)%Z → (∀ j, (st < j < n)%Z → ¬ stops f thr mn mx j) →
  (n ≤ Z.max (st + 1) (Z.max mn mx))%Z.
Proof.
  intros Hn Hfirst.
  destruct (Z.le_gt_cases n (st + 1)) as [|Hlate]; [lia|].
  destruct (Z.le_gt_cases mn (n - 1)) as [Hmn|]; [|lia].
  destruct (Z.le_gt_cases mx (n - 1)) as [Hmx|]; [|lia].
  destruct (Hfirst (n - 1)%Z); [lia|]. split; [done|by left].
Qed.

End Totals.

Section Engine.

Import DiceCalculator.

Local Open Scope Qc_scope.

Lemma frac_gt_half a s :
  (0 < s)%Z → (s < 2 * a)%Z → Q2Qc (1 # 2) < Qc_of_Z a / Qc_of_Z s.
Proof.
  intros Hs Ha.
  assert (0 < Qc_of_Z s) as Hpos by by apply Qc_of_Z_positive.
  assert (Qc_of_Z s ≠ 0) as Hne by (apply Qc_of_Z_nonzero; lia).
  apply Qclt_minus_iff.
  replace (Qc_of_Z a / Qc_of_Z s + - Q2Qc (1 # 2))
    with (Qc_of_Z (2 * a - s) * / (2 * Qc_of_Z s)).
  - apply Qcmult_pos_pos; [apply Qc_of_Z_positive; lia|].
    apply Qcinv_pos. by apply Qcmult_pos_pos.
  - rewrite half_is, Z2Qc_inj_sub, Z2Qc_inj_mul, <- two_is. by field.
Qed.




(** X7.  For every valid dice and every [k], what the calculator returns for
    [X <= k] is the sum of what it returns for [X < k] and for [X = k], and
    no result at or below the modifier has a probability. *)
Theorem cumulative_adds_equal c s m k l cs :
  in_bounds c s → cache_ok cs →
  let this := new (dice_of c s m) l in
  ∃ p below upto,
    (probabilityForResultEqualTo this (Int k) cs).1 = Ret (Val p)
    ∧ (probabilityForResultLessThan this (Int k) cs).1 = Ret (Val below)
    ∧ (probabilityForResultLessOrEqualTo this (Int k) cs).1 = Ret (Val upto)
    ∧ upto = below + p
    ∧ ((k ≤ m)%Z → p = 0).
Proof.
  intros Hb Hcs this. subst this.
  destruct (equal_computes c s m k l Hb cs Hcs) as (? & -> & _).
  destruct (lessOrEqual_computes c s m k l Hb cs Hcs) as (? & -> & _).
  destruct (lessThan_computes c s m k l Hb cs Hcs) as (? & -> & _).
  eexists _, _, _. split; [done|]. split; [done|]. split; [done|].
  assert ((k ≤ m)%Z → Law.equal c s m k = 0) as Hbelow
    by (intros Hk; by apply equal_n_below).
  split; [|done].
  destruct (Z.le_gt_cases k m) as [Hk|Hk].
  - rewrite Hbelow, !lessOrEqual_base by lia. ring.
  - by apply lessOrEqual_step.
Qed.

Lemma cumulative_adds_equal_witness :
  let this := new (dice_of 2 6 (-4)) [] in
  ∃ p below upto,
    (probabilityForResultEqualTo this (Int 5) no_caches).1 = Ret (Val p)
    ∧ (probabilityForResultLessThan this (Int 5) no_caches).1
      = Ret (Val below)
    ∧ (probabilityForResultLessOrEqualTo this (Int 5) no_caches).1
      = Ret (Val upto)
    ∧ upto = below + p
    ∧ ((5 ≤ -4)%Z → p = 0).
Proof.
  apply cumulative_adds_equal; [unfold in_bounds; lia | apply no_caches_ok].
Defined.

(** X8.  For a valid dice of one die, or with a modifier that is not negative,
    the modifier only shifts the distribution: the calculator returns for [k]
    what the calculator of the dice without modifier returns for
    [k - modifier]. *)
Theorem modifier_shifts_distribution c s m k l l' cs cs' :
  in_bounds c s → (0 ≤ m)%Z ∨ c = 1%Z → cache_ok cs → cache_ok cs' →
  (probabilityForResultEqualTo (new (dice_of c s m) l) (Int k) cs).1
  = (probabilityForResultEqualTo (new (dice_of c s 0) l') (Int (k - m)) cs').1
  ∧ (probabilityForResultLessOrEqualTo (new (dice_of c s m) l) (Int k) cs).1
    = (probabilityForResultLessOrEqualTo (new (dice_of c s 0) l')
         (Int (k - m)) cs').1.
Proof.
  intros Hb Hm Hcs Hcs'.
  destruct (equal_computes c s m k l Hb cs Hcs) as (? & -> & _).
  destruct (equal_computes c s 0 (k - m) l' Hb cs' Hcs') as (? & -> & _).
  destruct (lessOrEqual_computes c s m k l Hb cs Hcs) as (? & -> & _).
  destruct (lessOrEqual_computes c s 0 (k - m) l' Hb cs' Hcs')
    as (? & -> & _).
  cbn [fst]. by rewrite equal_shift, lessOrEqual_shift.
Qed.

Lemma modifier_shifts_distribution_witness :
  (probabilityForResultEqualTo (new (dice_of 2 6 3) []) (Int 9) no_caches).1
  = (probabilityForResultEqualTo (new (dice_of 2 6 0) []) (Int (9 - 3))
       no_caches).1
  ∧ (probabilityForResultLessOrEqualTo (new (dice_of 2 6 3) []) (Int 9)
       no_caches).1
    = (probabilityForResultLessOrEqualTo (new (dice_of 2 6 0) [])
         (Int (9 - 3)) no_caches).1.
Proof.
  apply modifier_shifts_distribution;
    [unfold in_bounds; lia | left; lia | apply no_caches_ok..].
Defined.

(** X9.  The cumulative distribution of a valid dice of one die in closed form:
    [n] above the modifier, all but the share [(s - n mod s) / s^(n/s + 1)] of
    the rolls, those that explode [n / s] times and go on above. *)
Theorem single_die_cumulative s m n l cs :
  in_bounds 1 s → (0 ≤ n)%Z → cache_ok cs →
  (probabilityForResultLessOrEqualTo (new (dice_of 1 s m) l) (Int (m + n))
     cs).1
  = Ret (Val (1 - Qc_of_Z (s - n mod s) / Qc_of_Z s ^ Z.to_nat (n / s + 1))).
Proof.
  intros Hb Hn Hcs.
  destruct (lessOrEqual_computes 1 s m (m + n) l Hb cs Hcs) as (? & -> & _).
  cbn [fst]. do 2 f_equal. rewrite <- (Z2Nat.id n) at 1 by lia.
  rewrite lessOrEqual_single, single_mass by (destruct Hb; lia).
  by rewrite Z2Nat.id by lia.
Qed.

Lemma single_die_cumulative_witness :
  (probabilityForResultLessOrEqualTo (new (dice_of 1 6 2) []) (Int (2 + 12))
     no_caches).1
  = Ret (Val (1 - Qc_of_Z (6 - 12 mod 6) / Qc_of_Z 6 ^ Z.to_nat (12 / 6 + 1))).
Proof.
  apply single_die_cumulative;
    [unfold in_bounds; lia | lia | apply no_caches_ok].
Defined.



Lemma half_above (x : Qc) : Q2Qc (1 # 2) < x → 1 - x < Q2Qc (1 # 2).
Proof.
  intros Hx. apply Qclt_minus_iff.
  replace (Q2Qc (1 # 2) + - (1 - x)) with (x + - Q2Qc (1 # 2))
    by (rewrite half_is; by field).
  by apply Qclt_minus_iff in Hx.
Qed.

(** Several dice with a modifier below minus half the sides: the
    cumulative distribution stays below one half. *)
Lemma lessOrEqual_below_half c s m k :
  (2 ≤ c)%Z → (3 ≤ s)%Z → (s < 2 * - m)%Z →
  Law.lessOrEqual c s m k < Q2Qc (1 # 2).
Proof.
  intros Hc Hs Hm.
  eapply Qcle_lt_trans; [apply lost_mass; lia|]. apply half_above.
  set (n := Z.min (- m) (s - 1)).
  eapply Qclt_le_trans;
    [|apply (above_mono _ 0 (Z.to_nat n));
      [intros i; apply single_nonneg|]; lia].
  rewrite <- (lessOrEqual_single s 0), Z2Nat.id by lia.
  rewrite single_first_block by lia. apply frac_gt_half; lia.
Qed.

(** X11.  Which dice hang: for every valid dice of several dice with at least 3
    sides and a modifier below minus half the sides, the calculator returns
    less than one half for every [X <= k], and neither [calculateMedian()] nor
    [calculate()] returns, whatever the fuel. *)
Theorem median_diverges_for_low_modifier fuel c s m l cs :
  in_bounds c s → Forall valid l →
  (2 ≤ c)%Z → (3 ≤ s)%Z → (s < 2 * - m)%Z → cache_ok cs →
  let this := new (dice_of c s m) l in
  (∀ k, ∃ p, (probabilityForResultLessOrEqualTo this (Int k) cs).1
             = Ret (Val p) ∧ p < Q2Qc (1 # 2))
  ∧ (calculateMedian fuel this cs).1 = OutOfFuel
  ∧ (calculate fuel this cs).1 = OutOfFuel.
Proof.
  intros Hb Hl Hc Hs Hm Hcs this. subst this.
  assert (Value.median fuel c s m = OutOfFuel) as Hmedian.
  { apply median_from_diverges. intros k. by apply lessOrEqual_below_half. }
  split; [|split].
  - intros k.
    destruct (lessOrEqual_computes c s m k l Hb cs Hcs) as (? & -> & _).
    eexists. split; [done|]. by apply lessOrEqual_below_half.
  - destruct (median_computes fuel c s m l Hb cs Hcs) as (? & -> & _).
    done.
  - destruct (calculate_computes fuel c s m l Hb Hl)
      as (e & v & wins & _ & _ & Hcalc).
    destruct (Hcalc cs Hcs) as (? & -> & _). by rewrite Hmedian.
Qed.

Lemma median_diverges_for_low_modifier_witness :
  let this := new (dice_of 3 8 (-5)) [] in
  (∀ k, ∃ p, (probabilityForResultLessOrEqualTo this (Int k) no_caches).1
             = Ret (Val p) ∧ p < Q2Qc (1 # 2))
  ∧ (calculateMedian 500 this no_caches).1 = OutOfFuel
  ∧ (calculate 500 this no_caches).1 = OutOfFuel.
Proof.
  apply median_diverges_for_low_modifier;
    [unfold in_bounds; lia | done | lia | lia | lia | apply no_caches_ok].
Defined.

(** The least result of several dice without modifier: nothing at or below
    the number of dice less one, and the power of [1 / s] at the number of
    dice. *)
Lemma equal_n_least n s :
  (2 ≤ s)%Z →
  (∀ k, (k ≤ Z.of_nat n)%Z → Law.equal_n n s 0 k = 0)
  ∧ Law.equal_n n s 0 (Z.of_nat n + 1) = 1 / Qc_of_Z s ^ S n.
Proof.
  intros Hs.
  assert (Qc_of_Z s ≠ 0) as Hne by (apply Qc_of_Z_nonzero; lia).
  induction n as [|n [IHzero IHleast]].
  - split; [intros k Hk; apply single_below; lia|].
    cbn [Law.equal_n Qcpower]. rewrite Qcmult_1_r.
    apply (single_next s 0). lia.
  - split.
    + intros k Hk. cbn [Law.equal_n]. case_condition; [done|].
      rewrite convolve_above. apply above_zero. intros t Ht.
      rewrite IHzero by lia. ring.
    + cbn [Law.equal_n].
      destruct (Z.ltb_spec (Z.of_nat (S n) + 1 - 0) 0); [lia|].
      rewrite convolve_above.
      replace (Z.to_nat (Z.of_nat (S n) + 1 - 1)) with (1 + n)%nat by lia.
      rewrite above_shift, (above_zero _ (0 + Z.of_nat 1) n).
      2:{ intros t Ht. rewrite IHzero by lia. ring. }
      cbn [Law.above]. rewrite Qcplus_0_l, Qcplus_0_r.
      replace (Z.of_nat (S n) + 1 - (0 + Z.of_nat 1))%Z
        with (Z.of_nat n + 1)%Z by lia.
      rewrite IHleast. change (0 + Z.of_nat 1)%Z with (0 + 1)%Z.
      rewrite (single_next s 0) by lia.
      assert (Qc_of_Z s ^ n ≠ 0) by by apply Qcpower_nonzero.
      cbn [Qcpower]. by field.
Qed.

(** X12.  The least result of a valid dice of one die, or with a modifier that
    is not negative, is count + modifier, every die showing 1: the calculator
    returns 0 for every result below it and [1 / sides^count] for it. *)
Theorem least_result c s m k l cs :
  in_bounds c s → (0 ≤ m)%Z ∨ c = 1%Z → cache_ok cs →
  let this := new (dice_of c s m) l in
  ((k < c + m)%Z →
   (probabilityForResultEqualTo this (Int k) cs).1 = Ret (Val 0))
  ∧ (probabilityForResultEqualTo this (Int (c + m)) cs).1
    = Ret (Val (1 / Qc_of_Z s ^ Z.to_nat c)).
Proof.
  intros Hb Hm Hcs this. subst this.
  destruct (equal_computes c s m k l Hb cs Hcs) as (? & -> & _).
  destruct (equal_computes c s m (c + m) l Hb cs Hcs) as (? & -> & _).
  cbn [fst].
  rewrite (equal_shift c s m k), (equal_shift c s m (c + m)) by done.
  unfold Law.equal.
  destruct Hb as [Hc Hs].
  destruct (equal_n_least (Z.to_nat (c - 1)) s ltac:(lia)) as [Hzero Hleast].
  split.
  - intros Hk. by rewrite Hzero by lia.
  - replace (c + m - m)%Z with (Z.of_nat (Z.to_nat (c - 1)) + 1)%Z by lia.
    rewrite Hleast. by replace (S (Z.to_nat (c - 1))) with (Z.to_nat c) by lia.
Qed.

Lemma least_result_witness :
  let this := new (dice_of 3 6 2) [] in
  ((4 < 3 + 2)%Z →
   (probabilityForResultEqualTo this (Int 4) no_caches).1 = Ret (Val 0))
  ∧ (probabilityForResultEqualTo this (Int (3 + 2)) no_caches).1
    = Ret (Val (1 / Qc_of_Z 6 ^ Z.to_nat 3)).
Proof.
  apply least_result;
    [unfold in_bounds; lia | left; lia | apply no_caches_ok].
Defined.

End Engine.

Section Sums.

Import DiceCalculator.

Local Open Scope Qc_scope.

Lemma sum_value_total (f : Z → Qc) (thr : Qc) (mn mx st : Z) :
  ∃ n, (st < n ≤ Z.max (st + 1) (Z.max mn mx))%Z
       ∧ sum_value (λ z, Val (f z))
           (Sum.mkConfig (Val thr) (Int mn) (Int mx) (Int st))
         = Ret (Val (total f st n)).
Proof.
  destruct (sum_of_pure_terms f thr mn mx st)
    as (n & Hn & Hstop & Hfirst & Hrun).
  exists n. split; [split; [done|by eapply stop_index_bound]|].
  unfold sum_value. by rewrite Hrun.
Qed.

(** X13.  [simulateSumToInfinity] compares its limits with the index, not with
    the number of rounds: the last index it adds is above [startIndex] and at
    most the larger of [startIndex + 1], [minIterations] and [maxIterations];
    with a start at or above both limits less one, the result is
    [f(startIndex) + f(startIndex + 1)] whatever the threshold. *)
Theorem sum_stops_within_limits (f : Z → Qc) (thr : Qc) (mn mx st : Z) :
  ∃ n, (st < n ≤ Z.max (st + 1) (Z.max mn mx))%Z
       ∧ (∀ c, Sum.simulateSumToInfinity (pure_terms (λ z, Val (f z)))
                 (Sum.mkConfig (Val thr) (Int mn) (Int mx) (Int st)) c
               = (Ret (Val (total f st n)), c))
       ∧ ((Z.max mn mx ≤ st + 1)%Z → total f st n = f st + f (st + 1)%Z).
Proof.
  destruct (sum_of_pure_terms f thr mn mx st)
    as (n & Hn & Hstop & Hfirst & Hrun).
  pose proof (stop_index_bound f thr mn mx st n Hn Hfirst) as Hbound.
  exists n. split; [done|]. split; [done|]. intros Hlimits.
  replace n with (st + 1)%Z by lia. apply total_two.
Qed.

Lemma sum_stops_within_limits_witness :
  ∃ n, (5000 < n ≤ Z.max (5000 + 1) (Z.max 20 5000))%Z
       ∧ (∀ c, Sum.simulateSumToInfinity (pure_terms (λ z, Val (Qc_of_Z z)))
                 (Sum.mkConfig (Val 0) (Int 20) (Int 5000) (Int 5000)) c
               = (Ret (Val (total Qc_of_Z 5000 n)), c))
       ∧ total Qc_of_Z 5000 n = Qc_of_Z 5000 + Qc_of_Z (5000 + 1).
Proof.
  destruct (sum_stops_within_limits Qc_of_Z 0 20 5000 5000)
    as (n & Hn & Hrun & Htwo).
  exists n. split; [done|]. split; [done|]. apply Htwo. lia.
Defined.



(** X15.  For every valid dice and every rational argument,
    [calculateVariance(exp)] returns a rational that is not negative. *)
Theorem variance_never_negative c s m e l cs :
  in_bounds c s → cache_ok cs →
  ∃ v, (calculateVariance (new (dice_of c s m) l) (Val e) cs).1 = Ret (Val v)
       ∧ 0 ≤ v.
Proof.
  intros Hb Hcs.
  destruct (variance_computes c s m (Val e) l Hb cs Hcs) as (? & -> & _).
  cbn [fst].
  destruct (sum_value_total (λ i, (e - Qc_of_Z i) ^ 2 * Law.single s m i)
              (Q2Qc (1 # 10000)) 20 5000 m) as (n & Hn & E).
  eexists. split; [exact E|].
  apply total_nonneg. intros i. apply Qcmult_nonneg_nonneg.
  - apply square_nonneg.
  - apply single_nonneg. destruct Hb; lia.
Qed.

Lemma variance_never_negative_witness :
  ∃ v, (calculateVariance (new (dice_of 2 6 1) []) (Val (Qc_of_Z 9))
          no_caches).1 = Ret (Val v)
       ∧ 0 ≤ v.
Proof.
  apply variance_never_negative; [unfold in_bounds; lia | apply no_caches_ok].
Defined.





End Sums.

Section Memo.

Import DiceCalculator.

(** A call that finds its index in the table returns the entry and leaves
    the caches as they are. *)
Lemma equal_hit fuel this k v cs :
  Table.get (EqualTable this.(dice).(Dice.name)) k cs = (Ret (Some v), cs) →
  probabilityForResultEqualTo_fuel (S fuel) this k cs = (Ret v, cs).
Proof.
  intros Hget. cbn [probabilityForResultEqualTo_fuel].
  unfold getProbabilityEqualCache, mbind, M_bind, Table.obtain.
  unfold Table.get in Hget. injection Hget as Hget.
  cbn [Table.contents] in Hget |- *.
  destruct (probabilityEqualCache cs !! _) as [o|] eqn:Ho; cbn in Hget;
    [|done].
  unfold Table.get. cbn [Table.contents]. rewrite Ho. cbn. by rewrite Hget.
Qed.

Lemma lessOrEqual_hit fuel this k v cs :
  Table.get (LessOrEqualTable this.(dice).(Dice.name)) k cs
  = (Ret (Some v), cs) →
  probabilityForResultLessOrEqualTo_fuel (S fuel) this k cs = (Ret v, cs).
Proof.
  intros Hget. cbn [probabilityForResultLessOrEqualTo_fuel].
  unfold getProbabilityLessOrEqualCache, mbind, M_bind, Table.obtain.
  unfold Table.get in Hget. injection Hget as Hget.
  cbn [Table.contents] in Hget |- *.
  destruct (probabilityLessOrEqualCache cs !! _) as [o|] eqn:Ho; cbn in Hget;
    [|done].
  unfold Table.get. cbn [Table.contents]. rewrite Ho. cbn. by rewrite Hget.
Qed.

Lemma get_after_set t k v cs :
  Table.get t k (Table.set t k v cs).2
  = (Ret (Some v), (Table.set t k v cs).2).
Proof.
  unfold Table.get, Table.set. cbn [snd]. f_equal.
  destruct t as [nm|nm]; cbn [Table.contents Table.update
    probabilityLessOrEqualCache probabilityEqualCache];
    rewrite lookup_insert_eq; cbn; by rewrite lookup_insert_eq.
Qed.

(** A call of [probabilityForResultEqualTo] leaves its value in the
    table. *)
Lemma equal_stores c s m k l cs :
  in_bounds c s → cache_ok cs →
  ∃ cs',
    probabilityForResultEqualTo (new (dice_of c s m) l) (Int k) cs
    = (Ret (Val (Law.equal c s m k)), cs')
    ∧ cache_ok cs'
    ∧ Table.get (EqualTable (Dice.name (dice_of c s m))) (Int k) cs'
      = (Ret (Some (Val (Law.equal c s m k))), cs').
Proof.
  intros Hb Hcs.
  assert (nesting (new (dice_of c s m) l) = S (Z.to_nat (c - 1))) as Hn
    by (unfold nesting; cbn; destruct Hb; lia).
  unfold probabilityForResultEqualTo. rewrite Hn.
  cbn [probabilityForResultEqualTo_fuel].
  unfold getProbabilityEqualCache. cbn [dice].
  destruct (obtain_computes (EqualTable (Dice.name (dice_of c s m))) cs Hcs)
    as (c1 & E1 & Hc1).
  unfold mbind at 1, M_bind at 1. rewrite E1.
  destruct (get_equal c1 c s m k Hc1 Hb) as (o & Eget & Ho).
  unfold mbind at 1, M_bind at 1. rewrite Eget.
  destruct Ho as [->| ->]; [|by exists c1].
  assert (computes
            (calculateProbabilityForResultEqualTo_with
               (probabilityForResultEqualTo_fuel (Z.to_nat (c - 1)))
               (new (dice_of c s m) l) (Int k))
            (Ret (Val (Law.equal c s m k)))) as Hcalc.
  { destruct (decide (c = 1)) as [->|Hne].
    - by apply single_computes.
    - destruct Hb as [Hc Hs].
      apply several_computes; [done|lia|..];
        intros i; [rewrite <- equal_single|];
        apply equal_fuel_computes; try split; lia. }
  destruct (Hcalc c1 Hc1) as (c2 & E2 & Hc2).
  unfold mbind at 1, M_bind at 1. rewrite E2.
  destruct (set_equal c s m k Hb c2 Hc2) as (c3 & E3 & Hc3).
  unfold mbind at 1, M_bind at 1. rewrite E3.
  exists c3. split; [done|]. split; [done|].
  replace c3 with (Table.set (EqualTable (Dice.name (dice_of c s m))) (Int k)
                     (Val (Law.equal c s m k)) c2).2 by by rewrite E3.
  apply get_after_set.
Qed.

Lemma lessOrEqual_stores c s m k l cs :
  in_bounds c s → cache_ok cs →
  ∃ cs',
    probabilityForResultLessOrEqualTo (new (dice_of c s m) l) (Int k) cs
    = (Ret (Val (Law.lessOrEqual c s m k)), cs')
    ∧ cache_ok cs'
    ∧ Table.get (LessOrEqualTable (Dice.name (dice_of c s m))) (Int k) cs'
      = (Ret (Some (Val (Law.lessOrEqual c s m k))), cs').
Proof.
  intros Hb Hcs.
  assert (descent (new (dice_of c s m) l) (Int k)
          = S (Z.to_nat (k - (0 + m)))) as Hn by done.
  unfold probabilityForResultLessOrEqualTo. rewrite Hn.
  cbn [probabilityForResultLessOrEqualTo_fuel].
  unfold getProbabilityLessOrEqualCache. cbn [dice].
  destruct (obtain_computes (LessOrEqualTable (Dice.name (dice_of c s m)))
              cs Hcs) as (c1 & E1 & Hc1).
  unfold mbind at 1, M_bind at 1. rewrite E1.
  destruct (get_lessOrEqual c1 c s m k Hc1 Hb) as (o & Eget & Ho).
  unfold mbind at 1, M_bind at 1. rewrite Eget.
  destruct Ho as [->| ->]; [|by exists c1].
  assert (computes
            (if Number.gt (Int k)
                  (Number.add (Int 0) (Dice.modifier (dice_of c s m)))
             then
               below ← probabilityForResultLessOrEqualTo_fuel
                         (Z.to_nat (k - (0 + m))) (new (dice_of c s m) l)
                         (Number.sub (Int k) (Int 1));
               equal ← probabilityForResultEqualTo (new (dice_of c s m) l)
                         (Int k);
               mret (Real.add below equal)
             else mret (Val 0%Qc))
            (Ret (Val (Law.lessOrEqual c s m k)))) as Hcalc.
  { cbn [dice dice_of Dice.modifier Number.add Number.lift2 Number.gt
         Number.cmp Number.sub].
    destruct (Z.gtb_spec k (0 + m)) as [Hk|Hk].
    - rewrite lessOrEqual_step by lia.
      eapply computes_bind; [apply lessOrEqual_fuel_computes; [done|lia]|].
      eapply computes_bind; [by apply equal_computes|].
      apply computes_ret.
    - rewrite lessOrEqual_base by lia. apply computes_ret. }
  destruct (Hcalc c1 Hc1) as (c2 & E2 & Hc2).
  unfold mbind at 1, M_bind at 1. cbn [dice]. rewrite E2.
  destruct (set_lessOrEqual c s m k Hb c2 Hc2) as (c3 & E3 & Hc3).
  unfold mbind at 1, M_bind at 1. rewrite E3.
  exists c3. split; [done|]. split; [done|].
  replace c3 with (Table.set (LessOrEqualTable (Dice.name (dice_of c s m)))
                     (Int k) (Val (Law.lessOrEqual c s m k)) c2).2
    by by rewrite E3.
  apply get_after_set.
Qed.

(** X18.  The caches are shared by name. After a call of
    [probabilityForResultEqualTo(k)] or [probabilityForResultLessOrEqualTo(k)]
    on a valid dice, the value is in the table of the name of the dice, and the
    same call by any calculator of a dice of that name, whatever its other
    fields, returns that value and leaves the caches as they are. *)
Theorem later_calls_read_the_cache c s m k l cs :
  in_bounds c s → cache_ok cs →
  let this := new (dice_of c s m) l in
  (∃ p cs',
     probabilityForResultEqualTo this (Int k) cs = (Ret p, cs')
     ∧ cache_ok cs'
     ∧ ∀ other, other.(dice).(Dice.name) = this.(dice).(Dice.name) →
         probabilityForResultEqualTo other (Int k) cs' = (Ret p, cs'))
  ∧ (∃ p cs',
       probabilityForResultLessOrEqualTo this (Int k) cs = (Ret p, cs')
       ∧ cache_ok cs'
       ∧ ∀ other, other.(dice).(Dice.name) = this.(dice).(Dice.name) →
           probabilityForResultLessOrEqualTo other (Int k) cs' = (Ret p, cs')).
Proof.
  intros Hb Hcs this. subst this. split.
  - destruct (equal_stores c s m k l cs Hb Hcs) as (cs' & E & Hcs' & Hget).
    eexists _, cs'. split; [done|]. split; [done|].
    intros other Hname. unfold probabilityForResultEqualTo.
    assert (∃ n, nesting other = S n) as [n ->].
    { unfold nesting. destruct (Dice.count (dice other)) as [|z];
        [by exists O|]. exists (pred (Z.to_nat (Z.max 1 z))). lia. }
    apply equal_hit. by rewrite Hname.
  - destruct (lessOrEqual_stores c s m k l cs Hb Hcs)
      as (cs' & E & Hcs' & Hget).
    eexists _, cs'. split; [done|]. split; [done|].
    intros other Hname. unfold probabilityForResultLessOrEqualTo.
    assert (∃ n, descent other (Int k) = S n) as [n ->].
    { unfold descent. destruct (Number.sub _ _); by eexists. }
    apply lessOrEqual_hit. by rewrite Hname.
Qed.

Lemma later_calls_read_the_cache_witness :
  let this := new (dice_of 2 6 1) [] in
  (∃ p cs',
     probabilityForResultEqualTo this (Int 8) no_caches = (Ret p, cs')
     ∧ cache_ok cs'
     ∧ ∀ other, other.(dice).(Dice.name) = this.(dice).(Dice.name) →
         probabilityForResultEqualTo other (Int 8) cs' = (Ret p, cs'))
  ∧ (∃ p cs',
       probabilityForResultLessOrEqualTo this (Int 8) no_caches = (Ret p, cs')
       ∧ cache_ok cs'
       ∧ ∀ other, other.(dice).(Dice.name) = this.(dice).(Dice.name) →
           probabilityForResultLessOrEqualTo other (Int 8) cs'
           = (Ret p, cs')).
Proof.
  apply later_calls_read_the_cache;
    [unfold in_bounds; lia | apply no_caches_ok].
Defined.

End Memo.

Section Request.

Import DiceCalculator.

Lemma bind_Ret_inv {A B} (m : M A) (f : A → M B) cs b cs' :
  (m ≫= f) cs = (Ret b, cs') →
  ∃ a c1, m cs = (Ret a, c1) ∧ f a c1 = (Ret b, cs').
Proof.
  unfold mbind, M_bind. destruct (m cs) as [[a|msg|] c1]; [eauto|done|done].
Qed.

Lemma mapM_Ret_inv {A B} (f : A → M B) l : ∀ cs bs cs',
  mapM f l cs = (Ret bs, cs') →
  Forall2 (λ a b, ∃ c1 c2, f a c1 = (Ret b, c2)) l bs.
Proof.
  induction l as [|a l IH]; intros cs bs cs' H; cbn [mapM] in H.
  - injection H as <- _. constructor.
  - apply bind_Ret_inv in H as (b & c1 & Hb & H).
    apply bind_Ret_inv in H as (bs' & c2 & Hbs & H).
    injection H as <- _. constructor; [eauto|]. by eapply IH.
Qed.

(** [calculate()] returns for the dice that the median handles. *)
Lemma calculate_returns fuel c s m l cs :
  in_bounds c s → Forall valid l → (0 ≤ m)%Z ∨ c = 1%Z →
  (Z.to_nat (6 * c * s) ≤ fuel)%nat → cache_ok cs →
  ∃ r cs', calculate fuel (new (dice_of c s m) l) cs = (Ret r, cs')
           ∧ cache_ok cs'.
Proof.
  intros Hb Hl Hm Hfuel Hcs.
  destruct (calculate_computes fuel c s m l Hb Hl)
    as (e & v & wins & _ & _ & Hcalc).
  destruct (median_returns_for c s m fuel Hb Hm Hfuel) as (md & Hmd).
  rewrite Hmd in Hcalc. destruct (Hcalc cs Hcs) as (cs' & E & Hcs').
  by eexists _, cs'.
Qed.

(** What [calculate()] returns, from the calls that fill the fields. *)
Lemma calculate_Ret fuel this cs r cs' :
  calculate fuel this cs = (Ret r, cs') →
  ∃ e v md pf ps wins c1 c2 c3,
    r = DiceResult.mk this.(dice) e md v (Math_sqrt v) pf ps wins
    ∧ calculateProbabilityMap this 25 c1 = (Ret ps, c2)
    ∧ calculateWinProbabilityMap this c2 = (Ret wins, c3).
Proof.
  unfold calculate. intros H.
  apply bind_Ret_inv in H as (e & c1 & _ & H).
  apply bind_Ret_inv in H as (v & c2 & _ & H).
  apply bind_Ret_inv in H as (md & c3 & _ & H).
  apply bind_Ret_inv in H as (pf & c4 & _ & H).
  apply bind_Ret_inv in H as (ps & c5 & Hps & H).
  apply bind_Ret_inv in H as (wins & c6 & Hwins & H).
  injection H as <- _. by eexists e, v, md, pf, ps, wins, c4, c5, c6.
Qed.

Lemma probabilityMap_length this len cs ps cs' :
  calculateProbabilityMap this len cs = (Ret ps, cs') →
  length ps = Z.to_nat len.
Proof.
  intros H. apply mapM_Ret_inv, Forall2_length in H. rewrite <- H.
  cbn [indices]. rewrite length_fmap, length_seqZ. lia.
Qed.

Lemma winMap_names this cs wins cs' :
  calculateWinProbabilityMap this cs = (Ret wins, cs') →
  DiceResult.diceName <$> wins = Dice.name <$> this.(concurringDices).
Proof.
  intros H. apply mapM_Ret_inv in H.
  induction H as [|d w ds ws (c1 & c2 & Hw) _ IH]; [done|].
  apply bind_Ret_inv in Hw as (p & c3 & _ & Hw). injection Hw as <- _.
  cbn. by rewrite IH.
Qed.

(** X19.  Whatever the dice, a result that [calculate()] returns is that of the
    dice of the calculator, with the standard deviation the root of the
    variance, 25 values in [pGreaterThan] (the indices 0 to 24), and one win
    probability for each of the concurring dice, in their order and under their
    names. *)
Theorem calculate_result_shape fuel this cs r cs' :
  calculate fuel this cs = (Ret r, cs') →
  r.(DiceResult.dice) = this.(dice)
  ∧ r.(DiceResult.standardDeviation) = Math_sqrt r.(DiceResult.variance)
  ∧ length r.(DiceResult.pGreaterThan) = 25%nat
  ∧ DiceResult.diceName <$> r.(DiceResult.pToWinAgainstOthers)
    = Dice.name <$> this.(concurringDices).
Proof.
  intros H.
  apply calculate_Ret in H
    as (e & v & md & pf & ps & wins & c1 & c2 & c3 & -> & Hps & Hwins).
  cbn. split; [done|]. split; [done|]. split.
  - by apply probabilityMap_length in Hps.
  - by apply winMap_names in Hwins.
Qed.

Lemma calculate_result_shape_witness :
  ∃ r cs',
    calculate 24 (new (dice_of 1 4 0) [dice_of 1 4 0; dice_of 1 6 2]) no_caches
    = (Ret r, cs')
    ∧ r.(DiceResult.dice) = dice_of 1 4 0
    ∧ r.(DiceResult.standardDeviation) = Math_sqrt r.(DiceResult.variance)
    ∧ length r.(DiceResult.pGreaterThan) = 25%nat
    ∧ DiceResult.diceName <$> r.(DiceResult.pToWinAgainstOthers)
      = Dice.name <$> [dice_of 1 4 0; dice_of 1 6 2].
Proof.
  destruct (calculate_returns 24 1 4 0 [dice_of 1 4 0; dice_of 1 6 2]
              no_caches) as (r & cs' & E & _).
  - unfold in_bounds. lia.
  - apply Forall_cons. split; [exists 1, 4, 0; by unfold in_bounds|].
    apply Forall_cons. split; [exists 1, 6, 2; by unfold in_bounds|done].
  - by right.
  - simpl. lia.
  - apply no_caches_ok.
  - exists r, cs'. split; [exact E|].
    apply (calculate_result_shape 24
             (new (dice_of 1 4 0) [dice_of 1 4 0; dice_of 1 6 2]) no_caches
             r cs' E).
Defined.

(** X20.  Memoisation does not show: on a valid dice against valid dice,
    [calculate()] has one outcome from all caches that are in order, the empty
    ones included, and it leaves caches that are in order. *)
Theorem results_do_not_depend_on_caches fuel c s m l :
  in_bounds c s → Forall valid l →
  ∃ o, ∀ cs, cache_ok cs →
         ∃ cs', calculate fuel (new (dice_of c s m) l) cs = (o, cs')
                ∧ cache_ok cs'.
Proof.
  intros Hb Hl.
  destruct (calculate_computes fuel c s m l Hb Hl)
    as (e & v & wins & _ & _ & Hcalc).
  eexists. exact Hcalc.
Qed.

Lemma results_do_not_depend_on_caches_witness :
  ∃ o, ∀ cs, cache_ok cs →
         ∃ cs', calculate 24 (new (dice_of 2 6 1) [dice_of 1 4 0]) cs
                = (o, cs')
                ∧ cache_ok cs'.
Proof.
  apply results_do_not_depend_on_caches; [unfold in_bounds; lia|].
  apply Forall_cons. split; [|done]. by exists 1%Z, 4%Z, 0%Z.
Defined.

Lemma map_outcome_length {A B} (f : A → outcome B) l bs :
  Index.map_outcome f l = Ret bs → length bs = length l.
Proof.
  revert bs. induction l as [|a l IH]; intros bs H; cbn in H.
  - by injection H as <-.
  - destruct (f a) as [b| |]; [|done..]. cbn in H.
    destruct (Index.map_outcome f l) as [bs'| |]; [|done..].
    injection H as <-. cbn. f_equal. by apply IH.
Qed.

Lemma map_outcome_each {A B} (f : A → outcome B) l bs :
  Index.map_outcome f l = Ret bs → Forall2 (λ a b, f a = Ret b) l bs.
Proof.
  revert bs. induction l as [|a l IH]; intros bs H; cbn in H.
  - injection H as <-. constructor.
  - destruct (f a) as [b| |] eqn:E; [|done..]. cbn in H.
    destruct (Index.map_outcome f l) as [bs'| |]; [|done..].
    injection H as <-. constructor; [done|]. by apply IH.
Qed.

Lemma map_outcome_first_throw {A B} (f : A → outcome B) pre bad post msg :
  Forall (λ a, ∃ b, f a = Ret b) pre → f bad = Throw msg →
  Index.map_outcome f (pre ++ bad :: post) = Throw msg.
Proof.
  intros Hpre Hbad. induction Hpre as [|a pre (b & Hb) _ IH]; cbn.
  - by rewrite Hbad.
  - by rewrite Hb, IH.
Qed.

Lemma settles_valid d : settles d → valid d.
Proof. intros (c & s & m & Hb & -> & _). by exists c, s, m. Qed.

Lemma settles_intro c s m :
  in_bounds c s → (0 ≤ m)%Z ∨ c = 1%Z → settles (dice_of c s m).
Proof. intros Hb Hm. by exists c, s, m. Qed.

(** The calculations of a request that parses. *)
Lemma request_runs fuel request dices o :
  Index.map_outcome Dice.parse (Index.split_vs request) = Ret dices →
  (length dices ≤ 10)%nat →
  computes (mapM (λ dice, calculate fuel (new dice dices)) dices) o →
  computes (Index.calculateRequest fuel request) o.
Proof.
  intros Hparse Hlen Hcalc. unfold Index.calculateRequest, require.
  rewrite <- (map_outcome_length _ _ _ Hparse).
  destruct (Nat.leb_spec (length dices) 10); [|lia]. rewrite Hparse.
  eapply computes_bind; [apply computes_lift|].
  eapply computes_bind; [apply computes_lift|]. done.
Qed.

Lemma mapM_settles fuel dices :
  Forall settles dices → (Z.to_nat 9600 ≤ fuel)%nat →
  ∃ results,
    computes (mapM (λ dice, calculate fuel (new dice dices)) dices)
      (Ret results).
Proof.
  intros Hdices Hfuel. apply mapM_returns. intros d Hd.
  rewrite Forall_forall in Hdices.
  destruct (Hdices d Hd) as (c & s & m & Hb & -> & Hm).
  destruct (calculate_computes fuel c s m dices Hb)
    as (e & v & wins & _ & _ & Hcalc).
  { apply Forall_forall. intros d' Hd'. by apply settles_valid, Hdices. }
  destruct (median_returns_for c s m fuel Hb Hm) as (md & Hmd).
  { destruct Hb. assert (6 * c * s ≤ 9600)%Z by nia. lia. }
  rewrite Hmd in Hcalc. by eexists.
Qed.

Lemma mapM_hangs {A B} (f : A → M B) l a :
  a ∈ l →
  (∀ x, x ∈ l → ∃ o, computes (f x) o ∧ ∀ msg, o ≠ Throw msg) →
  computes (f a) OutOfFuel →
  computes (mapM f l) OutOfFuel.
Proof.
  intros Ha Hl Hhang. induction l as [|x l IH]; [by apply elem_of_nil in Ha|].
  cbn [mapM]. destruct (Hl x) as ([b|msg|] & Hx & Hno); [by left| | |].
  - eapply computes_bind; [exact Hx|]. apply computes_bind_fuel.
    apply elem_of_cons in Ha as [->|Ha].
    + destruct (Hx no_caches no_caches_ok) as (? & E1 & _).
      destruct (Hhang no_caches no_caches_ok) as (? & E2 & _). congruence.
    + apply IH; [done|]. intros y Hy. apply Hl. by right.
  - by destruct (Hno msg).
  - by apply computes_bind_fuel.
Qed.

(** X21.  The two ways in which [calculateRequest()] rejects a request, both
    before any calculation and with the caches left as they are: more than 10
    pieces between the "vs" give the message of the limit, whatever the pieces
    are; otherwise the first piece that [Dice.parse] rejects gives its
    message. *)
Theorem request_errors fuel request cs :
  ((10 < length (Index.split_vs request))%nat →
   Index.calculateRequest fuel request cs
   = (Throw "The maximum amount of dices to compare is 10", cs))
  ∧ (∀ pre bad post msg,
       Index.split_vs request = pre ++ bad :: post →
       (length (Index.split_vs request) ≤ 10)%nat →
       Forall (λ piece, ∃ d, Dice.parse piece = Ret d) pre →
       Dice.parse bad = Throw msg →
       Index.calculateRequest fuel request cs = (Throw msg, cs)).
Proof.
  unfold Index.calculateRequest, require. split.
  - intros Hlen. destruct (Nat.leb_spec (length (Index.split_vs request)) 10);
      [lia|done].
  - intros pre bad post msg Hsplit Hlen Hpre Hbad.
    destruct (Nat.leb_spec (length (Index.split_vs request)) 10); [|lia].
    rewrite Hsplit, (map_outcome_first_throw _ _ _ _ msg) by done. done.
Qed.

Lemma request_errors_witness :
  Index.calculateRequest 0 "1vs2vs3vs4vs5vs6vs7vs8vs9vs10vs11" no_caches
  = (Throw "The maximum amount of dices to compare is 10", no_caches)
  ∧ Index.calculateRequest 0 "1d6 vs 6 vs 0d4" no_caches
    = (Throw "Invalid dice description:  6 ", no_caches).
Proof.
  split.
  - apply (proj1 (request_errors 0 "1vs2vs3vs4vs5vs6vs7vs8vs9vs10vs11"
                    no_caches)).
    simpl. lia.
  - apply (proj2 (request_errors 0 "1d6 vs 6 vs 0d4" no_caches)
             ["1d6 "] " 6 " [" 0d4"]).
    + reflexivity.
    + simpl. lia.
    + apply Forall_cons. split; [by eexists|done].
    + reflexivity.
Defined.

(** X22.  What [calculateRequest()] hands to the table: one result for each
    piece of the request, in the order of the pieces, for the dice parsed from
    that piece; at most 10 of them; each with the 25 values of [pGreaterThan]
    and with one win probability for each dice of the request, itself included,
    in the order of the request, so that every result has an entry at the
    index of every result. *)
Theorem request_results_shape fuel request cs results cs' :
  Index.calculateRequest fuel request cs = (Ret results, cs') →
  ∃ dices,
    Forall2 (λ piece d, Dice.parse piece = Ret d)
      (Index.split_vs request) dices
    ∧ (length results ≤ 10)%nat
    ∧ DiceResult.dice <$> results = dices
    ∧ Forall (λ r,
         length r.(DiceResult.pGreaterThan) = 25%nat
         ∧ DiceResult.diceName <$> r.(DiceResult.pToWinAgainstOthers)
           = Dice.name <$> dices
         ∧ length r.(DiceResult.pToWinAgainstOthers) = length results)
        results.
Proof.
  unfold Index.calculateRequest, require. intros H.
  apply bind_Ret_inv in H as ([] & c1 & Hlen & H).
  apply bind_Ret_inv in H as (dices & c2 & Hdices & H).
  unfold lift in Hlen, Hdices. injection Hdices as Hdices _.
  destruct (Nat.leb_spec (length (Index.split_vs request)) 10) as [Hle|];
    [|done].
  clear Hlen. apply mapM_Ret_inv in H.
  pose proof (Forall2_length _ _ _ H) as Hsame.
  pose proof (map_outcome_length _ _ _ Hdices) as Hparsed.
  exists dices. split; [by apply map_outcome_each|]. split; [lia|].
  assert (Forall2 (λ d r,
            r.(DiceResult.dice) = d
            ∧ length r.(DiceResult.pGreaterThan) = 25%nat
            ∧ DiceResult.diceName <$> r.(DiceResult.pToWinAgainstOthers)
              = Dice.name <$> dices) dices results) as Hshape.
  { eapply Forall2_impl; [exact H|]. intros d r (c3 & c4 & Hr).
    apply calculate_Ret in Hr
      as (e & v & md & pf & ps & wins & c5 & c6 & c7 & -> & Hps & Hwins).
    cbn. split; [done|]. split.
    - by apply probabilityMap_length in Hps.
    - by apply winMap_names in Hwins. }
  clear H. split.
  - assert (Forall2 (λ d r, r.(DiceResult.dice) = d) dices results) as Hd.
    { eapply Forall2_impl; [exact Hshape|]. by intros d r (Hd & _). }
    clear Hshape Hsame Hparsed Hdices.
    induction Hd as [|d r ds rs Hd _ IH]; [done|]. cbn. by rewrite Hd, IH.
  - apply Forall_forall. intros r Hr.
    apply (Forall2_Forall_r _ (λ r,
             length r.(DiceResult.pGreaterThan) = 25%nat
             ∧ DiceResult.diceName <$> r.(DiceResult.pToWinAgainstOthers)
               = Dice.name <$> dices) _ _) in Hshape.
    + rewrite Forall_forall in Hshape.
      destruct (Hshape r Hr) as [Hps Hwins]. split; [done|]. split; [done|].
      apply (f_equal length) in Hwins. rewrite !length_fmap in Hwins. lia.
    + apply Forall_forall. intros d _ r' (_ & Hps & Hwins). done.
Qed.

Lemma request_results_shape_witness :
  ∃ results cs',
    Index.calculateRequest (Z.to_nat 9600) "1d4 vs 1d6+1" no_caches
    = (Ret results, cs')
    ∧ ∃ dices,
        Forall2 (λ piece d, Dice.parse piece = Ret d)
          (Index.split_vs "1d4 vs 1d6+1") dices
        ∧ (length results ≤ 10)%nat
        ∧ DiceResult.dice <$> results = dices
        ∧ Forall (λ r,
             length r.(DiceResult.pGreaterThan) = 25%nat
             ∧ DiceResult.diceName <$> r.(DiceResult.pToWinAgainstOthers)
               = Dice.name <$> dices
             ∧ length r.(DiceResult.pToWinAgainstOthers) = length results)
            results.
Proof.
  destruct (mapM_settles (Z.to_nat 9600) [dice_of 1 4 0; dice_of 1 6 1])
    as (results & Hresults).
  - repeat (apply Forall_cons; split;
              [apply settles_intro; [unfold in_bounds; lia|lia]|]).
    done.
  - lia.
  - destruct (request_runs (Z.to_nat 9600) "1d4 vs 1d6+1"
                [dice_of 1 4 0; dice_of 1 6 1] _ eq_refl ltac:(simpl; lia)
                Hresults no_caches no_caches_ok) as (cs' & E & _).
    exists results, cs'. split; [exact E|].
    apply (request_results_shape (Z.to_nat 9600) "1d4 vs 1d6+1" no_caches
             results cs' E).
Defined.



(** X24.  One dice hangs the page: when the pieces of a request parse to valid
    dice and one of them has several dice, at least 3 sides and a modifier
    below minus half the sides, [calculateRequest()] returns for no amount of
    fuel. *)
Theorem request_hangs fuel request dices c s m cs :
  Index.map_outcome Dice.parse (Index.split_vs request) = Ret dices →
  (length dices ≤ 10)%nat → Forall valid dices →
  dice_of c s m ∈ dices → (2 ≤ c)%Z → (3 ≤ s)%Z → (s < 2 * - m)%Z →
  cache_ok cs →
  (Index.calculateRequest fuel request cs).1 = OutOfFuel.
Proof.
  intros Hparse Hlen Hvalid Hin Hc Hs Hm Hcs.
  assert (computes (Index.calculateRequest fuel request) OutOfFuel) as H.
  { apply (request_runs fuel request dices _ Hparse Hlen).
    apply (mapM_hangs _ _ (dice_of c s m)); [done| |].
    - intros d Hd. rewrite Forall_forall in Hvalid.
      destruct (Hvalid d Hd) as (c' & s' & m' & Hb & ->).
      destruct (calculate_computes fuel c' s' m' dices Hb
                  ltac:(by apply Forall_forall))
        as (e & v & wins & _ & _ & Hcalc).
      eexists. split; [exact Hcalc|]. intros msg.
      destruct (Value.median fuel c' s' m') as [md| |] eqn:E; [done| |done].
      by apply median_never_throws in E.
    - rewrite Forall_forall in Hvalid.
      destruct (Hvalid _ Hin) as (c' & s' & m' & Hb & Heq).
      injection Heq as _ <- <- <-.
      destruct (calculate_computes fuel c s m dices Hb
                  ltac:(by apply Forall_forall))
        as (e & v & wins & _ & _ & Hcalc).
      assert (Value.median fuel c s m = OutOfFuel) as Hmedian.
      { apply median_from_diverges. intros k.
        by apply lessOrEqual_below_half. }
      by rewrite Hmedian in Hcalc. }
  destruct (H cs Hcs) as (cs' & -> & _). done.
Qed.

Lemma request_hangs_witness :
  (Index.calculateRequest 1000 "1d6 vs 2d6-4" no_caches).1 = OutOfFuel.
Proof.
  apply (request_hangs 1000 "1d6 vs 2d6-4"
           [dice_of 1 6 0; dice_of 2 6 (-4)] 2 6 (-4) no_caches).
  - reflexivity.
  - simpl. lia.
  - apply Forall_cons. split; [exists 1, 6, 0; by unfold in_bounds|].
    apply Forall_cons. split; [exists 2, 6, (-4); by unfold in_bounds|done].
  - set_solver.
  - lia.
  - lia.
  - lia.
  - apply no_caches_ok.
Defined.

End Request.

(** ** Dice with the modifier NaN *)

Section Keeping.

Import DiceCalculator.

Variable Inv : caches → Prop.
Hypothesis Inv_equal :
  ∀ name o c, Inv c → Inv (Table.update (EqualTable name) o c).

Lemma keeping_ret {A} (a : A) : returns_keeping Inv (mret a).
Proof. intros c Hc. by exists a, c. Qed.

Lemma keeping_bind {A B} (m : M A) (f : A → M B) :
  returns_keeping Inv m → (∀ a, returns_keeping Inv (f a)) →
  returns_keeping Inv (m ≫= f).
Proof.
  intros Hm Hf c Hc. destruct (Hm c Hc) as (a & c1 & E1 & Hc1).
  destruct (Hf a c1 Hc1) as (b & c2 & E2 & Hc2). exists b, c2.
  split; [|done]. unfold mbind, M_bind. by rewrite E1.
Qed.

Lemma keeping_obtain {A} name (f : table → M A) :
  returns_keeping Inv (f (EqualTable name)) →
  returns_keeping Inv (Table.obtain (EqualTable name) ≫= f).
Proof.
  intros Hf c Hc. unfold mbind, M_bind, Table.obtain.
  destruct (Table.contents _ c); apply Hf; [done|by apply Inv_equal].
Qed.

Lemma keeping_get t k : returns_keeping Inv (Table.get t k).
Proof. intros c Hc. by eexists _, c. Qed.

Lemma keeping_set name k v :
  returns_keeping Inv (Table.set (EqualTable name) k v).
Proof. intros c Hc. eexists _, _. split; [done|]. by apply Inv_equal. Qed.

(** The probability of a result of one die: the call returns, whatever the
    fields of the dice and whatever the tables hold. *)
Lemma keeping_equal this k :
  this.(dice).(Dice.count) = Int 1 →
  returns_keeping Inv (probabilityForResultEqualTo this k).
Proof.
  intros Hcount. unfold probabilityForResultEqualTo, nesting. rewrite Hcount.
  change (Z.to_nat (Z.max 1 1)) with 1%nat.
  cbn [probabilityForResultEqualTo_fuel].
  apply keeping_obtain.
  apply keeping_bind; [apply keeping_get|]. intros [v|];
    [apply keeping_ret|].
  apply keeping_bind.
  - unfold calculateProbabilityForResultEqualTo_with. rewrite Hcount.
    change (Number.strict_eq (Int 1) (Int 1)) with true. cbn [andb].
    case_condition; apply keeping_ret.
  - intros v. apply keeping_bind; [apply keeping_set|].
    intros []. apply keeping_ret.
Qed.

(** The loop of the summation over terms that return.  From the index
    NaN the loop makes one round: no comparison with NaN holds. *)
Lemma keeping_do_while_nan f cfg fuel nv na :
  (∀ k, returns_keeping Inv (f k)) →
  returns_keeping Inv (Sum.do_while (S fuel) f cfg NaN nv na).
Proof.
  intros Hf. cbn [Sum.do_while].
  apply keeping_bind; [apply Hf|]. intros next. apply keeping_ret.
Qed.

Lemma keeping_do_while f cfg L fuel : ∀ z nv na,
  (∀ k, returns_keeping Inv (f k)) →
  reached cfg.(Sum.minIterations) L → reached cfg.(Sum.maxIterations) L →
  (Z.to_nat (L - (z + 1)) < fuel)%nat →
  returns_keeping Inv (Sum.do_while fuel f cfg (Int z) nv na).
Proof.
  induction fuel as [|fuel IH]; intros z nv na Hf Hmn Hmx Hfuel; [lia|].
  cbn [Sum.do_while].
  apply keeping_bind; [apply Hf|]. intros next.
  cbn [Number.add Number.lift2].
  destruct (_ || _) eqn:E; [|apply keeping_ret].
  apply IH; [done..|].
  destruct (Z.le_gt_cases L (z + 1)) as [Hle|Hlt]; [|lia].
  by rewrite !(reached_not_lt _ L (z + 1)) in E.
Qed.

Lemma keeping_sum f cfg :
  (∀ k, returns_keeping Inv (f k)) →
  returns_keeping Inv (Sum.simulateSumToInfinity f cfg).
Proof.
  intros Hf. unfold Sum.simulateSumToInfinity.
  apply keeping_bind; [apply Hf|]. intros nv.
  apply keeping_bind; [apply Hf|]. intros na.
  destruct cfg as [thr mn mx [|st]]; cbn [Sum.startIndex].
  - by apply keeping_do_while_nan.
  - apply (keeping_do_while _ _
             (st + Z.max (Sum.gap mn (Int st)) (Sum.gap mx (Int st))));
      [done| | |].
    + destruct mn as [|a]; [done|]. cbn. lia.
    + destruct mx as [|a]; [done|]. cbn. lia.
    + unfold Sum.rounds. cbn [Sum.minIterations Sum.maxIterations
                              Sum.startIndex]. lia.
Qed.

Lemma constructor_within name c s modifier :
  in_bounds c s →
  Dice.constructor name (Int c) (Int s) modifier
  = Ret (Dice.mk name (Int c) (Int s) modifier).
Proof.
  intros [Hc Hs]. unfold Dice.constructor, require; simpl.
  destruct (Z.gtb_spec c 0); [|lia]. simpl.
  destruct (Z.geb_spec s 2); [|lia]. simpl.
  destruct (Z.leb_spec c 16); [|lia]. simpl.
  destruct (Z.leb_spec s 100); [|lia]. done.
Qed.

(** The expected value and the variance use the probabilities of one die
    only: they return for every dice within the bounds, whatever its
    modifier. *)
Lemma keeping_expected this c s :
  this.(dice).(Dice.count) = Int c → this.(dice).(Dice.sides) = Int s →
  in_bounds c s →
  returns_keeping Inv (calculateExpectedValue this).
Proof.
  intros Hcount Hsides Hb. unfold calculateExpectedValue.
  cbn [calculateExpectedValue_fuel]. rewrite Hcount.
  cbn [Number.strict_eq Number.cmp].
  destruct (Z.eqb_spec c 1) as [->|Hne].
  - apply keeping_sum. intros k.
    apply keeping_bind; [by apply keeping_equal|].
    intros p. apply keeping_ret.
  - unfold Dice.withCount. rewrite Hsides.
    rewrite constructor_within by (destruct Hb; split; lia).
    change (lift (Ret ?d) ≫= ?f) with (f d). cbv beta.
    apply keeping_bind; [|intros; apply keeping_ret].
    cbn [dice Dice.count Number.strict_eq Number.cmp].
    change (1 =? 1) with true. cbv iota.
    apply keeping_sum. intros k.
    apply keeping_bind; [by apply keeping_equal|].
    intros p. apply keeping_ret.
Qed.

Lemma keeping_variance this c s exp :
  this.(dice).(Dice.count) = Int c → this.(dice).(Dice.sides) = Int s →
  in_bounds c s →
  returns_keeping Inv (calculateVariance this exp).
Proof.
  intros Hcount Hsides Hb. unfold calculateVariance.
  cbn [calculateVariance_fuel]. rewrite Hcount.
  cbn [Number.strict_eq Number.cmp].
  destruct (Z.eqb_spec c 1) as [->|Hne].
  - apply keeping_sum. intros k.
    apply keeping_bind; [by apply keeping_equal|].
    intros p. apply keeping_ret.
  - unfold Dice.withCount. rewrite Hsides.
    rewrite constructor_within by (destruct Hb; split; lia).
    change (lift (Ret ?d) ≫= ?f) with (f d). cbv beta.
    cbn [calculateVariance_fuel dice Dice.count Number.strict_eq Number.cmp].
    change (1 =? 1) with true. cbv iota.
    apply keeping_sum. intros k.
    apply keeping_bind; [by apply keeping_equal|].
    intros p. apply keeping_ret.
Qed.

End Keeping.

Section NaNModifier.

Import DiceCalculator.

Lemma nan_entry_ok_equal name name' o c :
  nan_entry_ok name c → nan_entry_ok name (Table.update (EqualTable name') o c).
Proof. done. Qed.

Lemma nan_entry_ok_empty name : nan_entry_ok name no_caches.
Proof. intros o v Ho. cbn in Ho. by rewrite lookup_empty in Ho. Qed.

(** [probabilityForResultLessOrEqualTo(NaN)] returns 0: no comparison
    with NaN holds. *)
Lemma lessOrEqual_nan this c :
  nan_entry_ok this.(dice).(Dice.name) c →
  ∃ c', probabilityForResultLessOrEqualTo this NaN c = (Ret (Val 0%Qc), c')
        ∧ nan_entry_ok this.(dice).(Dice.name) c'.
Proof.
  intros Hc. unfold probabilityForResultLessOrEqualTo, descent.
  cbn [Number.sub Number.lift2 probabilityForResultLessOrEqualTo_fuel].
  unfold getProbabilityLessOrEqualCache, mbind at 1, M_bind at 1,
    Table.obtain.
  set (name := this.(dice).(Dice.name)) in *.
  assert (∀ c1, nan_entry_ok name c1 →
            is_Some (probabilityLessOrEqualCache c1 !! name) →
            ∃ c', (cached ← Table.get (LessOrEqualTable name) NaN;
                   match cached with
                   | Some value => mret value
                   | None =>
                       value ←
                         (if Number.gt NaN
                               (Number.add (Int 0) this.(dice).(Dice.modifier))
                          then
                            below ← lift OutOfFuel;
                            equal ← probabilityForResultEqualTo this NaN;
                            mret (Real.add below equal)
                          else mret (Val 0%Qc));
                       _ ← Table.set (LessOrEqualTable name) NaN value;
                       mret value
                   end) c1 = (Ret (Val 0%Qc), c')
                  ∧ nan_entry_ok name c') as Hrest.
  { intros c1 Hc1 [o Ho].
    unfold mbind at 1, M_bind at 1, Table.get. cbn [Table.contents].
    rewrite Ho. cbn [mbind option_bind].
    destruct (o !! Number.toString NaN) as [v|] eqn:Hv.
    - rewrite (Hc1 o v Ho Hv). by exists c1.
    - cbn [Number.gt Number.cmp]. eexists. split; [reflexivity|].
      intros o' v' Ho' Hv'. cbn in Ho'. rewrite lookup_insert_eq in Ho'.
      injection Ho' as <-. cbn in Hv'. rewrite lookup_insert_eq in Hv'.
      by injection Hv' as <-. }
  cbn [Table.contents].
  destruct (probabilityLessOrEqualCache c !! name) as [o|] eqn:Ho.
  - apply Hrest; [done|]. by rewrite Ho.
  - apply Hrest.
    + intros o v Ho' Hv. cbn in Ho'. rewrite lookup_insert_eq in Ho'.
      injection Ho' as <-. by rewrite lookup_empty in Hv.
    + cbn. rewrite lookup_insert_eq. by eexists.
Qed.

(** From the index NaN the loop of the median never ends. *)
Lemma median_from_nan fuel this : ∀ c,
  nan_entry_ok this.(dice).(Dice.name) c →
  ∃ c', calculateMedian_from fuel this NaN c = (OutOfFuel, c').
Proof.
  induction fuel as [|fuel IH]; intros c Hc; [by eexists|].
  cbn [calculateMedian_from].
  destruct (lessOrEqual_nan this c Hc) as (c1 & E1 & Hc1).
  unfold mbind at 1, M_bind at 1. rewrite E1.
  change (Real.ge (Val 0%Qc) (Real.lit 1 2)) with false. cbv iota.
  unfold mbind at 1, M_bind at 1. cbn [mret M_ret].
  destruct (lessOrEqual_nan this c1 Hc1) as (c2 & E2 & Hc2).
  unfold mbind at 1, M_bind at 1. rewrite E2.
  change (Real.gt (Val 0%Qc) (Real.lit 1 2)) with false. cbv iota.
  by apply IH.
Qed.

(** X25.  A dice whose modifier is NaN hangs the calculation.  [Dice.parse]
    returns such a dice for a descriptor whose modifier token holds no
    number, "1d6-" for one; on it [calculateMedian()] and [calculate()]
    return for no amount of fuel, from the empty caches and from all caches
    whose table of [X <= k] for the name holds nothing or 0 under the key
    NaN, and so does [calculateRequest()] on a request whose first piece
    parses to it. *)
Theorem nan_modifier_hangs descriptor d fuel l :
  Dice.parse descriptor = Ret d → d.(Dice.modifier) = NaN →
  (∀ cs, nan_entry_ok d.(Dice.name) cs →
     (calculateMedian fuel (new d l) cs).1 = OutOfFuel
     ∧ (calculate fuel (new d l) cs).1 = OutOfFuel)
  ∧ (∀ request dices,
       Index.map_outcome Dice.parse (Index.split_vs request)
       = Ret (d :: dices) →
       (length (Index.split_vs request) ≤ 10)%nat →
       (Index.calculateRequest fuel request no_caches).1 = OutOfFuel).
Proof.
  intros Hparse Hnan.
  destruct (parse_Ret _ _ Hparse) as (c & s & Hc & Hs & Hb & _).
  assert (∀ l' cs, nan_entry_ok d.(Dice.name) cs →
            ∃ cs', calculateMedian fuel (new d l') cs = (OutOfFuel, cs'))
    as Hmedian.
  { intros l' cs Hcs. unfold calculateMedian. cbn [dice]. rewrite Hnan.
    by apply (median_from_nan fuel (new d l')). }
  assert (∀ l' cs, nan_entry_ok d.(Dice.name) cs →
            (calculate fuel (new d l') cs).1 = OutOfFuel) as Hcalc.
  { intros l' cs Hcs. unfold calculate.
    destruct (keeping_expected (nan_entry_ok d.(Dice.name))
                (nan_entry_ok_equal _) (new d l') c s Hc Hs Hb cs Hcs)
      as (e & c1 & E1 & Hc1).
    unfold mbind at 1, M_bind at 1. rewrite E1.
    destruct (keeping_variance (nan_entry_ok d.(Dice.name))
                (nan_entry_ok_equal _) (new d l') c s e Hc Hs Hb c1 Hc1)
      as (v & c2 & E2 & Hc2).
    unfold mbind at 1, M_bind at 1. rewrite E2.
    destruct (Hmedian l' c2 Hc2) as (c3 & E3).
    unfold mbind at 1, M_bind at 1. by rewrite E3. }
  split.
  - intros cs Hcs. split; [|by apply Hcalc].
    destruct (Hmedian l cs Hcs) as (cs' & ->). done.
  - intros request dices Hdices Hlen.
    unfold Index.calculateRequest, require.
    destruct (Nat.leb_spec (length (Index.split_vs request)) 10); [|lia].
    rewrite Hdices. cbn [negb].
    change (lift (Ret ?a) ≫= ?f) with (f a). cbv beta.
    change (lift (Ret ?a) ≫= ?f) with (f a). cbv beta.
    cbn [mapM]. unfold mbind at 1, M_bind at 1.
    pose proof (Hcalc (d :: dices) no_caches (nan_entry_ok_empty _)) as E.
    destruct (calculate fuel (new d (d :: dices)) no_caches) as [o c1].
    cbn in E. by rewrite E.
Qed.

Lemma nan_modifier_hangs_witness :
  (calculateMedian 1000 (new (Dice.mk "1d6-NaN" (Int 1) (Int 6) NaN) [])
     no_caches).1 = OutOfFuel
  ∧ (calculate 1000 (new (Dice.mk "1d6-NaN" (Int 1) (Int 6) NaN) [])
       no_caches).1 = OutOfFuel
  ∧ (Index.calculateRequest 1000 "1d6- vs 1d6" no_caches).1 = OutOfFuel.
Proof.
  destruct (nan_modifier_hangs "1d6-"
              (Dice.mk "1d6-NaN" (Int 1) (Int 6) NaN) 1000 [] eq_refl eq_refl)
    as [Hdice Hrequest].
  destruct (Hdice no_caches (nan_entry_ok_empty _)) as [Hmedian Hcalc].
  split; [done|]. split; [done|].
  apply (Hrequest "1d6- vs 1d6" [dice_of 1 6 0]); [reflexivity|simpl; lia].
Defined.

End NaNModifier.

(** ** The tails of the distributions *)

Section Tails.

Import DiceCalculator.

Local Open Scope Qc_scope.






End Tails.
